(** * The event-dispatch layer of the game catalogue services

    A shallow embedding of the Go programs of the four messaging variants
    (RabbitMQ fan-out exchange, ZeroMQ push/pull socket, Kafka log, PGMQ
    polling table): the star handler of each backend, the start-up code of
    each process and the consumer loop of each worker.

    Conventions.
    - A Go [int] is a [Z]; a Go [string] or [[]byte] is a [string].
    - A Go [error] is an [option string]: [None] is [nil].
    - What a process does to the outside (log lines, sleeps, calls to the
      broker or the database) is collected in a trace, in program order.
    - What the outside answers (does this dial succeed, does this statement
      fail) is an explicit argument of the embedded function. *)

From Stdlib Require Import ZArith Ascii String List Bool Lia.
From stdpp Require Import base tactics option list sorting gmap strings pretty.

Import ListNotations.
Local Open Scope string_scope.
Local Open Scope Z_scope.

Abbreviation error := (option string).

(** ** The parts of Go's standard library the handlers use *)

Module Go.

(** [strings.TrimPrefix]. *)
Fixpoint strip_prefix (p s : string) : option string :=
  match p, s with
  | EmptyString, _ => Some s
  | String a p', String b s' =>
      if Ascii.eqb a b then strip_prefix p' s' else None
  | String _ _, EmptyString => None
  end.

Definition TrimPrefix (s p : string) : string :=
  match strip_prefix p s with
  | Some rest => rest
  | None => s
  end.

(** [strings.Split(s, "/")]: the pieces between the separators, so that
    a string without separator gives one piece. *)
Fixpoint Split (s : string) (sep : ascii) : list string :=
  match s with
  | EmptyString => [EmptyString]
  | String c s' =>
      if Ascii.eqb c sep then EmptyString :: Split s' sep
      else match Split s' sep with
           | piece :: pieces => String c piece :: pieces
           | [] => [String c EmptyString]
           end
  end.

Definition digit (c : ascii) : option Z :=
  let n := Z.of_N (N_of_ascii c) in
  if (48 <=? n) && (n <=? 57) then Some (n - 48) else None.

Fixpoint digits (s : string) (acc : Z) : option Z :=
  match s with
  | EmptyString => Some acc
  | String c s' =>
      match digit c with
      | Some d => digits s' (10 * acc + d)
      | None => None
      end
  end.

Definition max_int : Z := 9223372036854775807.
Definition min_int : Z := -9223372036854775808.

(** [strconv.Atoi]: an optional sign, then one decimal digit or more; the
    value has to fit the 64-bit [int]. [None] stands for the error. *)
Definition Atoi (s : string) : option Z :=
  let '(neg, body) :=
    match s with
    | String "-" rest => (true, rest)
    | String "+" rest => (false, rest)
    | _ => (false, s)
    end in
  match body with
  | EmptyString => None
  | _ =>
      match digits body 0 with
      | Some n =>
          let v := if neg then - n else n in
          if (min_int <=? v) && (v <=? max_int) then Some v else None
      | None => None
      end
  end.

(** [%d] of the [log] and [fmt] verbs. *)
Definition itoa (n : Z) : string := pretty n.

End Go.

(** ** The game, and its JSON form *)

(** [type Game struct], the same in the four backends. *)
Record Game := mkGame {
  ID : Z;
  Title : string;
  Description : string;
  Stars : Z
}.

(** A JSON value, as far as [Game] needs it: its fields are scalars. *)
Inductive json :=
| JNum (n : Z)
| JStr (s : string).

(** The struct tags of [Game]: the key of each field, in declaration order,
    with the value [encoding/json] gives to an [int] and to a [string]. *)
Definition Game_fields (g : Game) : list (string * json) :=
  [ ("id", JNum (ID g));
    ("title", JStr (Title g));
    ("description", JStr (Description g));
    ("stars", JNum (Stars g)) ].

Definition dquote : string := String (ascii_of_nat 34) EmptyString.
Definition newline : string := String (ascii_of_nat 10) EmptyString.

Section Encoding.

(** How [encoding/json] writes the characters of a string between the
    quotes (its escapes) is the library's business, and is left open. *)
Variable escape : string -> string.

Definition encode_value (j : json) : string :=
  match j with
  | JNum n => Go.itoa n
  | JStr s => dquote +:+ escape s +:+ dquote
  end.

Fixpoint encode_members (fs : list (string * json)) : string :=
  match fs with
  | [] => ""
  | (k, v) :: rest =>
      dquote +:+ escape k +:+ dquote +:+ ":" +:+ encode_value v +:+
      match rest with
      | [] => ""
      | _ :: _ => "," +:+ encode_members rest
      end
  end.

Definition encode_object (fs : list (string * json)) : string :=
  "{" +:+ encode_members fs +:+ "}".

(** [json.Marshal(game)]. Marshalling a struct of ints and strings has no
    error case; the handlers test the error all the same. *)
Definition Marshal (g : Game) : string * error :=
  (encode_object (Game_fields g), None).

End Encoding.

(** ** The request, the response and the games table *)

Record Request := mkRequest {
  Method : string;
  Path : string
}.

Record Response := mkResponse {
  Status : Z;
  ContentType : string;
  Body : string
}.

Definition StatusOK : Z := 200.
Definition StatusBadRequest : Z := 400.
Definition StatusNotFound : Z := 404.
Definition StatusInternalServerError : Z := 500.

(** [http.Error(w, msg, code)]. *)
Definition http_Error (msg : string) (code : Z) : Response :=
  mkResponse code "text/plain; charset=utf-8" (msg +:+ newline).

(** A row of the table [games], under its key [id]. *)
Record Row := mkRow {
  title : string;
  description : string;
  stars : Z
}.

Inductive row_result :=
| Scanned (g : Game)
| ErrNoRows
| SqlError (e : string).

(** [UPDATE games SET stars = stars + 1 WHERE id = $1 RETURNING id, title,
    description, stars], run on its own (autocommit): the statement is
    committed when [QueryRow(...).Scan] returns. [fault] is the error of
    the driver, when the statement could not run. *)
Definition update_stars (games : gmap Z Row) (fault : error) (id : Z)
  : gmap Z Row * row_result :=
  match fault with
  | Some e => (games, SqlError e)
  | None =>
      match games !! id with
      | None => (games, ErrNoRows)
      | Some r =>
          let r' := mkRow (title r) (description r) (stars r + 1) in
          (<[id := r']> games, Scanned (mkGame id (title r') (description r') (stars r')))
      end
  end.

(** What a handler does besides answering: the lines it logs and the
    messages it hands to the transport, in program order. *)
Inductive effect (M : Type) :=
| Log (line : string)
| Send (m : M).
Arguments Log {M} line.
Arguments Send {M} m.

Record handled (M : Type) := mkHandled {
  games_after : gmap Z Row;
  response : option Response;
  effects : list (effect M)
}.
Arguments mkHandled {M}.
Arguments games_after {M}.
Arguments response {M}.
Arguments effects {M}.

(** The first half of [handleGameActions], the same text in the four
    backends: the path is checked, the id parsed and the star added. It
    ends with a reply of its own, with nothing written (a method other than
    POST), or with the updated game. *)
Inductive star_step :=
| Replied (r : Response)
| Silent
| Starred (games' : gmap Z Row) (game : Game).

Definition add_star (games : gmap Z Row) (fault : error) (r : Request) : star_step :=
  let path := Go.TrimPrefix (Path r) "/api/games/" in
  let parts := Go.Split path "/" in
  match parts with
  | p0 :: p1 :: _ =>
      if negb (String.eqb p1 "star") then
        Replied (http_Error "Invalid path" StatusBadRequest)
      else
        match Go.Atoi p0 with
        | None => Replied (http_Error "Invalid game ID" StatusBadRequest)
        | Some gameID =>
            if String.eqb (Method r) "POST" then
              match update_stars games fault gameID with
              | (_, ErrNoRows) => Replied (http_Error "Game not found" StatusNotFound)
              | (_, SqlError e) => Replied (http_Error e StatusInternalServerError)
              | (games', Scanned game) => Starred games' game
              end
            else Silent
        end
  | _ => Replied (http_Error "Invalid path" StatusBadRequest)
  end.

(** [w.Header().Set("Content-Type", "application/json")] and
    [json.NewEncoder(w).Encode(game)]: the encoder ends the value with a
    newline; the status is the default one. *)
Definition write_game (escape : string -> string) (game : Game) : Response :=
  mkResponse StatusOK "application/json" (fst (Marshal escape game) +:+ newline).


(** ** The broker of the broadcast variant

    The AMQP resources the three RabbitMQ programs declare, with the
    arguments of the client calls, and what the broker does with a
    declaration: it creates what is absent, accepts what is present with the
    same attributes, and refuses (a channel exception) a redeclaration with
    other attributes or a binding between resources that do not exist. *)

Module Amqp.

(** The arguments of [Channel.QueueDeclare] (the table of extra
    arguments is [nil] in every call). *)
Record Queue := mkQueue {
  qName : string;
  qDurable : bool;
  qAutoDelete : bool;
  qExclusive : bool;
  qNoWait : bool
}.

(** The arguments of [Channel.ExchangeDeclare]. *)
Record Exchange := mkExchange {
  xName : string;
  xKind : string;
  xDurable : bool;
  xAutoDelete : bool;
  xInternal : bool;
  xNoWait : bool
}.

(** The arguments of [Channel.QueueBind]. *)
Record Binding := mkBinding {
  bQueue : string;
  bKey : string;
  bExchange : string;
  bNoWait : bool
}.

Inductive declaration :=
| QueueDeclare (q : Queue)
| ExchangeDeclare (x : Exchange)
| QueueBind (b : Binding).

(** What the broker keeps of a queue and of an exchange. *)
Definition queue_attrs : Type := bool * bool * bool.
Definition exchange_attrs : Type := string * bool * bool * bool.

Definition attrs_of_queue (q : Queue) : queue_attrs :=
  (qDurable q, qAutoDelete q, qExclusive q).
Definition attrs_of_exchange (x : Exchange) : exchange_attrs :=
  (xKind x, xDurable x, xAutoDelete x, xInternal x).

Record Broker := mkBroker {
  queues : gmap string queue_attrs;
  exchanges : gmap string exchange_attrs;
  bindings : list (string * string * string)
}.

Definition fresh : Broker := mkBroker ∅ ∅ [].

Definition declare (b : Broker) (d : declaration) : Broker + string :=
  match d with
  | QueueDeclare q =>
      match queues b !! qName q with
      | None =>
          inl (mkBroker (<[qName q := attrs_of_queue q]> (queues b)) (exchanges b) (bindings b))
      | Some a =>
          if decide (a = attrs_of_queue q) then inl b
          else inr "PRECONDITION_FAILED - inequivalent arg for queue"
      end
  | ExchangeDeclare x =>
      match exchanges b !! xName x with
      | None =>
          inl (mkBroker (queues b) (<[xName x := attrs_of_exchange x]> (exchanges b)) (bindings b))
      | Some a =>
          if decide (a = attrs_of_exchange x) then inl b
          else inr "PRECONDITION_FAILED - inequivalent arg for exchange"
      end
  | QueueBind bd =>
      match queues b !! bQueue bd, exchanges b !! bExchange bd with
      | Some _, Some _ =>
          let entry := (bQueue bd, bKey bd, bExchange bd) in
          if decide (entry ∈ bindings b) then inl b
          else inl (mkBroker (queues b) (exchanges b) (bindings b ++ [entry]))
      | None, _ => inr "NOT_FOUND - no queue"
      | _, None => inr "NOT_FOUND - no exchange"
      end
  end.

(** Where the broker puts a message published to [exchange] with routing
    key [key]: the default exchange (the empty name) routes to the queue
    named by the key; a declared exchange, here always of kind fanout,
    routes to every queue bound to it; an exchange that was never declared
    routes nowhere (the broker closes the channel with NOT_FOUND). *)
Definition route (b : Broker) (exchange key : string) : option (list string) :=
  if decide (exchange = "") then
    Some (if decide (is_Some (queues b !! key)) then [key] else [])
  else
    match exchanges b !! exchange with
    | None => None
    | Some _ =>
        Some (omap (λ e : string * string * string,
                      if decide (e.2 = exchange) then Some e.1.1 else None)
                   (bindings b))
    end.

End Amqp.

(** ** What a process does, seen from outside *)

Inductive target := Database | Rabbit | Publisher.

Inductive act :=
(* start-up *)
| Try (t : target)             (* db.Ping, amqp.Dial, Socket.Connect *)
| Migrate                      (* runMigrations *)
| OpenChannel                  (* Connection.Channel *)
| Declared (d : Amqp.declaration)
| Consume (queue : string) (autoAck : bool)
| Bind (endpoint : string)     (* Socket.Bind *)
| Listen (addr : string)       (* http.ListenAndServe: the server is up *)
| Loop                         (* the consumer loop is entered *)
(* anywhere *)
| Print (line : string)        (* log.Println, log.Printf *)
| Nap (ms : Z)                 (* time.Sleep *)
| Fatal (line : string)        (* log.Fatal: the line, then exit status 1 *)
(* the consumer loop *)
| Poll                         (* a pull is started *)
| Pull (id : Z) (body : string)  (* a message is handed to the loop *)
| Processed (id : Z)           (* the simulated work on it is over *)
| Ack (id : Z)                 (* Delivery.Ack *)
| Archive (id : Z)             (* pgmq.archive *)
| Delete (id : Z)              (* pgmq.delete *)
| Commit (id : Z)              (* the offset of the message is committed *)
| Cancel.                      (* the cancel function of the context *)

(** ** Start-up code as a small monad

    A piece of start-up code runs on a state [S] (the broker, where there is
    one), leaves a trace and either goes on with a value or has ended the
    process ([log.Fatal]); what follows an ended process does not run. *)

Definition proc (S A : Type) : Type := S → list act * S * option A.

Definition ret {S A} (a : A) : proc S A := λ s, ([], s, Some a).

Definition bind {S A B} (m : proc S A) (k : A → proc S B) : proc S B :=
  λ s,
    match m s with
    | (t, s', None) => (t, s', None)
    | (t, s', Some a) =>
        match k a s' with
        | (t', s'', r) => ((t ++ t')%list, s'', r)
        end
    end.

Definition emit {S} (t : list act) : proc S unit := λ s, (t, s, Some tt).

Definition fatal {S A} (line : string) : proc S A := λ s, ([Fatal line], s, None).

(** [if err != nil { log.Fatal(prefix, err) }] *)
Definition check {S} (err : error) (prefix : string) : proc S unit :=
  match err with
  | Some e => fatal (prefix +:+ e)
  | None => ret tt
  end.

#[global] Instance proc_ret {S} : MRet (proc S) := λ A, ret.
#[global] Instance proc_bind {S} : MBind (proc S) := λ A B k m, bind m k.

Definition trace_of {S A} (r : list act * S * option A) : list act := r.1.1.
Definition state_of {S A} (r : list act * S * option A) : S := r.1.2.
Definition value_of {S A} (r : list act * S * option A) : option A := r.2.

(** [Channel.QueueDeclare] and the like against the broker, with the
    [log.Fatalf] that follows each of them. *)
Definition declare_or_die (d : Amqp.declaration) (prefix : string)
  : proc Amqp.Broker unit :=
  λ b,
    match Amqp.declare b d with
    | inl b' => ([Declared d], b', Some tt)
    | inr e => ([Declared d; Fatal (prefix +:+ e)], b, None)
    end.

(** The wait for the database, the same text in the four backends and in
    the PGMQ worker: [for range 120 { if err := db.Ping(); err == nil {
    log.Println("Connected to database"); break }; time.Sleep(250 *
    time.Millisecond) }]. [ping k] is the answer to the [k]-th ping.
    Nothing is tested after the loop. *)
Fixpoint wait_for_database (rounds : nat) (ping : nat → error) (k : nat) : list act :=
  match rounds with
  | O => []
  | S rounds' =>
      match ping k with
      | None => [Try Database; Print "Connected to database"]
      | Some _ => Try Database :: Nap 250 :: wait_for_database rounds' ping (S k)
      end
  end.

(** [runMigrations(db)] and the test of its error. *)
Definition run_migrations {S} (migrate_err : error) : proc S unit :=
  emit [Migrate] ;;
  match migrate_err with
  | Some e => fatal ("Failed to run migrations:" +:+ e)
  | None => emit [Print "Migrations completed successfully"]
  end.

(** The first lines of the [main] of a backend. *)
Definition open_database {S} (open_err : error) (ping : nat → error)
    (migrate_err : error) : proc S unit :=
  check open_err "Failed to connect to database:" ;;
  emit (wait_for_database 120 ping 0) ;;
  run_migrations migrate_err.

(** ** The backend of the broadcast variant (RabbitMQ) *)

Module RabbitBackend.

(** [amqp.Publishing], the fields the handler sets. *)
Record Publishing := mkPublishing {
  pContentType : string;
  pBody : string;
  DeliveryMode : Z
}.

(** A call of [Channel.Publish]. *)
Record publish := mkPublish {
  exchange : string;
  key : string;
  mandatory : bool;
  immediate : bool;
  msg : Publishing
}.

(** What the outside answers during one request. *)
Record answers := mkAnswers {
  update_fault : error;
  publish_err : error
}.

(** What the outside answers during start-up: [ping k] and [dial k] are
    the errors of the [k]-th [db.Ping] and of the [k]-th [amqp.Dial]. *)
Record boot := mkBoot {
  open_err : error;
  ping : nat → error;
  migrate_err : error;
  dial : nat → error;
  channel_err : error
}.

(** [for range 120 { var err error; rabbitConn, err = amqp.Dial(url); if
    err == nil { log.Println("Connected to RabbitMQ"); break };
    time.Sleep(250 * time.Millisecond) }]. The result tells whether
    [rabbitConn] is set: a failed [Dial] returns a nil connection. *)
Fixpoint dial_loop (rounds : nat) (dial : nat → error) (k : nat) : list act * bool :=
  match rounds with
  | O => ([], false)
  | S rounds' =>
      match dial k with
      | None => ([Try Rabbit; Print "Connected to RabbitMQ"], true)
      | Some _ =>
          let '(t, rabbitConn) := dial_loop rounds' dial (S k) in
          (Try Rabbit :: Nap 250 :: t, rabbitConn)
      end
  end.

Definition email_queue : Amqp.Queue := Amqp.mkQueue "email_queue" true false false false.

Definition main (env : boot) : proc Amqp.Broker unit :=
  open_database (open_err env) (ping env) (migrate_err env) ;;
  let '(t, rabbitConn) := dial_loop 120 (dial env) 0 in
  emit t ;;
  (if rabbitConn : bool then ret tt
   else fatal "Failed to connect to RabbitMQ after retries") ;;
  emit [OpenChannel] ;;
  check (channel_err env) "Failed to open RabbitMQ channel:" ;;
  declare_or_die (Amqp.QueueDeclare email_queue) "Failed to declare queue:" ;;
  emit [Print "Server starting on :8080"; Listen ":8080"].

Section Handler.
Variable escape : string -> string.

(** [rabbitCh] is [true] when the global channel is not nil, as it is
    once [main] has reached the server. *)
Definition handleGameActions (rabbitCh : bool) (games : gmap Z Row)
    (env : answers) (r : Request) : handled publish :=
  match add_star games (update_fault env) r with
  | Replied resp => mkHandled games (Some resp) []
  | Silent => mkHandled games None []
  | Starred games' game =>
      let published :=
        if rabbitCh then
          match Marshal escape game with
          | (_, Some e) => [Log ("Failed to marshal game event: " +:+ e)]
          | (body, None) =>
              let call :=
                mkPublish "game_events" "" false false
                  (mkPublishing "application/json" body 2) in
              match publish_err env with
              | Some e => [Send call; Log ("Failed to publish message: " +:+ e)]
              | None => [Send call; Log ("Published event for game " +:+ Go.itoa (ID game))]
              end
          end
        else [] in
      mkHandled games' (Some (write_game escape game)) published
  end.
End Handler.

End RabbitBackend.

(** ** The backend of the polling variant (PGMQ) *)

Module PgmqBackend.

(** A call of [pgmq.send(queue, message)]. *)
Record send := mkSend {
  queue : string;
  message : string
}.

(** What the outside answers during one request: [send_result] is the
    message id the queue returns, or the error of the statement. *)
Record answers := mkAnswers {
  update_fault : error;
  send_result : Z + string
}.

Record boot := mkBoot {
  open_err : error;
  ping : nat → error;
  migrate_err : error
}.

(** The database is the transport of this variant: the wait for the
    database is its only connection loop. *)
Definition main (env : boot) : proc unit unit :=
  open_database (open_err env) (ping env) (migrate_err env) ;;
  emit [Print "Server starting on :8080"; Listen ":8080"].

Definition publishToPGMQ (res : Z + string) (gameData : string)
  : list (effect send) * error :=
  let call := mkSend "email_queue" gameData in
  match res with
  | inr e => ([Send call], Some ("failed to send message to PGMQ: " +:+ e))
  | inl msgID =>
      ([Send call; Log ("Published event to PGMQ queue (message ID: " +:+ Go.itoa msgID +:+ ")")],
       None)
  end.

Section Handler.
Variable escape : string -> string.

Definition handleGameActions (games : gmap Z Row) (env : answers)
    (r : Request) : handled send :=
  match add_star games (update_fault env) r with
  | Replied resp => mkHandled games (Some resp) []
  | Silent => mkHandled games None []
  | Starred games' game =>
      let published :=
        match Marshal escape game with
        | (_, Some e) => [Log ("Failed to marshal game event: " +:+ e)]
        | (body, None) =>
            match publishToPGMQ (send_result env) body with
            | (eff, Some e) => (eff ++ [Log ("Failed to publish to PGMQ: " +:+ e)])%list
            | (eff, None) => (eff ++ [Log ("Published event for game " +:+ Go.itoa (ID game))])%list
            end
        end in
      mkHandled games' (Some (write_game escape game)) published
  end.
End Handler.

End PgmqBackend.

(** ** The backend of the log variant (Kafka) *)

Module KafkaBackend.

(** [kafka.Message], the fields the publisher sets. *)
Record Message := mkMessage {
  Key : string;
  Value : string;
  Time : Z
}.

(** What the outside answers during one request: [now] is the clock read
    by [time.Now()]. *)
Record answers := mkAnswers {
  update_fault : error;
  now : Z;
  write_err : error
}.

Record boot := mkBoot {
  open_err : error;
  ping : nat → error;
  migrate_err : error
}.

(** [initKafka] builds the writer and dials nothing. *)
Definition initKafka (brokers : string) : proc unit unit :=
  emit [Print ("Kafka producer initialized, brokers: " +:+ brokers)].

Definition main (brokers : string) (env : boot) : proc unit unit :=
  open_database (open_err env) (ping env) (migrate_err env) ;;
  initKafka brokers ;;
  emit [Print "Server starting on :8080"; Listen ":8080"].

Definition publishToKafka (now : Z) (write_err : error) (gameData : string)
  : list (effect Message) * error :=
  let message := mkMessage "game-star-event" gameData now in
  match write_err with
  | Some e => ([Send message], Some ("failed to write message to Kafka: " +:+ e))
  | None => ([Send message; Log "Published event to Kafka topic: game-events"], None)
  end.

Section Handler.
Variable escape : string -> string.

(** The error of [json.Marshal] is overwritten unread here. *)
Definition handleGameActions (games : gmap Z Row) (env : answers)
    (r : Request) : handled Message :=
  match add_star games (update_fault env) r with
  | Replied resp => mkHandled games (Some resp) []
  | Silent => mkHandled games None []
  | Starred games' game =>
      let body := fst (Marshal escape game) in
      let published :=
        match publishToKafka (now env) (write_err env) body with
        | (eff, Some e) => (eff ++ [Log ("Failed to publish to Kafka: " +:+ e)])%list
        | (eff, None) => (eff ++ [Log ("Published event for game " +:+ Go.itoa (ID game))])%list
        end in
      mkHandled games' (Some (write_game escape game)) published
  end.
End Handler.

End KafkaBackend.

(** ** The backend of the socket variant (ZeroMQ) *)

Module ZeroBackend.

(** A call of [Socket.Send(data, flags)]. *)
Record send := mkSend {
  data : string;
  flags : Z
}.

Record answers := mkAnswers {
  update_fault : error;
  send_err : error
}.

Record boot := mkBoot {
  open_err : error;
  ping : nat → error;
  migrate_err : error;
  context_err : error;
  socket_err : error;
  bind_err : error
}.

(** The publisher binds its socket; it dials nothing. *)
Definition initZeroMQ (env : boot) : proc unit unit :=
  check (context_err env) "Failed to create ZMQ context: " ;;
  check (socket_err env) "Failed to create publisher socket: " ;;
  emit [Bind "tcp://*:5557"] ;;
  check (bind_err env) "Failed to bind publisher: " ;;
  emit [Print "ZeroMQ publisher started on port 5557"].

Definition main (env : boot) : proc unit unit :=
  open_database (open_err env) (ping env) (migrate_err env) ;;
  initZeroMQ env ;;
  emit [Print "Server starting on :8080"; Listen ":8080"].

Section Handler.
Variable escape : string -> string.

(** The error of [json.Marshal] is overwritten unread here too. *)
Definition handleGameActions (games : gmap Z Row) (env : answers)
    (r : Request) : handled send :=
  match add_star games (update_fault env) r with
  | Replied resp => mkHandled games (Some resp) []
  | Silent => mkHandled games None []
  | Starred games' game =>
      let body := fst (Marshal escape game) in
      let published :=
        Send (mkSend body 0) ::
        match send_err env with
        | Some e => [Log ("Failed to publish ZMQ message: " +:+ e)]
        | None => []
        end in
      mkHandled games' (Some (write_game escape game)) published
  end.
End Handler.

End ZeroBackend.

(** ** Consumer loops as machines

    A consumer loop is run by ticks: a tick lets the goroutine of the loop
    run up to its next suspension (a blocking receive, a sleep), or is
    something the outside does (a message arrives, the signal is sent). The
    state keeps what the process has done so far. *)

Record consumer := mkConsumer {
  tick : Type;
  state : Type;
  step : state → tick → state;
  signal : tick;
  output : state → list act;
  exited : state → bool
}.

Definition run (c : consumer) (s : state c) (ticks : list (tick c)) : state c :=
  fold_left (step c) ticks s.

(** The three finalizations the substrates offer. *)
Definition finalizes (a : act) : option Z :=
  match a with
  | Ack id | Archive id | Commit id => Some id
  | _ => None
  end.

Definition pulls (a : act) : bool :=
  match a with
  | Pull _ _ => true
  | _ => false
  end.

(** In a trace, every finalization is of the message pulled last, and
    comes after the end of the work on it. *)
Definition settled (t : list act) : Prop :=
  ∀ pre a id post,
    t = (pre ++ a :: post)%list → finalizes a = Some id →
    ∃ before body since,
      pre = (before ++ Pull id body :: since)%list ∧
      forallb (λ x, negb (pulls x)) since = true ∧
      In (Processed id) since.

(** In a trace, the work on every message pulled has come to its end. *)
Definition drained (t : list act) : Prop :=
  ∀ pre id body post,
    t = (pre ++ Pull id body :: post)%list → In (Processed id) post.

(** Shutdown as the specification has it: once the signal is sent no new
    pull is started, and when the loop has ended the work on every message
    it was handed is complete. *)
Definition graceful (c : consumer) (s0 : state c) : Prop :=
  ∀ before after,
    let s1 := run c s0 (before ++ [signal c]) in
    let s2 := run c s1 after in
    (∃ ext, output c s2 = (output c s1 ++ ext)%list ∧ ¬ In Poll ext) ∧
    (exited c s2 = true → drained (output c s2)).

(** Two monitors over what the loop has in hand. The first one refuses a
    finalization of anything but the message in hand, after the work on
    it; the second one refuses a pull while the work on the message in hand
    is not over. *)
Inductive hand :=
| Nothing
| Held (id : Z)
| Worked (id : Z).

Definition watch (h : hand) (a : act) : option hand :=
  match a with
  | Pull id _ => Some (Held id)
  | Processed id =>
      match h with
      | Held id' => if decide (id = id') then Some (Worked id) else Some h
      | _ => Some h
      end
  | Ack id | Archive id | Commit id =>
      match h with
      | Worked id' => if decide (id = id') then Some h else None
      | _ => None
      end
  | _ => Some h
  end.

Definition tidy (h : hand) (a : act) : option hand :=
  match a with
  | Pull id _ =>
      match h with
      | Held _ => None
      | _ => Some (Held id)
      end
  | Processed id =>
      match h with
      | Held id' => if decide (id = id') then Some (Worked id) else Some h
      | _ => Some h
      end
  | _ => Some h
  end.

Fixpoint follow (f : hand → act → option hand) (h : hand) (t : list act) : option hand :=
  match t with
  | [] => Some h
  | a :: t' =>
      match f h a with
      | Some h' => follow f h' t'
      | None => None
      end
  end.

(** ** The workers of the broadcast variant (RabbitMQ) *)

(** The e-mail service and the fulfillment service run the same loop, with
    their own lines and their own length of work:
    [for d := range msgs { log.Printf(processing, d.Body);
    time.Sleep(work); d.Ack(false); log.Printf(done) };
    log.Println(closed); forever <- true], in a goroutine [main] waits for.
    Neither program asks to be told of signals. [msgs] is the channel of
    [Channel.Consume]: the client library holds what the broker delivers
    and hands it to the loop one delivery at a time; when the channel
    shuts down it closes [msgs] and drops what it still holds. The error
    of [d.Ack] is not read. *)
Module RabbitWorker.

(** [amqp.Delivery], the fields the loop reads. *)
Record Delivery := mkDelivery {
  DeliveryTag : Z;
  Body : string
}.

Record lines := mkLines {
  work : Z;
  processing : string;
  done_line : string;
  closed_line : string
}.

Inductive pc :=
| Waiting                (* blocked in [range msgs] *)
| Working (d : Delivery) (* in [time.Sleep], [d] in hand *)
| Returned               (* the channel was closed and [main] has returned *)
| Killed.                (* the signal has ended the process *)

Record state := mkState {
  at_pc : pc;
  msgs : list Delivery;  (* delivered by the broker, held by the library
                            for the loop to receive *)
  closed : bool;         (* the channel [msgs] is closed *)
  trace : list act
}.

Inductive tick :=
| Arrive (d : Delivery)  (* the broker delivers [d] *)
| Close (kept : nat)     (* the channel shuts down: the library closes
                            [msgs] and drops what it holds for the loop,
                            but for the [kept] first deliveries it had
                            still handed over *)
| Go                     (* the goroutine runs to its next suspension *)
| Signal.                (* SIGINT or SIGTERM: the default action of the
                            Go runtime ends the process *)

Definition init : state := mkState Waiting [] false [].

Definition step (l : lines) (s : state) (t : tick) : state :=
  match at_pc s with
  | Returned | Killed => s
  | _ =>
      match t with
      | Arrive d =>
          if closed s then s
          else mkState (at_pc s) (msgs s ++ [d]) (closed s) (trace s)
      | Close kept =>
          if closed s then s
          else mkState (at_pc s) (take kept (msgs s)) true (trace s)
      | Signal => mkState Killed (msgs s) (closed s) (trace s)
      | Go =>
          match at_pc s with
          | Waiting =>
              match msgs s with
              | d :: rest =>
                  mkState (Working d) rest (closed s)
                    (trace s ++ [Pull (DeliveryTag d) (Body d);
                                 Print (processing l +:+ Body d)])
              | [] =>
                  if closed s then
                    mkState Returned [] true (trace s ++ [Print (closed_line l)])
                  else s
              end
          | Working d =>
              mkState Waiting (msgs s) (closed s)
                (trace s ++ [Nap (work l); Processed (DeliveryTag d);
                             Ack (DeliveryTag d); Print (done_line l)])
          | _ => s
          end
      end
  end.

Definition is_exited (s : state) : bool :=
  match at_pc s with
  | Returned | Killed => true
  | _ => false
  end.

Definition machine (l : lines) : consumer :=
  mkConsumer tick state (step l) Signal trace is_exited.

End RabbitWorker.
Module RabbitEmail.

Record boot := mkBoot {
  dial : nat → error;
  channel_err : error;
  consume_err : error
}.

(** [for range 120 { if err == nil { break }; time.Sleep(250 *
    time.Millisecond); conn, err = amqp.Dial(url) }], entered with the
    error of a dial made before the loop. *)
Fixpoint redial (rounds : nat) (dial : nat → error) (k : nat) (err : error)
  : list act * error :=
  match rounds with
  | O => ([], err)
  | S rounds' =>
      match err with
      | None => ([], None)
      | Some _ =>
          let '(t, err') := redial rounds' dial (S k) (dial k) in
          (Nap 250 :: Try Rabbit :: t, err')
      end
  end.

Definition email_queue : Amqp.Queue := Amqp.mkQueue "email_queue" true false false false.
Definition game_events : Amqp.Exchange :=
  Amqp.mkExchange "game_events" "fanout" true false false false.

Definition main (env : boot) : proc Amqp.Broker unit :=
  emit [Print "starting.... service started, waiting for messages..."] ;;
  emit [Try Rabbit] ;;
  let '(t, err) := redial 120 (dial env) 1 (dial env 0%nat) in
  emit t ;;
  check err "Failed to connect to RabbitMQ: " ;;
  emit [OpenChannel] ;;
  check (channel_err env) "Failed to open a channel: " ;;
  declare_or_die (Amqp.QueueDeclare email_queue) "Failed to declare a queue: " ;;
  declare_or_die (Amqp.ExchangeDeclare game_events) "Failed to declare exchange: " ;;
  declare_or_die
    (Amqp.QueueBind (Amqp.mkBinding (Amqp.qName email_queue) "" "game_events" false))
    "Failed to bind queue: " ;;
  emit [Consume (Amqp.qName email_queue) false] ;;
  check (consume_err env) "Failed to register a consumer: " ;;
  emit [Print "Email service started, waiting for messages..."; Loop].

Definition lines : RabbitWorker.lines :=
  RabbitWorker.mkLines 100 "📧 Processing email: "
    "✅ Email processed and acknowledged" "❌ Message channel closed".

Definition loop : consumer := RabbitWorker.machine lines.

End RabbitEmail.

Module Fulfillment.

Record boot := mkBoot {
  dial : nat → error;
  channel_err : error;
  consume_err : error
}.

(** [for i := 0; i < 120; i++ { conn, err = amqp.Dial(url); if err == nil
    { log.Println("Connected to RabbitMQ"); break }; time.Sleep(250 *
    time.Millisecond) }]. *)
Fixpoint connect (rounds : nat) (dial : nat → error) (i : nat) (err : error)
  : list act * error :=
  match rounds with
  | O => ([], err)
  | S rounds' =>
      match dial i with
      | None => ([Try Rabbit; Print "Connected to RabbitMQ"], None)
      | Some e =>
          let '(t, err') := connect rounds' dial (S i) (Some e) in
          (Try Rabbit :: Nap 250 :: t, err')
      end
  end.

Definition fulfillment_queue : Amqp.Queue :=
  Amqp.mkQueue "fulfillment_queue" true false false false.
Definition game_events : Amqp.Exchange :=
  Amqp.mkExchange "game_events" "fanout" true false false false.

Definition main (env : boot) : proc Amqp.Broker unit :=
  let '(t, err) := connect 120 (dial env) 0 None in
  emit t ;;
  check err "Failed to connect to RabbitMQ: " ;;
  emit [OpenChannel] ;;
  check (channel_err env) "Failed to open channel: " ;;
  declare_or_die (Amqp.QueueDeclare fulfillment_queue) "Failed to declare queue: " ;;
  declare_or_die (Amqp.ExchangeDeclare game_events) "Failed to declare exchange: " ;;
  declare_or_die
    (Amqp.QueueBind (Amqp.mkBinding (Amqp.qName fulfillment_queue) "" "game_events" false))
    "Failed to bind queue: " ;;
  emit [Consume (Amqp.qName fulfillment_queue) false] ;;
  check (consume_err env) "Failed to register consumer: " ;;
  emit [Print "📦 Fulfillment service started, waiting for messages..."; Loop].

Definition lines : RabbitWorker.lines :=
  RabbitWorker.mkLines 150 "📦 Processing fulfillment: "
    "✅ Fulfillment processed" "❌ Fulfillment message channel closed".

Definition loop : consumer := RabbitWorker.machine lines.

End Fulfillment.

(** ** The worker of the socket variant (ZeroMQ): its start-up *)

Module ZeroEmail.

Record boot := mkBoot {
  context_err : error;
  socket_err : error;
  connect_err : nat → error
}.

(** [for i := 0; i < 120; i++ { err = subscriber.Connect(addr); if err ==
    nil { log.Printf("Connected to publisher at %s", addr); break };
    log.Printf("Connection attempt %d failed: %v", i+1, err);
    time.Sleep(250 * time.Millisecond) }]. *)
Fixpoint connect (rounds : nat) (publisherAddr : string) (connect_err : nat → error)
    (i : nat) (err : error) : list act * error :=
  match rounds with
  | O => ([], err)
  | S rounds' =>
      match connect_err i with
      | None => ([Try Publisher; Print ("Connected to publisher at " +:+ publisherAddr)], None)
      | Some e =>
          let '(t, err') := connect rounds' publisherAddr connect_err (S i) (Some e) in
          (Try Publisher
             :: Print ("Connection attempt " +:+ Go.itoa (Z.of_nat i + 1) +:+ " failed: " +:+ e)
             :: Nap 250 :: t, err')
      end
  end.

Definition main (publisherAddr : string) (env : boot) : proc unit unit :=
  check (context_err env) "Failed to create ZMQ context: " ;;
  check (socket_err env) "Failed to create subscriber socket: " ;;
  let '(t, err) := connect 120 publisherAddr (connect_err env) 0 None in
  emit t ;;
  check err "Failed to connect to publisher after retries: " ;;
  emit [Print "📧 Email service started, waiting for messages..."; Loop].

End ZeroEmail.

(** ** The queue of the polling variant

    The queue [email_queue] of PGMQ, as far as the worker and the backend
    use it: [pgmq.send] appends a row under the next message id,
    [pgmq.read(queue, vt, 1)] takes the first row whose visibility time has
    come, counts the read and hides the row for [vt] seconds,
    [pgmq.delete] removes the row of an id and [pgmq.archive] moves it to
    the archive table. Times are seconds of the database clock. *)

Module Pgmq.

(** [type Message struct] of the worker; [Payload] is its field
    [Message]. *)
Record Message := mkMessage {
  MsgID : Z;
  ReadCount : Z;
  EnqueuedAt : Z;
  VT : Z;
  Payload : string
}.

Record queue := mkQueue {
  rows : list Message;
  archived : list Message;
  next_id : Z
}.

Definition empty : queue := mkQueue [] [] 1.

Definition send (q : queue) (payload : string) (now : Z) : queue * Z :=
  (mkQueue (rows q ++ [mkMessage (next_id q) 0 now now payload]) (archived q) (next_id q + 1),
   next_id q).

Fixpoint read_rows (rs : list Message) (now vt : Z) : option (Message * list Message) :=
  match rs with
  | [] => None
  | m :: rest =>
      if VT m <=? now then
        let m' := mkMessage (MsgID m) (ReadCount m + 1) (EnqueuedAt m) (now + vt) (Payload m) in
        Some (m', m' :: rest)
      else
        match read_rows rest now vt with
        | Some (r, rest') => Some (r, m :: rest')
        | None => None
        end
  end.

Definition read (q : queue) (now vt : Z) : option (Message * queue) :=
  match read_rows (rows q) now vt with
  | Some (m, rs) => Some (m, mkQueue rs (archived q) (next_id q))
  | None => None
  end.

Definition has (id : Z) (m : Message) : bool := MsgID m =? id.

Definition delete (q : queue) (id : Z) : queue * bool :=
  (mkQueue (filter (λ m, has id m = false) (rows q)) (archived q) (next_id q),
   existsb (has id) (rows q)).

Definition archive (q : queue) (id : Z) : queue * bool :=
  (mkQueue (filter (λ m, has id m = false) (rows q))
           (archived q ++ filter (λ m, has id m = true) (rows q))
           (next_id q),
   existsb (has id) (rows q)).

End Pgmq.

(** ** The worker of the polling variant (PGMQ) *)

Module PgmqEmail.

Record boot := mkBoot {
  open_err : error;
  ping : nat → error
}.

(** The start of [main], up to the goroutine of the consumer loop. Nothing
    is tested after the wait for the database. *)
Definition main (env : boot) : proc unit unit :=
  check (open_err env) "Failed to connect to database:" ;;
  emit (wait_for_database 120 (ping env) 0) ;;
  emit [Print "📧 Email service started, consuming from queue: email_queue"; Loop].

(** [type GameEvent struct]. *)
Record GameEvent := mkGameEvent {
  ID : Z;
  Title : string;
  Description : string;
  Stars : Z
}.

(** The errors of the statements of one run of the goroutine. *)
Record faults := mkFaults {
  read_fault : error;
  delete_fault : error;
  archive_fault : error
}.

Definition healthy : faults := mkFaults None None None.

Inductive pc :=
| Select                                   (* at the [select] *)
| Idle (ms : Z)                            (* in the sleep after an empty or failed read *)
| Working (m : Pgmq.Message) (gameEvent : GameEvent)  (* in the sleep of the work *)
| Done                                     (* the goroutine has returned *)
| Exited.                                  (* [main] has returned: the process is over *)

Record state := mkState {
  at_pc : pc;
  cancelled : bool;      (* [cancel()] was called *)
  leaving : bool;        (* [main] is past [<-sigChan] *)
  db : Pgmq.queue;
  trace : list act
}.

Inductive tick :=
| Enqueue (payload : string) (now : Z)     (* a [pgmq.send] of some backend *)
| Go (now : Z) (w : faults)                (* the goroutine runs to its next sleep *)
| Signal                                   (* SIGINT or SIGTERM is sent *)
| Exit.                                    (* [main] returns after [cancel()] *)

Definition init (q : Pgmq.queue) : state := mkState Select false false q [].

Section Loop.

(** [json.Unmarshal(message.Message, &gameEvent)]: the event, or the
    error. Which payloads it refuses is the library's business. *)
Variable Unmarshal : string → GameEvent + string.

Definition queueName : string := "email_queue".

Definition go (s : state) (now : Z) (w : faults) : state :=
  match at_pc s with
  | Select =>
      if cancelled s then
        mkState Done (cancelled s) (leaving s) (db s) (trace s)
      else
        match read_fault w with
        | Some e =>
            mkState (Idle 5000) (cancelled s) (leaving s) (db s)
              (trace s ++ [Poll; Print ("❌ Error reading message: " +:+ e)])
        | None =>
            match Pgmq.read (db s) now 30 with
            | None =>
                mkState (Idle 1000) (cancelled s) (leaving s) (db s) (trace s ++ [Poll])
            | Some (message, q) =>
                let id := Pgmq.MsgID message in
                let seen :=
                  [Poll; Pull id (Pgmq.Payload message);
                   Print ("📧 Processing email notification (ID: " +:+ Go.itoa id
                          +:+ "): " +:+ Pgmq.Payload message)] in
                match Unmarshal (Pgmq.Payload message) with
                | inr e =>
                    let q' :=
                      match delete_fault w with
                      | Some _ => q
                      | None => fst (Pgmq.delete q id)
                      end in
                    mkState Select (cancelled s) (leaving s) q'
                      (trace s ++ seen ++
                         [Print ("❌ Failed to parse message: " +:+ e); Delete id])
                | inl gameEvent =>
                    mkState (Working message gameEvent) (cancelled s) (leaving s) q
                      (trace s ++ seen)
                end
            end
        end
  | Idle ms =>
      mkState Select (cancelled s) (leaving s) (db s) (trace s ++ [Nap ms])
  | Working message gameEvent =>
      let id := Pgmq.MsgID message in
      let worked := [Nap 100; Processed id; Archive id] in
      match archive_fault w with
      | Some e =>
          mkState Select (cancelled s) (leaving s) (db s)
            (trace s ++ worked ++
               [Print ("❌ Failed to archive message " +:+ Go.itoa id +:+ ": " +:+ e)])
      | None =>
          let '(q, archived) := Pgmq.archive (db s) id in
          mkState Select (cancelled s) (leaving s) q
            (trace s ++ worked ++
               if archived : bool then
                 [Print ("✅ Email sent successfully for game: " +:+ Title gameEvent
                         +:+ " (archived message " +:+ Go.itoa id +:+ ")")]
               else [])
      end
  | Done | Exited => s
  end.

Definition step (s : state) (t : tick) : state :=
  match at_pc s with
  | Exited => s
  | _ =>
      match t with
      | Enqueue payload now =>
          mkState (at_pc s) (cancelled s) (leaving s)
            (fst (Pgmq.send (db s) payload now)) (trace s)
      | Go now w => go s now w
      | Signal =>
          if leaving s then s
          else mkState (at_pc s) true true (db s)
                 (trace s ++ [Print "📧 Shutting down email service..."; Cancel])
      | Exit =>
          if leaving s then mkState Exited (cancelled s) (leaving s) (db s) (trace s)
          else s
      end
  end.

Definition is_exited (s : state) : bool :=
  match at_pc s with
  | Done | Exited => true
  | _ => false
  end.

Definition loop : consumer := mkConsumer tick state step Signal trace is_exited.

End Loop.

End PgmqEmail.

(** ** The reader of the log variant

    A reader of kafka-go over one partition of the topic. The offset of a
    message is its place in the log. A reader with a [GroupID] starts at
    the offset committed for its group and, when the group has none, where
    [StartOffset] says: at the end of the log for [LastOffset], at its
    beginning otherwise. With a [GroupID], [ReadMessage] commits the offset
    of the message it fetched before it returns it; when that commit fails
    it returns the error in place of the message, the reader having moved
    past it. *)

Module Kafka.

Definition LastOffset : Z := -1.
Definition FirstOffset : Z := -2.

Record ReaderConfig := mkReaderConfig {
  Brokers : list string;
  Topic : string;
  GroupID : string;
  MinBytes : Z;
  MaxBytes : Z;
  MaxWait : Z;
  StartOffset : Z
}.

Definition useConsumerGroup (cfg : ReaderConfig) : bool :=
  negb (String.eqb (GroupID cfg) "").

(** Where a reader starts, given what is committed for its group and the
    length of the log when it joins. *)
Definition start (cfg : ReaderConfig) (committed : option nat) (len : nat) : nat :=
  match (if useConsumerGroup cfg then committed else None) with
  | Some offset => offset
  | None => if decide (StartOffset cfg = LastOffset) then len else 0%nat
  end.

End Kafka.

(** ** The worker of the log variant (Kafka) *)

Module KafkaEmail.

(** [kafka.ReaderConfig{...}] of [main]; the times are milliseconds. *)
Definition config (brokers : string) : Kafka.ReaderConfig :=
  Kafka.mkReaderConfig (Go.Split brokers ",") "game-events" "email-service-group"
    100 10000000 1000 Kafka.LastOffset.

(** [main] before its loop: the reader is built, nothing is dialled. *)
Definition main (brokers : string) : proc unit unit :=
  emit [Print "📧 Email service started, consuming from topic: game-events";
        Print ("📧 Connected to Kafka brokers: " +:+ brokers);
        Loop].

Inductive pc :=
| Select                              (* at the [select] *)
| Reading                             (* in [reader.ReadMessage] *)
| Working (offset : nat) (value : string)  (* in the sleep of the work *)
| Stopped.                            (* [main] has returned *)

Record state := mkState {
  at_pc : pc;
  cancelled : bool;          (* [cancel()] was called *)
  topic : list string;       (* the log of the partition *)
  committed : option nat;    (* the offset committed for the group *)
  position : option nat;     (* the next offset of the reader, once it has joined *)
  trace : list act
}.

(** How a call of [ReadMessage] ends. *)
Inductive answer :=
| Deliver                    (* with the next message, if there is one *)
| Expire                     (* with the deadline of five seconds *)
| Fail (e : string)          (* with another error, a cancelled context among them *)
| Lose (moved : bool) (e : string).
                             (* with the error of the commit, the next
                                message fetched and not returned; [moved]
                                tells whether the offset of the group has
                                moved all the same *)

Inductive tick :=
| Publish (value : string)   (* a backend writes to the topic *)
| Join                       (* the reader has joined its group *)
| Go (a : answer)            (* the loop runs to its next suspension *)
| Signal.                    (* SIGINT or SIGTERM is sent *)

(** A first start of the group on a log that holds [old] already. *)
Definition init (old : list string) : state :=
  mkState Select false old None None [].

Section Loop.
Variable cfg : Kafka.ReaderConfig.

Definition go (s : state) (a : answer) : state :=
  match at_pc s with
  | Select =>
      if cancelled s then
        mkState Stopped (cancelled s) (topic s) (committed s) (position s)
          (trace s ++ [Print "📧 Email service stopped"])
      else
        mkState Reading (cancelled s) (topic s) (committed s) (position s)
          (trace s ++ [Poll])
  | Reading =>
      let back t :=
        mkState Select (cancelled s) (topic s) (committed s) (position s) (trace s ++ t) in
      match a with
      | Deliver =>
          match position s with
          | Some p =>
              match topic s !! p with
              | Some value =>
                  let group := Kafka.useConsumerGroup cfg in
                  mkState (Working p value) (cancelled s) (topic s)
                    (if group then Some (S p) else committed s)
                    (Some (S p))
                    (trace s ++ [Pull (Z.of_nat p) value] ++
                       (if group then [Commit (Z.of_nat p)] else []) ++
                       [Print ("📧 Processing email notification: " +:+ value)])
              | None => back []
              end
          | None => back []
          end
      | Expire => back []
      | Fail e => back [Print ("No new message: " +:+ e)]
      | Lose moved e =>
          match position s with
          | Some p =>
              match topic s !! p with
              | Some _ =>
                  if Kafka.useConsumerGroup cfg then
                    mkState Select (cancelled s) (topic s)
                      (if moved then Some (S p) else committed s)
                      (Some (S p))
                      (trace s ++ (if moved then [Commit (Z.of_nat p)] else []) ++
                         [Print ("No new message: " +:+ e)])
                  else back [Print ("No new message: " +:+ e)]
              | None => back [Print ("No new message: " +:+ e)]
              end
          | None => back [Print ("No new message: " +:+ e)]
          end
      end
  | Working p value =>
      mkState Select (cancelled s) (topic s) (committed s) (position s)
        (trace s ++ [Nap 100; Processed (Z.of_nat p);
                     Print ("✅ Email sent successfully (partition: 0, offset: "
                            +:+ Go.itoa (Z.of_nat p) +:+ ")")])
  | Stopped => s
  end.

Definition step (s : state) (t : tick) : state :=
  match t with
  | Publish value =>
      mkState (at_pc s) (cancelled s) (topic s ++ [value]) (committed s) (position s) (trace s)
  | Join =>
      match at_pc s, position s with
      | Stopped, _ | _, Some _ => s
      | _, None =>
          mkState (at_pc s) (cancelled s) (topic s) (committed s)
            (Some (Kafka.start cfg (committed s) (length (topic s)))) (trace s)
      end
  | Go a => go s a
  | Signal =>
      match at_pc s with
      | Stopped => s
      | _ =>
          if cancelled s then s
          else mkState (at_pc s) true (topic s) (committed s) (position s)
                 (trace s ++ [Print "📧 Shutting down email service..."; Cancel])
      end
  end.

Definition is_exited (s : state) : bool :=
  match at_pc s with
  | Stopped => true
  | _ => false
  end.

Definition loop : consumer := mkConsumer tick state step Signal trace is_exited.

(** The process is started again: a new reader of the same group, on
    the same log. *)
Definition relaunch (s : state) : state :=
  mkState Select false (topic s) (committed s) None (trace s).

Definition lives (s : state) (sessions : list (list tick)) : state :=
  fold_left (λ s ticks, relaunch (run loop s ticks)) sessions s.

End Loop.

End KafkaEmail.

(** * Properties *)

(** ** Reading a start-up trace *)

#[global] Instance target_eq_dec : EqDecision target.
Proof. solve_decision. Defined.

Definition is_try (tg : target) (a : act) : bool :=
  match a with
  | Try tg' => bool_decide (tg' = tg)
  | _ => false
  end.

(** The number of connection attempts to [tg]. *)
Definition tries (tg : target) (tr : list act) : nat :=
  length (List.filter (is_try tg) tr).

Definition is_serving (a : act) : bool :=
  match a with
  | Listen _ | Loop => true
  | _ => false
  end.

(** The process has got as far as serving: the HTTP server is up, or the
    consumer loop is entered. *)
Definition serving (tr : list act) : bool := existsb is_serving tr.

(** The process has ended on a fatal error. *)
Definition dies (tr : list act) : bool :=
  match last tr with
  | Some (Fatal _) => true
  | _ => false
  end.

(** Pacing: every sleep lasts 250ms, and an attempt to [tg] that is not
    the first comes after a sleep made since the attempt before it. The
    flag tells whether the next attempt may come. *)
Definition pace (tg : target) (rested : bool) (a : act) : option bool :=
  match a with
  | Try tg' => if bool_decide (tg' = tg) then (if rested then Some false else None) else Some rested
  | Nap ms => if bool_decide (ms = 250) then Some true else None
  | _ => Some rested
  end.

Fixpoint paced_from (tg : target) (rested : bool) (tr : list act) : option bool :=
  match tr with
  | [] => Some rested
  | a :: tr' =>
      match pace tg rested a with
      | Some rested' => paced_from tg rested' tr'
      | None => None
      end
  end.

Definition paced (tg : target) (tr : list act) : bool :=
  bool_decide (is_Some (paced_from tg true tr)).

(** The bootstrap policy of the specification, for a start-up whose
    connection attempts to [tg] are answered by [answer]: at most 120
    attempts, paced by sleeps of 250ms, and when every attempt fails the
    process dies and never serves. *)
Definition bounded_retry (tg : target) (start_up : (nat → error) → list act) : Prop :=
  ∀ answer : nat → error,
    (tries tg (start_up answer) ≤ 120)%nat ∧
    paced tg (start_up answer) = true ∧
    ((∀ k, answer k ≠ None) →
       dies (start_up answer) = true ∧ serving (start_up answer) = false).

(** The same without the bound on the number of attempts. *)
Definition paced_retry (tg : target) (start_up : (nat → error) → list act) : Prop :=
  ∀ answer : nat → error,
    paced tg (start_up answer) = true ∧
    ((∀ k, answer k ≠ None) →
       dies (start_up answer) = true ∧ serving (start_up answer) = false).

Definition refused : nat → error := λ _, Some "connection refused".

(** ** Reading the topology a start-up provisions *)

(** The declarations made during a start-up, in program order. *)
Definition declared (tr : list act) : list Amqp.declaration :=
  omap (λ a, match a with Declared d => Some d | _ => None end) tr.

Definition at_once : nat → error := λ _, None.

(** The three programs of the broadcast variant, started against a broker
    that answers every dial; the database of the backend is up too. *)
Inductive program := Backend | EmailService | FulfillmentService.

Definition start (p : program) : proc Amqp.Broker unit :=
  match p with
  | Backend => RabbitBackend.main (RabbitBackend.mkBoot None at_once None at_once None)
  | EmailService => RabbitEmail.main (RabbitEmail.mkBoot at_once None None)
  | FulfillmentService => Fulfillment.main (Fulfillment.mkBoot at_once None None)
  end.

(** The broker after the programs [ps] were started one after the other,
    whether they came up or not. *)
Definition started (ps : list program) (b : Amqp.Broker) : Amqp.Broker :=
  fold_left (λ b p, state_of (start p b)) ps b.

(** ** Data for the examples *)

Definition plain (s : string) : string := s.

Definition demo_games : gmap Z Row := {[ 7 := mkRow "Zelda" "..." 4 ]}.

Definition star_7 : Request := mkRequest "POST" "/api/games/7/star".

Definition zelda : Game := mkGame 7 "Zelda" "..." 5.

(** A resource is either absent from the broker or there with the
    attributes the programs give it. *)
Definition known {A} (o : option A) (a : A) : Prop := o = None ∨ o = Some a.

Definition agreed (b : Amqp.Broker) : Prop :=
  known (Amqp.queues b !! "email_queue") (true, false, false) ∧
  known (Amqp.queues b !! "fulfillment_queue") (true, false, false) ∧
  known (Amqp.exchanges b !! "game_events") ("fanout", true, false, false).

Definition no_pull (t : list act) : bool := forallb (λ x, negb (pulls x)) t.

(** What a monitor having [h] in hand tells of the trace it has read. *)
Definition in_hand (h : hand) (t : list act) : Prop :=
  match h with
  | Nothing => True
  | Held id =>
      ∃ before body since,
        t = (before ++ Pull id body :: since)%list ∧ no_pull since = true
  | Worked id =>
      ∃ before body since,
        t = (before ++ Pull id body :: since)%list ∧ no_pull since = true ∧
        In (Processed id) since
  end.

Definition hello : RabbitWorker.Delivery := RabbitWorker.mkDelivery 1 "hello".

(** A stand-in for [json.Unmarshal] in the examples: it refuses the
    payload [oops] and reads any other as the same event. *)
Definition unmarshal_demo (payload : string) : PgmqEmail.GameEvent + string :=
  if String.eqb payload "oops" then inr "invalid character 'o' looking for beginning of value"
  else inl (PgmqEmail.mkGameEvent 7 "Zelda" "..." 5).

(** ** Invariants of the loops *)

(** What the first monitor has in hand along a loop of the broadcast
    variant: the delivery being worked on. *)
Definition rabbit_watched (s : RabbitWorker.state) : Prop :=
  ∃ h, follow watch Nothing (RabbitWorker.trace s) = Some h ∧
       match RabbitWorker.at_pc s with
       | RabbitWorker.Working d => h = Held (RabbitWorker.DeliveryTag d)
       | _ => True
       end.

(** The same along the loop of the polling variant. *)
Definition pgmq_watched (s : PgmqEmail.state) : Prop :=
  ∃ h, follow watch Nothing (PgmqEmail.trace s) = Some h ∧
       match PgmqEmail.at_pc s with
       | PgmqEmail.Working m _ => h = Held (Pgmq.MsgID m)
       | _ => True
       end.

(** In a trace, the offset of every message pulled is committed at once,
    before anything else is done. *)
Definition committed_at_pull (t : list act) : Prop :=
  ∀ pre id body post,
    t = (pre ++ Pull id body :: post)%list → ∃ post', post = Commit id :: post'.

(** The ids of the rows of a queue are below the next id it gives. *)
Definition fresh_ids (q : Pgmq.queue) : Prop :=
  ∀ id, In id (map Pgmq.MsgID (Pgmq.rows q)) → id < Pgmq.next_id q.

(** The message [id] is not in the queue, and no new row will get its id. *)
Definition past (id : Z) (q : Pgmq.queue) : Prop :=
  id < Pgmq.next_id q ∧ ¬ In id (map Pgmq.MsgID (Pgmq.rows q)).

(** The message [id] is gone from the queue of the polling worker for
    good: no row has it, no new row will get it, the loop does not hold it. *)
Definition gone (id : Z) (s : PgmqEmail.state) : Prop :=
  past id (PgmqEmail.db s) ∧
  match PgmqEmail.at_pc s with
  | PgmqEmail.Working m _ => Pgmq.MsgID m ≠ id
  | _ => True
  end.

(** The loop of the log variant is on its way out: its context is
    cancelled, or it has stopped. *)
Definition stopping (s : KafkaEmail.state) : Prop :=
  KafkaEmail.cancelled s = true ∨ KafkaEmail.at_pc s = KafkaEmail.Stopped.

(** What the second monitor has in hand along the loop of the log variant:
    the message being worked on, and no unworked message otherwise. *)
Definition kafka_tidied (s : KafkaEmail.state) : Prop :=
  ∃ h, follow tidy Nothing (KafkaEmail.trace s) = Some h ∧
       match KafkaEmail.at_pc s with
       | KafkaEmail.Working p _ => h = Held (Z.of_nat p)
       | _ => ∀ id, h ≠ Held id
       end.

(** Nothing below the offset [n] has been or will be handed to the loop:
    the log is that long at least, the reader and the group are past it. *)
Definition late (n : nat) (s : KafkaEmail.state) : Prop :=
  (n ≤ length (KafkaEmail.topic s))%nat ∧
  (∀ c, KafkaEmail.committed s = Some c → (n ≤ c)%nat) ∧
  (∀ p, KafkaEmail.position s = Some p → (n ≤ p)%nat) ∧
  (∀ id body, In (Pull id body) (KafkaEmail.trace s) → Z.of_nat n ≤ id).

(** How many runs a cancelled loop of the log variant is from its end. *)
Definition runs_left (s : KafkaEmail.state) : nat :=
  match KafkaEmail.at_pc s with
  | KafkaEmail.Stopped => 0
  | KafkaEmail.Select => 1
  | KafkaEmail.Working _ _ => 2
  | KafkaEmail.Reading => 3
  end.

(** ** Further definitions: requests in a row *)

(** The star handler of the broadcast backend run on the same request once
    for each record of answers, each run on the table the run before it
    left. *)
Fixpoint starred_in_turn (escape : string → string) (envs : list RabbitBackend.answers)
    (games : gmap Z Row) (r : Request) : gmap Z Row :=
  match envs with
  | [] => games
  | env :: rest =>
      starred_in_turn escape rest
        (games_after (RabbitBackend.handleGameActions escape true games env r)) r
  end.

(** The messages among the effects of a handler. *)
Definition sends {M} (effs : list (effect M)) : list M :=
  omap (λ e, match e with Send m => Some m | Log _ => None end) effs.

(** What a star handler owes to the first half of its run: with the star
    added, the table as the UPDATE left it, one message for the transport
    and the answer 200 in JSON; after a refusal, the table untouched,
    nothing sent or logged, and the refusal as the answer; and nothing at
    all for a method other than POST. *)
Definition follows_star {M} (fault : error) (step : star_step) (games : gmap Z Row)
    (h : handled M) : Prop :=
  match step with
  | Starred games' game =>
      games_after h = games' ∧
      (∃ m, sends (effects h) = [m]) ∧
      ∃ body, response h = Some (mkResponse 200 "application/json" body)
  | Replied resp =>
      games_after h = games ∧ effects h = [] ∧ response h = Some resp ∧
      (resp = http_Error "Invalid path" 400 ∨
       resp = http_Error "Invalid game ID" 400 ∨
       resp = http_Error "Game not found" 404 ∨
       ∃ e, fault = Some e ∧ resp = http_Error e 500)
  | Silent => games_after h = games ∧ effects h = [] ∧ response h = None
  end.

(** What a handler leaves of a request, as far as the client and the
    table see it: the table afterwards and the response written. *)
Definition outcome (escape : string → string) (games : gmap Z Row) (step : star_step)
  : gmap Z Row * option Response :=
  match step with
  | Replied resp => (games, Some resp)
  | Silent => (games, None)
  | Starred games' game => (games', Some (write_game escape game))
  end.

(** ** [handleGames], the same text in the four backends *)

Module Catalogue.

(** What the database answers during one request: [query_fault] is the
    error of [db.Query]; [rows_end] makes [rows.Next] give up after that
    many rows, on an error of the cursor the handler never looks at;
    [scan_fault k] is the error of [rows.Scan] on the [k]-th row;
    [insert_result] is the id [INSERT ... RETURNING id] gives, or the error
    of the statement. *)
Record answers := mkAnswers {
  query_fault : error;
  rows_end : option nat;
  scan_fault : nat → error;
  insert_result : Z + string
}.

Definition healthy (id : Z) : answers := mkAnswers None None (λ _, None) (inl id).

Definition by_id (a b : Z * Row) : Prop := a.1 ≤ b.1.

#[global] Instance by_id_dec a b : Decision (by_id a b).
Proof. unfold by_id. apply _. Defined.

(** [SELECT id, title, description, stars FROM games ORDER BY id]. *)
Definition select_games (games : gmap Z Row) : list Game :=
  map (λ kv : Z * Row, mkGame kv.1 (title kv.2) (description kv.2) (stars kv.2))
      (merge_sort by_id (map_to_list games)).

(** [for rows.Next() { var game Game; if err := rows.Scan(...); err != nil
    { http.Error(...); return }; games = append(games, game) }]. *)
Fixpoint scan_rows (rows : list Game) (k : nat) (scan_fault : nat → error)
  : list Game + string :=
  match rows with
  | [] => inl []
  | game :: rest =>
      match scan_fault k with
      | Some e => inr e
      | None =>
          match scan_rows rest (S k) scan_fault with
          | inl games => inl (game :: games)
          | inr e => inr e
          end
      end
  end.

Section Handler.

(** [json.NewDecoder(r.Body).Decode(&newGame)] is the library's business;
    [escape] is as before. *)
Variable Decode : string → Game + string.
Variable escape : string → string.

Fixpoint encode_elements (games : list Game) : string :=
  match games with
  | [] => ""
  | game :: rest =>
      encode_object escape (Game_fields game) +:+
      match rest with
      | [] => ""
      | _ :: _ => "," +:+ encode_elements rest
      end
  end.

(** [json.NewEncoder(w).Encode(games)] for a slice that is not nil. *)
Definition encode_games (games : list Game) : string :=
  "[" +:+ encode_elements games +:+ "]" +:+ newline.

Definition StatusCreated : Z := 201.

Definition handleGames (games : gmap Z Row) (env : answers) (r : Request) (body : string)
  : gmap Z Row * Response :=
  if String.eqb (Method r) "GET" then
    match query_fault env with
    | Some e => (games, http_Error e StatusInternalServerError)
    | None =>
        let rows :=
          match rows_end env with
          | Some n => take n (select_games games)
          | None => select_games games
          end in
        match scan_rows rows 0 (scan_fault env) with
        | inr e => (games, http_Error e StatusInternalServerError)
        | inl listed => (games, mkResponse StatusOK "application/json" (encode_games listed))
        end
    end
  else if String.eqb (Method r) "POST" then
    match Decode body with
    | inr e => (games, http_Error e StatusBadRequest)
    | inl newGame =>
        match insert_result env with
        | inr e => (games, http_Error e StatusInternalServerError)
        | inl id =>
            (<[id := mkRow (Title newGame) (Description newGame) 0]> games,
             mkResponse StatusCreated "application/json"
               (fst (Marshal escape (mkGame id (Title newGame) (Description newGame) 0))
                +:+ newline))
        end
    end
  else (games, mkResponse StatusOK "application/json" "").

End Handler.

End Catalogue.

(** A stand-in for the decoder of request bodies in the examples: whatever
    the body, a game that claims an id and stars of its own. *)
Definition decode_demo (body : string) : Game + string :=
  if String.eqb body "" then inr "EOF" else inl (mkGame 99 "Metroid" body 1000).

(** ** Reading the run of a worker of the broadcast variant *)

(** The messages handed to a loop, in order, each with its id. *)
Definition pulled (t : list act) : list (Z * string) :=
  omap (λ a, match a with Pull id body => Some (id, body) | _ => None end) t.

(** The tags acknowledged in a trace, in order. *)
Definition acked (t : list act) : list Z :=
  omap (λ a, match a with Ack id => Some id | _ => None end) t.

(** The tags of the deliveries the broker makes in a run, in order. *)
Definition delivered (ticks : list RabbitWorker.tick) : list Z :=
  omap (λ t, match t with
             | RabbitWorker.Arrive d => Some (RabbitWorker.DeliveryTag d)
             | _ => None
             end) ticks.

(** The ticks of a run that come before the channel shuts down. *)
Fixpoint before_close (ticks : list RabbitWorker.tick) : list RabbitWorker.tick :=
  match ticks with
  | [] => []
  | RabbitWorker.Close _ :: _ => []
  | t :: rest => t :: before_close rest
  end.

(** The tags a worker has taken charge of: those it has acknowledged, the
    one it works on, those the library holds for it. *)
Definition in_charge (s : RabbitWorker.state) : list Z :=
  (acked (RabbitWorker.trace s) ++
   match RabbitWorker.at_pc s with
   | RabbitWorker.Working d => [RabbitWorker.DeliveryTag d]
   | _ => []
   end ++
   map RabbitWorker.DeliveryTag (RabbitWorker.msgs s))%list.

(** The loop has returned only from a closed and empty channel. *)
Definition returned_empty (s : RabbitWorker.state) : Prop :=
  RabbitWorker.at_pc s = RabbitWorker.Returned →
  RabbitWorker.closed s = true ∧ RabbitWorker.msgs s = [].

(** A worker that takes nothing more: its channel is closed, or it is over. *)
Definition shut (s : RabbitWorker.state) : Prop :=
  RabbitWorker.closed s = true ∨ RabbitWorker.is_exited s = true.

Definition killed (s : RabbitWorker.state) : Prop :=
  RabbitWorker.at_pc s = RabbitWorker.Killed.

(** Every delivery handed to the loop is acknowledged, but for the one in
    hand; nothing is told of a worker the signal has ended. *)
Definition handed_acked (s : RabbitWorker.state) : Prop :=
  match RabbitWorker.at_pc s with
  | RabbitWorker.Working d =>
      map fst (pulled (RabbitWorker.trace s))
      = (acked (RabbitWorker.trace s) ++ [RabbitWorker.DeliveryTag d])%list
  | RabbitWorker.Killed => True
  | _ => map fst (pulled (RabbitWorker.trace s)) = acked (RabbitWorker.trace s)
  end.

(** ** The bindings of the broadcast variant *)

Definition email_binding : string * string * string := ("email_queue", "", "game_events").
Definition fulfillment_binding : string * string * string :=
  ("fulfillment_queue", "", "game_events").

(** What the broker holds after the programs [ps] were started against an
    empty broker: the exchange is there once a worker has started, and the
    binding of a worker once that worker has started, once. *)
Definition provisioned (ps : list program) (b : Amqp.Broker) : Prop :=
  agreed b ∧
  NoDup (Amqp.bindings b) ∧
  (∀ e, e ∈ Amqp.bindings b ↔
        (e = email_binding ∧ EmailService ∈ ps) ∨
        (e = fulfillment_binding ∧ FulfillmentService ∈ ps)) ∧
  (is_Some (Amqp.exchanges b !! "game_events") ↔
     EmailService ∈ ps ∨ FulfillmentService ∈ ps).

(** The broker a worker leaves, when it was started against a broker in
    agreement. *)
Definition worker_leaves (queue : string) (b : Amqp.Broker) : Amqp.Broker :=
  Amqp.mkBroker
    (<[queue := (true, false, false)]> (Amqp.queues b))
    (<["game_events" := ("fanout", true, false, false)]> (Amqp.exchanges b))
    (if decide ((queue, "", "game_events") ∈ Amqp.bindings b) then Amqp.bindings b
     else Amqp.bindings b ++ [(queue, "", "game_events")]).

(** ** Reading the run of the worker of the log variant *)


(** ** Reading the run of the worker of the polling variant *)

Definition ids (ms : list Pgmq.Message) : list Z := map Pgmq.MsgID ms.

(** Every message ever sent is accounted for: it is in the queue, or in
    the archive, or the worker has called [pgmq.delete] on it. What is in
    the archive was worked on to the end, and what the loop works on is
    still in the queue. *)
Definition accounted (s : PgmqEmail.state) : Prop :=
  let q := PgmqEmail.db s in
  1 ≤ Pgmq.next_id q ∧
  (∀ id, 1 ≤ id < Pgmq.next_id q →
         In id (ids (Pgmq.rows q)) ∨ In id (ids (Pgmq.archived q)) ∨
         In (Delete id) (PgmqEmail.trace s)) ∧
  (∀ id, In id (ids (Pgmq.archived q)) → In (Processed id) (PgmqEmail.trace s)) ∧
  (∀ m ev, PgmqEmail.at_pc s = PgmqEmail.Working m ev →
           In (Pgmq.MsgID m) (ids (Pgmq.rows q))).

(** ** Reading the time a start-up sleeps *)

(** The milliseconds slept in a trace. *)
Definition slept (t : list act) : Z :=
  fold_right (λ a ms, match a with Nap d => d + ms | _ => ms end) 0 t.

(** The [n]-th answer is the first one that is no error. *)
Definition first_success (answer : nat → error) (n : nat) : Prop :=
  (∀ j, (j < n)%nat → answer j ≠ None) ∧ answer n = None.

(** An outside that refuses twice, then accepts. *)
Definition third_time : nat → error :=
  λ k, if (k <? 2)%nat then Some "connection refused" else None.

(** ** The page of the frontend (Vue) *)

Module Vue.

(** [newGame], the form of the page. *)
Record NewGame := mkNewGame {
  title : string;
  description : string
}.

(** [data()]: what the component keeps. The games are the objects the
    backend sent, with the fields [id], [title], [description] and [stars]
    of its JSON. *)
Record data := mkData {
  games : list Game;
  newGame : NewGame;
  loading : bool;
  error : option string
}.

Definition init : data := mkData [] (mkNewGame "" "") true None.

(** How [await fetch(...)] ends: with an exception and its message, or
    with a response. *)
Inductive fetched :=
| Threw (message : string)
| Got (resp : Response).

(** [response.ok]. *)
Definition ok (resp : Response) : bool := (200 <=? Status resp) && (Status resp <=? 299).

(** The integers a JavaScript number holds exactly. On these a template
    literal writes the decimal digits [strconv.Itoa] writes, and [++] adds
    one. *)
Definition safe (n : Z) : Prop := - 2 ^ 53 < n < 2 ^ 53.

Definition API_URL : string := "/api".

(** The request of [addStar(gameId)]: [fetch(`${API_URL}/games/${gameId}/star`,
    { method: 'POST' })]. *)
Definition star_request (gameId : Z) : Request :=
  mkRequest "POST" (API_URL +:+ "/games/" +:+ Go.itoa gameId +:+ "/star").

(** [const game = this.games.find(g => g.id === gameId); if (game) {
    game.stars++ }]: the first game of that id, where there is one. *)
Fixpoint star_found (gameId : Z) (games : list Game) : list Game :=
  match games with
  | [] => []
  | g :: rest =>
      if ID g =? gameId then mkGame (ID g) (Title g) (Description g) (Stars g + 1) :: rest
      else g :: star_found gameId rest
  end.

(** [addStar(gameId)], given how its fetch ends: the data afterwards and
    the alerts shown. *)
Definition addStar (d : data) (gameId : Z) (r : fetched) : data * list string :=
  match r with
  | Threw message => (d, ["Error adding star: " +:+ message])
  | Got resp =>
      if ok resp then
        (mkData (star_found gameId (games d)) (newGame d) (loading d) (error d), [])
      else (d, ["Error adding star: Failed to add star"])
  end.

Section Fetch.

(** [await response.json()] on the body of a listing: the games, or the
    message of the exception. *)
Variable json : string → list Game + string.

(** [fetchGames()], given how its fetch ends. *)
Definition fetchGames (d : data) (r : fetched) : data :=
  match r with
  | Threw message => mkData (games d) (newGame d) false (Some message)
  | Got resp =>
      if ok resp then
        match json (Body resp) with
        | inl listed => mkData listed (newGame d) false (error d)
        | inr message => mkData (games d) (newGame d) false (Some message)
        end
      else mkData (games d) (newGame d) false (Some "Failed to fetch games")
  end.

(** [addGame()], given how its POST ends and, when it comes to that, how
    the fetch of the list ends. *)
Definition addGame (d : data) (posted listed : fetched) : data * list string :=
  match posted with
  | Threw message => (d, ["Error adding game: " +:+ message])
  | Got resp =>
      if ok resp then
        (fetchGames (mkData (games d) (mkNewGame "" "") (loading d) (error d)) listed, [])
      else (d, ["Error adding game: Failed to add game"])
  end.

End Fetch.

End Vue.

(** The page shows the table: its games are the listing of the backend. *)
Definition shows (d : Vue.data) (table : gmap Z Row) : Prop :=
  Vue.games d = Catalogue.select_games table.

(** What the client gets of a handler: the response it wrote or, when it
    wrote nothing, the empty 200 of the server. *)
Definition answered {M} (h : handled M) : Vue.fetched :=
  match response h with
  | Some resp => Vue.Got resp
  | None => Vue.Got (mkResponse StatusOK "" "")
  end.

(** The page after a click on the star of [gameId], answered by [h]. *)
Definition clicked {M} (d : Vue.data) (gameId : Z) (h : handled M) : Vue.data :=
  (Vue.addStar d gameId (answered h)).1.

(** A stand-in for the parser of the page in the examples: it reads the
    one listing the example needs. *)
Definition json_demo (body : string) : list Game + string :=
  inl [mkGame 7 "Zelda" "..." 4; mkGame 8 "Metroid" "a game" 0].

(** ** The worker of the socket variant (ZeroMQ): its loop *)

(** [for { message, err := subscriber.Recv(0); if err != nil {
    log.Printf("Error receiving message: %v", err); continue };
    log.Printf("📧 Processing email: %s", message); time.Sleep(100 *
    time.Millisecond); log.Printf("✅ Email sent successfully") }], in
    [main] itself. The program asks for no signals. *)
Module ZeroLoop.

Inductive pc :=
| Receiving                   (* in [subscriber.Recv] *)
| Working (message : string)  (* in [time.Sleep], [message] in hand *)
| Killed.                     (* the signal has ended the process *)

Record state := mkState {
  at_pc : pc;
  inbox : list string;        (* pushed to the socket, not yet received *)
  trace : list act
}.

Inductive tick :=
| Arrive (message : string)   (* a backend has pushed [message] *)
| Go (err : error)            (* the loop runs to its next suspension; [err]
                                 is the error of [Recv], when it makes one *)
| Signal.                     (* SIGINT or SIGTERM: the default action of the
                                 Go runtime ends the process *)

Definition init : state := mkState Receiving [] [].

Definition step (s : state) (t : tick) : state :=
  match at_pc s with
  | Killed => s
  | _ =>
      match t with
      | Arrive message => mkState (at_pc s) (inbox s ++ [message]) (trace s)
      | Signal => mkState Killed (inbox s) (trace s)
      | Go err =>
          match at_pc s with
          | Receiving =>
              match err with
              | Some e =>
                  mkState Receiving (inbox s)
                    (trace s ++ [Print ("Error receiving message: " +:+ e)])
              | None =>
                  match inbox s with
                  | message :: rest =>
                      mkState (Working message) rest
                        (trace s ++ [Print ("📧 Processing email: " +:+ message)])
                  | [] => s
                  end
              end
          | Working _ =>
              mkState Receiving (inbox s)
                (trace s ++ [Nap 100; Print "✅ Email sent successfully"])
          | Killed => s
          end
      end
  end.

Definition is_exited (s : state) : bool :=
  match at_pc s with
  | Killed => true
  | _ => false
  end.

Definition loop : consumer := mkConsumer tick state step Signal trace is_exited.

End ZeroLoop.

(** The messages a trace of that loop tells it has started on, and the
    number of e-mails it tells it has sent. *)
Definition started_on (t : list act) : list string :=
  omap (λ a, match a with
             | Print line => Go.strip_prefix "📧 Processing email: " line
             | _ => None
             end) t.

Definition sent (t : list act) : nat :=
  length (List.filter (λ a, match a with
                            | Print line => String.eqb line "✅ Email sent successfully"
                            | _ => false
                            end) t).

(** The messages pushed to the socket in a run, in order. *)
Definition pushed (ticks : list ZeroLoop.tick) : list string :=
  omap (λ t, match t with ZeroLoop.Arrive message => Some message | _ => None end) ticks.

(** How the lines of the loop add up: an e-mail sent for every message
    started on, but for the one in hand. *)
Definition zero_counted (s : ZeroLoop.state) : Prop :=
  match ZeroLoop.at_pc s with
  | ZeroLoop.Receiving => sent (ZeroLoop.trace s) = length (started_on (ZeroLoop.trace s))
  | ZeroLoop.Working _ => S (sent (ZeroLoop.trace s)) = length (started_on (ZeroLoop.trace s))
  | ZeroLoop.Killed =>
      (sent (ZeroLoop.trace s) ≤ length (started_on (ZeroLoop.trace s))
       ≤ S (sent (ZeroLoop.trace s)))%nat
  end.

(** ** Start-up: bounded retry *)

Section TraceLemmas.
Variable tg : target.

Lemma tries_app (t1 t2 : list act) :
  tries tg (t1 ++ t2) = (tries tg t1 + tries tg t2)%nat.
Proof. unfold tries. by rewrite List.filter_app, length_app. Qed.

Lemma paced_from_app (t1 t2 : list act) (b : bool) :
  paced_from tg b (t1 ++ t2) =
  match paced_from tg b t1 with
  | Some b' => paced_from tg b' t2
  | None => None
  end.
Proof.
  revert b. induction t1 as [|a t1 IH]; intros b; simpl; [done|].
  destruct (pace tg b a); [apply IH | done].
Qed.

Lemma serving_app (t1 t2 : list act) :
  serving (t1 ++ t2) = serving t1 || serving t2.
Proof. apply existsb_app. Qed.

Lemma dies_snoc (t : list act) (line : string) : dies (t ++ [Fatal line]) = true.
Proof. unfold dies. by rewrite last_snoc. Qed.

End TraceLemmas.

(** What the loops have in common, told of their traces. *)
Record loop_trace (tg : target) (rounds : nat) (t : list act) : Prop := {
  lt_tries : (tries tg t ≤ rounds)%nat;
  lt_paced : ∃ b, paced_from tg true t = Some b;
  lt_quiet : serving t = false
}.

Lemma wait_for_database_trace rounds ping k :
  loop_trace Database rounds (wait_for_database rounds ping k).
Proof.
  revert k. induction rounds as [|n IH]; intros k; simpl.
  - by split; [| eexists |].
  - destruct (ping k).
    + destruct (IH (S k)) as [H1 [b H2] H3].
      split; [change (S (tries Database (wait_for_database n ping (S k))) ≤ S n)%nat; lia
             | by exists b | done].
    + by split; [unfold tries; simpl; lia | eexists |].
Qed.

Lemma Fulfillment_connect_trace rounds dial i err t err' :
  Fulfillment.connect rounds dial i err = (t, err') →
  loop_trace Rabbit rounds t ∧
  ((∀ k, dial k ≠ None) → (0 < rounds)%nat ∨ err ≠ None → err' ≠ None).
Proof.
  revert i err t err'. induction rounds as [|n IH]; intros i err t err'; simpl.
  - intros [= <- <-]. split; [by split; [| eexists |] |].
    intros _ [?|?]; [lia | done].
  - destruct (dial i) as [e|] eqn:Hd.
    + destruct (Fulfillment.connect n dial (S i) (Some e)) as [t0 e0] eqn:Hrec.
      intros [= <- <-]. destruct (IH _ _ _ _ Hrec) as [[H1 [b H2] H3] H4].
      split.
      * split; [change (S (tries Rabbit t0) ≤ S n)%nat; lia | by exists b | done].
      * intros Hall _. apply H4; [done | by right].
    + intros [= <- <-]. split.
      * by split; [unfold tries; simpl; lia | eexists |].
      * intros Hall. by destruct (Hall i).
Qed.

Lemma ZeroEmail_connect_trace rounds addr answer i err t err' :
  ZeroEmail.connect rounds addr answer i err = (t, err') →
  loop_trace Publisher rounds t ∧
  ((∀ k, answer k ≠ None) → (0 < rounds)%nat ∨ err ≠ None → err' ≠ None).
Proof.
  revert i err t err'. induction rounds as [|n IH]; intros i err t err'; simpl.
  - intros [= <- <-]. split; [by split; [| eexists |] |].
    intros _ [?|?]; [lia | done].
  - destruct (answer i) as [e|] eqn:Hd.
    + destruct (ZeroEmail.connect n addr answer (S i) (Some e)) as [t0 e0] eqn:Hrec.
      intros [= <- <-]. destruct (IH _ _ _ _ Hrec) as [[H1 [b H2] H3] H4].
      split.
      * split; [change (S (tries Publisher t0) ≤ S n)%nat; lia | by exists b | done].
      * intros Hall _. apply H4; [done | by right].
    + intros [= <- <-]. split.
      * by split; [unfold tries; simpl; lia | eexists |].
      * intros Hall. by destruct (Hall i).
Qed.

Lemma RabbitBackend_dial_loop_trace rounds dial k t rabbitConn :
  RabbitBackend.dial_loop rounds dial k = (t, rabbitConn) →
  loop_trace Rabbit rounds t ∧ ((∀ k, dial k ≠ None) → rabbitConn = false).
Proof.
  revert k t rabbitConn. induction rounds as [|n IH]; intros k t conn; simpl.
  - intros [= <- <-]. by split; [split; [| eexists |] |].
  - destruct (dial k) as [e|] eqn:Hd.
    + destruct (RabbitBackend.dial_loop n dial (S k)) as [t0 c0] eqn:Hrec.
      intros [= <- <-]. destruct (IH _ _ _ Hrec) as [[H1 [b H2] H3] H4].
      split; [|done].
      split; [change (S (tries Rabbit t0) ≤ S n)%nat; lia | by exists b | done].
    + intros [= <- <-]. split.
      * by split; [unfold tries; simpl; lia | eexists |].
      * intros Hall. by destruct (Hall k).
Qed.

Lemma RabbitEmail_redial_trace rounds dial k err t err' :
  RabbitEmail.redial rounds dial k err = (t, err') →
  (tries Rabbit t ≤ rounds)%nat ∧
  (∀ b0, ∃ b, paced_from Rabbit b0 t = Some b) ∧
  serving t = false ∧
  ((∀ k, dial k ≠ None) → err ≠ None → err' ≠ None).
Proof.
  revert k err t err'. induction rounds as [|n IH]; intros k err t err'; simpl.
  - intros [= <- <-]. split_and!; [done | by eexists | done | done].
  - destruct err as [e|].
    + destruct (RabbitEmail.redial n dial (S k) (dial k)) as [t0 e0] eqn:Hrec.
      intros [= <- <-]. destruct (IH _ _ _ _ Hrec) as (H1 & H2 & H3 & H4).
      split_and!.
      * change (S (tries Rabbit t0) ≤ S n)%nat. lia.
      * intros b0. simpl. apply H2.
      * done.
      * intros Hall _. apply H4; [done | apply Hall].
    + intros [= <- <-]. split_and!; [unfold tries; simpl; lia | by eexists | done | done].
Qed.

Lemma tries_cons tg a t :
  tries tg (a :: t) = ((if is_try tg a then 1 else 0) + tries tg t)%nat.
Proof. unfold tries. simpl. by destruct (is_try tg a). Qed.

Lemma dies_app_r (t rest : list act) : dies rest = true → dies (t ++ rest) = true.
Proof.
  unfold dies. rewrite last_app. by destruct (last rest).
Qed.

Lemma dies_cons_r (a : act) (rest : list act) : dies rest = true → dies (a :: rest) = true.
Proof. apply (dies_app_r [a]). Qed.

Lemma paced_intro tg tr b : paced_from tg true tr = Some b → paced tg tr = true.
Proof. intros H. unfold paced. apply bool_decide_eq_true. by rewrite H. Qed.

(** The wait for the database, seen from the pacing of another target. *)
Lemma wait_for_database_foreign tg rounds ping k :
  tg ≠ Database →
  tries tg (wait_for_database rounds ping k) = 0%nat ∧
  paced_from tg true (wait_for_database rounds ping k) = Some true.
Proof.
  intros Hne. assert (Hne' : Database ≠ tg) by congruence.
  revert k. induction rounds as [|n IH]; intros k; simpl; [done|].
  destruct (ping k).
  - destruct (IH (S k)) as [H1 H2]. unfold tries in *. simpl.
    by rewrite !bool_decide_eq_false_2 by done.
  - unfold tries. simpl. by rewrite !bool_decide_eq_false_2 by done.
Qed.

(** A [main] is run by unfolding the monad and splitting on the answers;
    its trace is then read piece by piece. *)
Ltac run_main :=
  unfold trace_of, open_database, run_migrations, mbind, proc_bind, bind, emit, check,
    fatal, ret, declare_or_die;
  repeat (case_match; simplify_eq); cbn [fst snd].

Ltac decide_targets :=
  repeat first [ rewrite bool_decide_eq_true_2 by done
               | rewrite bool_decide_eq_false_2 by done ].

Ltac count_tries :=
  cbn [app]; rewrite ?tries_cons, ?tries_app, ?tries_cons; cbn [is_try];
  decide_targets;
  repeat match goal with
         | H : tries _ ?t = _ |- context [tries _ ?t] => rewrite H
         end;
  cbn [tries List.filter length]; lia.

Ltac pace_through :=
  eapply paced_intro; cbn [app];
  repeat first
    [ progress cbn [paced_from pace]
    | progress decide_targets
    | rewrite paced_from_app
    | match goal with
      | H : paced_from _ _ ?t = Some _ |- context [paced_from _ _ ?t] => rewrite H
      end ];
  reflexivity.

Ltac see_death :=
  cbn [app];
  repeat match goal with
         | |- dies (_ ++ _) = true => apply dies_app_r
         | |- dies (_ :: _ :: _) = true => apply dies_cons_r
         | |- dies (_ :: _ ++ _) = true => apply dies_cons_r
         end;
  reflexivity.

Ltac see_silence :=
  cbn [app]; unfold serving in *;
  repeat first
    [ progress cbn [existsb is_serving orb]
    | rewrite existsb_app
    | match goal with
      | H : existsb is_serving ?t = false |- context [existsb is_serving ?t] => rewrite H
      end ];
  reflexivity.

Ltac retry_cases H5 :=
  split; [|split];
  [ count_tries | pace_through
  | let Hall := fresh in
    intros Hall; specialize (H5 Hall); first [ done | split; [see_death | see_silence] ] ].

Lemma Fulfillment_retry ch co b :
  bounded_retry Rabbit
    (λ dial, trace_of (Fulfillment.main (Fulfillment.mkBoot dial ch co) b)).
Proof.
  intros dial. unfold Fulfillment.main.
  cbn [Fulfillment.dial Fulfillment.channel_err Fulfillment.consume_err].
  destruct (Fulfillment.connect 120 dial 0 None) as [t err] eqn:E.
  destruct (Fulfillment_connect_trace _ _ _ _ _ _ E) as [[H1 [b0 H2] H3] H4].
  assert (H5 : (∀ k, dial k ≠ None) → err ≠ None) by (intros; apply H4; [done | left; lia]).
  clear E H4. run_main; retry_cases H5.
Qed.

Lemma ZeroEmail_retry addr ctx sock :
  bounded_retry Publisher
    (λ answer, trace_of (ZeroEmail.main addr (ZeroEmail.mkBoot ctx sock answer) tt)).
Proof.
  intros answer. unfold ZeroEmail.main.
  cbn [ZeroEmail.context_err ZeroEmail.socket_err ZeroEmail.connect_err].
  destruct (ZeroEmail.connect 120 addr answer 0 None) as [t err] eqn:E.
  destruct (ZeroEmail_connect_trace _ _ _ _ _ _ _ E) as [[H1 [b0 H2] H3] H4].
  assert (H5 : (∀ k, answer k ≠ None) → err ≠ None) by (intros; apply H4; [done | left; lia]).
  clear E H4. run_main; retry_cases H5.
Qed.

Lemma RabbitBackend_retry op ping mig ch b :
  bounded_retry Rabbit
    (λ dial, trace_of (RabbitBackend.main (RabbitBackend.mkBoot op ping mig dial ch) b)).
Proof.
  intros dial. unfold RabbitBackend.main.
  cbn [RabbitBackend.dial RabbitBackend.channel_err RabbitBackend.open_err
       RabbitBackend.ping RabbitBackend.migrate_err].
  destruct (RabbitBackend.dial_loop 120 dial 0) as [t conn] eqn:E.
  destruct (RabbitBackend_dial_loop_trace _ _ _ _ _ E) as [[H1 [b0 H2] H3] H4].
  destruct (wait_for_database_foreign Rabbit 120 ping 0) as [W1 W2]; [done|].
  destruct (wait_for_database_trace 120 ping 0) as [_ _ W3].
  assert (H5 : (∀ k, dial k ≠ None) → conn ≠ true)
    by (intros Hall; rewrite (H4 Hall); done).
  clear E H4. run_main; retry_cases H5.
Qed.

Lemma RabbitEmail_retry ch co b :
  paced_retry Rabbit
    (λ dial, trace_of (RabbitEmail.main (RabbitEmail.mkBoot dial ch co) b)).
Proof.
  intros dial. unfold RabbitEmail.main.
  cbn [RabbitEmail.dial RabbitEmail.channel_err RabbitEmail.consume_err].
  destruct (RabbitEmail.redial 120 dial 1 (dial 0%nat)) as [t err] eqn:E.
  destruct (RabbitEmail_redial_trace _ _ _ _ _ _ E) as (H1 & H2 & H3 & H4).
  assert (H5 : (∀ k, dial k ≠ None) → err ≠ None) by (intros Hall; apply H4; [done | apply Hall]).
  destruct (H2 false) as [b0 Hb0].
  clear E H4 H2. run_main.
  all: split;
    [ pace_through
    | let Hall := fresh in
      intros Hall; specialize (H5 Hall); first [ done | split; [see_death | see_silence] ] ].
Qed.

Ltac eval_serving :=
  cbn [app]; unfold serving in *;
  repeat first
    [ progress cbn [existsb is_serving orb]
    | rewrite existsb_app
    | match goal with
      | H : existsb is_serving ?t = false |- context [existsb is_serving ?t] => rewrite H
      end ];
  fold serving.

Lemma PgmqBackend_wait op ping mig :
  let tr := trace_of (PgmqBackend.main (PgmqBackend.mkBoot op ping mig) tt) in
  (tries Database tr ≤ 120)%nat ∧ paced Database tr = true ∧
  (serving tr = true ↔ op = None ∧ mig = None) ∧
  (serving tr = false → dies tr = true).
Proof.
  unfold PgmqBackend.main.
  cbn [PgmqBackend.open_err PgmqBackend.ping PgmqBackend.migrate_err].
  destruct (wait_for_database_trace 120 ping 0) as [W1 [b0 W2] W3].
  cbv zeta. run_main.
  all: split; [count_tries | split; [pace_through | split]].
  all: eval_serving;
    first [ split; [discriminate | intros [? ?]; discriminate]
          | split; [discriminate | intros ?; discriminate]
          | split; [done | done]
          | discriminate
          | intros _; see_death ].
Qed.

Lemma PgmqEmail_wait op ping :
  let tr := trace_of (PgmqEmail.main (PgmqEmail.mkBoot op ping) tt) in
  (tries Database tr ≤ 120)%nat ∧ paced Database tr = true ∧
  (serving tr = true ↔ op = None) ∧
  (serving tr = false → dies tr = true).
Proof.
  unfold PgmqEmail.main.
  cbn [PgmqEmail.open_err PgmqEmail.ping].
  destruct (wait_for_database_trace 120 ping 0) as [W1 [b0 W2] W3].
  cbv zeta. run_main.
  all: split; [count_tries | split; [pace_through | split]].
  all: eval_serving;
    first [ split; [discriminate | intros [? ?]; discriminate]
          | split; [discriminate | intros ?; discriminate]
          | split; [done | done]
          | discriminate
          | intros _; see_death ].
Qed.
(** ** The topology of the broadcast variant *)

Lemma declare_twice b d b' : Amqp.declare b d = inl b' → Amqp.declare b' d = inl b'.
Proof.
  destruct d as [q | x | bd]; simpl.
  - destruct (Amqp.queues b !! Amqp.qName q) as [a|] eqn:Hq.
    + case_decide; [|done]. intros [= <-]. rewrite Hq. by rewrite decide_True.
    + intros [= <-]. simpl. rewrite lookup_insert_eq. by rewrite decide_True.
  - destruct (Amqp.exchanges b !! Amqp.xName x) as [a|] eqn:Hx.
    + case_decide; [|done]. intros [= <-]. rewrite Hx. by rewrite decide_True.
    + intros [= <-]. simpl. rewrite lookup_insert_eq. by rewrite decide_True.
  - destruct (Amqp.queues b !! Amqp.bQueue bd) eqn:Hq; [|done].
    destruct (Amqp.exchanges b !! Amqp.bExchange bd) eqn:Hx; [|done].
    case_decide as Hin.
    + intros [= <-]. rewrite Hq, Hx. by rewrite decide_True.
    + intros [= <-]. simpl. rewrite Hq, Hx. rewrite decide_True; [done|].
      apply elem_of_app. right. by apply list_elem_of_singleton.
Qed.

Lemma queue_declare_known b q :
  known (Amqp.queues b !! Amqp.qName q) (Amqp.attrs_of_queue q) →
  ∃ b', Amqp.declare b (Amqp.QueueDeclare q) = inl b' ∧
        Amqp.queues b' !! Amqp.qName q = Some (Amqp.attrs_of_queue q) ∧
        (∀ k, k ≠ Amqp.qName q → Amqp.queues b' !! k = Amqp.queues b !! k) ∧
        Amqp.exchanges b' = Amqp.exchanges b.
Proof.
  intros [H|H]; simpl; rewrite H.
  - eexists. split; [done|]. simpl. split_and!; [by rewrite lookup_insert_eq | | done].
    intros k Hk. by rewrite lookup_insert_ne.
  - rewrite decide_True by done. by exists b.
Qed.

Lemma exchange_declare_known b x :
  known (Amqp.exchanges b !! Amqp.xName x) (Amqp.attrs_of_exchange x) →
  ∃ b', Amqp.declare b (Amqp.ExchangeDeclare x) = inl b' ∧
        Amqp.exchanges b' !! Amqp.xName x = Some (Amqp.attrs_of_exchange x) ∧
        (∀ k, k ≠ Amqp.xName x → Amqp.exchanges b' !! k = Amqp.exchanges b !! k) ∧
        Amqp.queues b' = Amqp.queues b.
Proof.
  intros [H|H]; simpl; rewrite H.
  - eexists. split; [done|]. simpl. split_and!; [by rewrite lookup_insert_eq | | done].
    intros k Hk. by rewrite lookup_insert_ne.
  - rewrite decide_True by done. by exists b.
Qed.

Lemma queue_bind_present b bd :
  is_Some (Amqp.queues b !! Amqp.bQueue bd) →
  is_Some (Amqp.exchanges b !! Amqp.bExchange bd) →
  ∃ b', Amqp.declare b (Amqp.QueueBind bd) = inl b' ∧
        Amqp.queues b' = Amqp.queues b ∧ Amqp.exchanges b' = Amqp.exchanges b.
Proof.
  intros [a Ha] [c Hc]. simpl. rewrite Ha, Hc. case_decide; by eexists.
Qed.

Ltac unfold_main :=
  unfold value_of, trace_of, state_of, open_database, run_migrations, mbind, proc_bind,
    bind, emit, check, fatal, ret, declare_or_die.

(** Against a broker in agreement, and with the connections up, each of
    the three programs comes up, and leaves the broker in agreement. *)
Lemma start_agreed p b :
  agreed b →
  value_of (start p b) = Some tt ∧ serving (trace_of (start p b)) = true ∧
  agreed (state_of (start p b)).
Proof.
  intros (Hq & Hf & Hx). destruct p.
  - destruct (queue_declare_known b RabbitBackend.email_queue Hq) as (b1 & E1 & Q1 & Q1' & X1).
    unfold start, RabbitBackend.main. unfold_main.
    cbn [RabbitBackend.dial RabbitBackend.channel_err RabbitBackend.open_err
         RabbitBackend.ping RabbitBackend.migrate_err].
    change (wait_for_database 120 at_once 0) with [Try Database; Print "Connected to database"].
    change (RabbitBackend.dial_loop 120 at_once 0)
      with ([Try Rabbit; Print "Connected to RabbitMQ"], true).
    cbv beta iota. rewrite E1. cbv beta iota. cbn [fst snd].
    split; [done | split; [done|]]. unfold agreed, known. split_and!.
    + by right.
    + by rewrite Q1'.
    + by rewrite X1.
  - destruct (queue_declare_known b RabbitEmail.email_queue Hq) as (b1 & E1 & Q1 & Q1' & X1).
    destruct (exchange_declare_known b1 RabbitEmail.game_events) as (b2 & E2 & X2 & X2' & Q2).
    { unfold known. by rewrite X1. }
    destruct (queue_bind_present b2
                (Amqp.mkBinding (Amqp.qName RabbitEmail.email_queue) "" "game_events" false))
      as (b3 & E3 & Q3 & X3).
    { simpl. rewrite Q2. by eexists. }
    { by eexists. }
    unfold start, RabbitEmail.main. unfold_main.
    cbn [RabbitEmail.dial RabbitEmail.channel_err RabbitEmail.consume_err].
    change (RabbitEmail.redial 120 at_once 1 (at_once 0%nat)) with (@nil act, @None string).
    cbv beta iota. rewrite E1. cbv beta iota. rewrite E2. cbv beta iota. rewrite E3.
    cbv beta iota. cbn [fst snd].
    split; [done | split; [done|]]. unfold agreed, known. split_and!.
    + rewrite Q3, Q2. by right.
    + rewrite Q3, Q2, Q1' by done. done.
    + rewrite X3. by right.
  - destruct (queue_declare_known b Fulfillment.fulfillment_queue Hf) as (b1 & E1 & Q1 & Q1' & X1).
    destruct (exchange_declare_known b1 Fulfillment.game_events) as (b2 & E2 & X2 & X2' & Q2).
    { unfold known. by rewrite X1. }
    destruct (queue_bind_present b2
                (Amqp.mkBinding (Amqp.qName Fulfillment.fulfillment_queue) "" "game_events" false))
      as (b3 & E3 & Q3 & X3).
    { simpl. rewrite Q2. by eexists. }
    { by eexists. }
    unfold start, Fulfillment.main. unfold_main.
    cbn [Fulfillment.dial Fulfillment.channel_err Fulfillment.consume_err].
    change (Fulfillment.connect 120 at_once 0 None)
      with ([Try Rabbit; Print "Connected to RabbitMQ"], @None string).
    cbv beta iota. rewrite E1. cbv beta iota. rewrite E2. cbv beta iota. rewrite E3.
    cbv beta iota. cbn [fst snd].
    split; [done | split; [done|]]. unfold agreed, known. split_and!.
    + rewrite Q3, Q2, Q1' by done. done.
    + rewrite Q3, Q2. by right.
    + rewrite X3. by right.
Qed.

Lemma started_agreed ps b : agreed b → agreed (started ps b).
Proof.
  revert b. induction ps as [|p ps IH]; intros b Hb; simpl; [done|].
  apply IH. by apply start_agreed.
Qed.

Lemma fresh_agreed : agreed Amqp.fresh.
Proof. by split_and!; left. Qed.

(** ** The star handler *)

Lemma add_star_starred games fault r games' game :
  add_star games fault r = Starred games' game →
  fault = None ∧
  ∃ row, games !! ID game = Some row ∧
         game = mkGame (ID game) (title row) (description row) (stars row + 1) ∧
         games' = <[ID game := mkRow (title row) (description row) (stars row + 1)]> games.
Proof.
  unfold add_star, update_stars. intros H.
  repeat (case_match; simplify_eq). split; [done|]. simpl. by eexists.
Qed.
(** ** The monitors *)

Lemma follow_app f h t1 t2 :
  follow f h (t1 ++ t2) =
  match follow f h t1 with
  | Some h' => follow f h' t2
  | None => None
  end.
Proof.
  revert h. induction t1 as [|a t1 IH]; intros h; simpl; [done|].
  destruct (f h a); [apply IH | done].
Qed.

Lemma in_hand_extend h t x : in_hand h t → pulls x = false → in_hand h (t ++ [x]).
Proof.
  intros H Hx. destruct h as [|id|id]; simpl in *; [done| |].
  - destruct H as (b & bd & s & -> & Hs).
    exists b, bd, (s ++ [x])%list. split; [by rewrite <- app_assoc|].
    unfold no_pull in *. rewrite forallb_app, Hs. simpl. by rewrite Hx.
  - destruct H as (b & bd & s & -> & Hs & Hin).
    exists b, bd, (s ++ [x])%list. split; [by rewrite <- app_assoc|].
    split; [|apply in_or_app; by left].
    unfold no_pull in *. rewrite forallb_app, Hs. simpl. by rewrite Hx.
Qed.

Lemma in_hand_work id t : in_hand (Held id) t → in_hand (Worked id) (t ++ [Processed id]).
Proof.
  intros (b & bd & s & -> & Hs).
  exists b, bd, (s ++ [Processed id])%list. split; [by rewrite <- app_assoc|].
  split; [|apply in_or_app; right; by left].
  unfold no_pull in *. by rewrite forallb_app, Hs.
Qed.

Lemma watch_in_hand t h : follow watch Nothing t = Some h → in_hand h t.
Proof.
  revert h. induction t as [|x t IH] using rev_ind; intros h.
  - simpl. by intros [= <-].
  - rewrite follow_app. destruct (follow watch Nothing t) as [h'|] eqn:E; [|done].
    specialize (IH h' eq_refl). simpl.
    destruct (watch h' x) as [h1|] eqn:W; [|done]. intros [= <-].
    destruct x; simpl in W;
      try (injection W as <-; by apply in_hand_extend).
    + injection W as <-. by exists t, body, [].
    + destruct h' as [|id'|id']; try (injection W as <-; by apply in_hand_extend).
      case_decide; injection W as <-; [subst; by apply in_hand_work | by apply in_hand_extend].
    + destruct h' as [|id'|id']; try done. case_decide; [|done].
      injection W as <-. by apply in_hand_extend.
    + destruct h' as [|id'|id']; try done. case_decide; [|done].
      injection W as <-. by apply in_hand_extend.
    + destruct h' as [|id'|id']; try done. case_decide; [|done].
      injection W as <-. by apply in_hand_extend.
Qed.

(** A trace the first monitor accepts is settled. *)
Lemma watched_settled t h : follow watch Nothing t = Some h → settled t.
Proof.
  intros H pre a id post -> Ha.
  rewrite follow_app in H.
  destruct (follow watch Nothing pre) as [h'|] eqn:E; [|done].
  simpl in H. destruct (watch h' a) as [h1|] eqn:W; [|done].
  assert (h' = Worked id) as ->.
  { destruct a; simpl in Ha; try done; injection Ha as <-; simpl in W;
      destruct h'; try done; case_decide; by subst. }
  apply (watch_in_hand _ _ E).
Qed.
Lemma tidy_owes t h :
  follow tidy Nothing t = Some h →
  ∀ pre id body post,
    t = (pre ++ Pull id body :: post)%list → In (Processed id) post ∨ h = Held id.
Proof.
  revert h. induction t as [|x t IH] using rev_ind; intros h.
  - intros _ pre id body post H. by destruct pre.
  - rewrite follow_app. destruct (follow tidy Nothing t) as [h'|] eqn:E; [|done].
    specialize (IH h' eq_refl). simpl.
    destruct (tidy h' x) as [h1|] eqn:W; [|done]. intros [= <-].
    intros pre id body post Hsplit.
    destruct post as [|y post _] using rev_ind.
    + apply app_inj_tail in Hsplit as [-> ->]. simpl in W.
      right. destruct h'; by simplify_eq.
    + rewrite app_comm_cons, app_assoc in Hsplit.
      apply app_inj_tail in Hsplit as [-> ->].
      destruct (IH pre id body post eq_refl) as [Hin | ->].
      * left. apply in_or_app. by left.
      * destruct y; simpl in W; simplify_eq; try by right.
        case_decide; simplify_eq; [|by right].
        left. apply in_or_app. right. by left.
Qed.

(** A trace the second monitor accepts, with no message left in hand
    unworked, is drained. *)
Lemma tidy_drained t h :
  follow tidy Nothing t = Some h → (∀ id, h ≠ Held id) → drained t.
Proof.
  intros H Hh pre id body post Hsplit.
  destruct (tidy_owes _ _ H _ _ _ _ Hsplit) as [?| ->]; [done|].
  by destruct (Hh id).
Qed.
(** ** The loops *)

Lemma run_invariant (c : consumer) (I : state c → Prop) :
  (∀ s t, I s → I (step c s t)) → ∀ ticks s, I s → I (run c s ticks).
Proof.
  intros Hstep ticks. unfold run.
  induction ticks as [|t ticks IH]; intros s Hs; simpl; [done|].
  apply IH, Hstep, Hs.
Qed.

Lemma run_app (c : consumer) s ticks1 ticks2 :
  run c s (ticks1 ++ ticks2) = run c (run c s ticks1) ticks2.
Proof. unfold run. apply fold_left_app. Qed.

Lemma rabbit_step_watched l s t :
  rabbit_watched s → rabbit_watched (RabbitWorker.step l s t).
Proof.
  intros (h & Hh & Hpc). unfold RabbitWorker.step.
  destruct (RabbitWorker.at_pc s) as [|d| |] eqn:Hat;
    try (exists h; by rewrite Hat).
  - destruct t; simpl.
    + destruct (RabbitWorker.closed s); exists h; simpl; by rewrite ?Hat.
    + destruct (RabbitWorker.closed s); exists h; simpl; by rewrite ?Hat.
    + destruct (RabbitWorker.msgs s) as [|d rest].
      * destruct (RabbitWorker.closed s); [|exists h; by rewrite Hat].
        exists h. simpl. by rewrite follow_app, Hh.
      * exists (Held (RabbitWorker.DeliveryTag d)). simpl. by rewrite follow_app, Hh.
    + by exists h.
  - subst h. destruct t; simpl.
    + destruct (RabbitWorker.closed s); exists (Held (RabbitWorker.DeliveryTag d));
        simpl; by rewrite ?Hat.
    + destruct (RabbitWorker.closed s); exists (Held (RabbitWorker.DeliveryTag d));
        simpl; by rewrite ?Hat.
    + exists (Worked (RabbitWorker.DeliveryTag d)). simpl.
      rewrite follow_app, Hh. simpl. by rewrite !decide_True.
    + by exists (Held (RabbitWorker.DeliveryTag d)).
Qed.

Lemma rabbit_settled l ticks :
  settled (RabbitWorker.trace (run (RabbitWorker.machine l) RabbitWorker.init ticks)).
Proof.
  destruct (run_invariant (RabbitWorker.machine l) rabbit_watched
              (rabbit_step_watched l) ticks RabbitWorker.init) as (h & Hh & _).
  { by exists Nothing. }
  by eapply watched_settled.
Qed.
Lemma follow_ext f h t ext h' :
  follow f Nothing t = Some h → follow f h ext = Some h' →
  follow f Nothing (t ++ ext) = Some h'.
Proof. intros H1 H2. by rewrite follow_app, H1. Qed.

Ltac pgmq_keep h Hh Hat :=
  exists h; cbn [PgmqEmail.trace PgmqEmail.at_pc]; rewrite ?Hat;
  split; [first [ exact Hh | eapply follow_ext; [exact Hh | reflexivity] ] | done].

Lemma pgmq_step_watched Unmarshal s t :
  pgmq_watched s → pgmq_watched (PgmqEmail.step Unmarshal s t).
Proof.
  intros (h & Hh & Hpc). unfold PgmqEmail.step.
  destruct (PgmqEmail.at_pc s) as [|ms|m g| |] eqn:Hat; [| | | |pgmq_keep h Hh Hat].
  all: destruct t as [payload now|now w| |];
    [ pgmq_keep h Hh Hat
    |
    | destruct (PgmqEmail.leaving s); pgmq_keep h Hh Hat
    | destruct (PgmqEmail.leaving s); pgmq_keep h Hh Hat ].
  all: unfold PgmqEmail.go; rewrite Hat.
  - destruct (PgmqEmail.cancelled s); [pgmq_keep h Hh Hat|].
    destruct (PgmqEmail.read_fault w); [pgmq_keep h Hh Hat|].
    destruct (Pgmq.read (PgmqEmail.db s) now 30) as [[message q]|]; [|pgmq_keep h Hh Hat].
    cbv zeta. destruct (Unmarshal (Pgmq.Payload message)) as [gameEvent|e].
    + exists (Held (Pgmq.MsgID message)). cbn [PgmqEmail.trace PgmqEmail.at_pc].
      split; [|done]. eapply follow_ext; [exact Hh | reflexivity].
    + exists (Held (Pgmq.MsgID message)). cbn [PgmqEmail.trace PgmqEmail.at_pc].
      split; [|done]. rewrite app_assoc.
      eapply follow_ext; [eapply follow_ext; [exact Hh | reflexivity] | reflexivity].
  - pgmq_keep h Hh Hat.
  - subst h. cbv zeta.
    assert (Hw : follow watch (Held (Pgmq.MsgID m))
                   [Nap 100; Processed (Pgmq.MsgID m); Archive (Pgmq.MsgID m)]
                 = Some (Worked (Pgmq.MsgID m))).
    { cbn [follow watch]. by rewrite !decide_True. }
    destruct (PgmqEmail.archive_fault w).
    + exists (Worked (Pgmq.MsgID m)). cbn [PgmqEmail.trace PgmqEmail.at_pc].
      split; [|done]. rewrite app_assoc.
      eapply follow_ext; [eapply follow_ext; [exact Hh | exact Hw] | reflexivity].
    + destruct (Pgmq.archive (PgmqEmail.db s) (Pgmq.MsgID m)) as [q archived].
      exists (Worked (Pgmq.MsgID m)). cbn [PgmqEmail.trace PgmqEmail.at_pc].
      split; [|done]. rewrite app_assoc.
      eapply follow_ext; [eapply follow_ext; [exact Hh | exact Hw] |].
      by destruct archived.
  - pgmq_keep h Hh Hat.
Qed.

Lemma pgmq_settled Unmarshal q ticks :
  settled (PgmqEmail.trace (run (PgmqEmail.loop Unmarshal) (PgmqEmail.init q) ticks)).
Proof.
  destruct (run_invariant (PgmqEmail.loop Unmarshal) pgmq_watched
              (pgmq_step_watched Unmarshal) ticks (PgmqEmail.init q)) as (h & Hh & _).
  { by exists Nothing. }
  by eapply watched_settled.
Qed.
Lemma split_ext {A} (t ext pre post : list A) (a : A) :
  (t ++ ext = pre ++ a :: post)%list →
  (∃ post1, t = (pre ++ a :: post1)%list ∧ post = (post1 ++ ext)%list) ∨
  (∃ pre', pre = (t ++ pre')%list ∧ ext = (pre' ++ a :: post)%list).
Proof.
  intros H. apply app_eq_app in H as [l [[-> H]|[-> H]]].
  - destruct l as [|x l]; simpl in H.
    + right. exists []. rewrite !app_nil_r. by split.
    + injection H as <- ->. left. by exists l.
  - right. by exists l.
Qed.

Lemma no_pull_split ext pre id body post :
  no_pull ext = true → ext ≠ (pre ++ Pull id body :: post)%list.
Proof.
  intros H ->. unfold no_pull in H. rewrite forallb_app in H. simpl in H.
  by rewrite andb_false_r in H.
Qed.

Lemma committed_at_pull_quiet t ext :
  committed_at_pull t → no_pull ext = true → committed_at_pull (t ++ ext).
Proof.
  intros Ht Hext pre id body post H.
  apply split_ext in H as [(post1 & -> & ->)|(pre' & -> & H)].
  - destruct (Ht _ _ _ _ eq_refl) as [post' ->]. by eexists.
  - by apply no_pull_split in H.
Qed.

Lemma committed_at_pull_pull t p v rest :
  committed_at_pull t → no_pull rest = true →
  committed_at_pull (t ++ Pull p v :: Commit p :: rest).
Proof.
  intros Ht Hrest pre id body post H.
  apply split_ext in H as [(post1 & -> & ->)|(pre' & -> & H)].
  - destruct (Ht _ _ _ _ eq_refl) as [post' ->]. by eexists.
  - destruct pre' as [|x [|y pre']].
    + injection H as <- <- <-. by eexists.
    + discriminate H.
    + injection H as _ _ H. by apply no_pull_split in H.
Qed.

Lemma config_group brokers : Kafka.useConsumerGroup (KafkaEmail.config brokers) = true.
Proof. reflexivity. Qed.

Lemma kafka_step_committed brokers s t :
  committed_at_pull (KafkaEmail.trace s) →
  committed_at_pull (KafkaEmail.trace (KafkaEmail.step (KafkaEmail.config brokers) s t)).
Proof.
  intros H. unfold KafkaEmail.step, KafkaEmail.go. rewrite config_group.
  repeat case_match; cbn [KafkaEmail.trace app]; try done;
    try (apply committed_at_pull_quiet; [done | reflexivity]).
  by apply committed_at_pull_pull.
Qed.

Lemma kafka_committed brokers old ticks :
  committed_at_pull
    (KafkaEmail.trace (run (KafkaEmail.loop (KafkaEmail.config brokers))
                           (KafkaEmail.init old) ticks)).
Proof.
  apply (run_invariant (KafkaEmail.loop (KafkaEmail.config brokers))
           (λ s, committed_at_pull (KafkaEmail.trace s))).
  - intros s t. apply kafka_step_committed.
  - intros pre id body post H. by destruct pre.
Qed.
(** ** The queue of the polling variant *)

Lemma read_rows_ids rs now vt m rs' :
  Pgmq.read_rows rs now vt = Some (m, rs') →
  In (Pgmq.MsgID m) (map Pgmq.MsgID rs) ∧ map Pgmq.MsgID rs' = map Pgmq.MsgID rs.
Proof.
  revert m rs'. induction rs as [|r rs IH]; intros m rs'; simpl; [done|].
  destruct (Pgmq.VT r <=? now).
  - intros [= <- <-]. simpl. auto.
  - destruct (Pgmq.read_rows rs now vt) as [[r0 rest]|]; [|done].
    intros [= <- <-]. destruct (IH _ _ eq_refl) as [H1 H2].
    simpl. split; [by right | by rewrite H2].
Qed.

Lemma read_ids q now vt m q' :
  Pgmq.read q now vt = Some (m, q') →
  In (Pgmq.MsgID m) (map Pgmq.MsgID (Pgmq.rows q)) ∧
  map Pgmq.MsgID (Pgmq.rows q') = map Pgmq.MsgID (Pgmq.rows q) ∧
  Pgmq.next_id q' = Pgmq.next_id q ∧ Pgmq.archived q' = Pgmq.archived q.
Proof.
  unfold Pgmq.read.
  destruct (Pgmq.read_rows (Pgmq.rows q) now vt) as [[r rs]|] eqn:E; [|done].
  intros [= <- <-]. destruct (read_rows_ids _ _ _ _ _ E). by simpl.
Qed.

Lemma removed_ids id rs :
  ¬ In id (map Pgmq.MsgID (filter (λ m, Pgmq.has id m = false) rs)).
Proof.
  intros H. apply in_map_iff in H as (m & <- & H).
  apply list_elem_of_In, list_elem_of_filter in H as [H _].
  unfold Pgmq.has in H. by rewrite Z.eqb_refl in H.
Qed.

Lemma filtered_ids (P : Pgmq.Message → Prop) `{∀ m, Decision (P m)} id rs :
  In id (map Pgmq.MsgID (filter P rs)) → In id (map Pgmq.MsgID rs).
Proof.
  intros H'. apply in_map_iff in H' as (m & <- & H').
  apply in_map. apply list_elem_of_In. apply list_elem_of_In in H'.
  by apply list_elem_of_filter in H' as [_ ?].
Qed.
Lemma fresh_send q payload now : fresh_ids q → fresh_ids (Pgmq.send q payload now).1.
Proof.
  intros H id. simpl. rewrite map_app, in_app_iff. simpl.
  intros [Hin|[<-|[]]]; [apply H in Hin|]; lia.
Qed.

Lemma fresh_read q now vt m q' :
  Pgmq.read q now vt = Some (m, q') → fresh_ids q → fresh_ids q'.
Proof.
  intros Hr H id. destruct (read_ids _ _ _ _ _ Hr) as (_ & -> & -> & _). apply H.
Qed.

Lemma fresh_delete q id : fresh_ids q → fresh_ids (Pgmq.delete q id).1.
Proof.
  intros H i Hin. simpl in *. apply H.
  by apply (filtered_ids (λ m, Pgmq.has id m = false)) in Hin.
Qed.

Lemma fresh_archive q id : fresh_ids q → fresh_ids (Pgmq.archive q id).1.
Proof. apply fresh_delete. Qed.

Lemma past_send id q payload now : past id q → past id (Pgmq.send q payload now).1.
Proof.
  intros [H1 H2]. split; simpl; [lia|].
  rewrite map_app, in_app_iff. simpl. intros [?|[?|[]]]; [done|lia].
Qed.

Lemma past_read id q now vt m q' :
  Pgmq.read q now vt = Some (m, q') → past id q → past id q' ∧ Pgmq.MsgID m ≠ id.
Proof.
  intros Hr [H1 H2]. destruct (read_ids _ _ _ _ _ Hr) as (Hin & Hids & Hnext & _).
  unfold past. rewrite Hids, Hnext. split; [done|]. by intros <-.
Qed.

Lemma past_delete id q id' : past id q → past id (Pgmq.delete q id').1.
Proof.
  intros [H1 H2]. split; [done|]. simpl. intros Hin. apply H2.
  by apply (filtered_ids (λ m, Pgmq.has id' m = false)) in Hin.
Qed.

Lemma past_archive id q id' : past id q → past id (Pgmq.archive q id').1.
Proof. apply past_delete. Qed.

Lemma pgmq_step_fresh Unmarshal s t :
  fresh_ids (PgmqEmail.db s) → fresh_ids (PgmqEmail.db (PgmqEmail.step Unmarshal s t)).
Proof.
  intros H. unfold PgmqEmail.step, PgmqEmail.go.
  repeat case_match; cbn [PgmqEmail.db]; try done;
    first
      [ by apply fresh_send
      | by eapply fresh_read
      | apply fresh_delete; by eapply fresh_read
      | match goal with
        | E : Pgmq.archive ?q0 ?i = (?q, _) |- fresh_ids ?q =>
            replace q with (Pgmq.archive q0 i).1 by (by rewrite E);
            by apply fresh_archive
        end ].
Qed.

Lemma pgmq_run_fresh Unmarshal ticks :
  fresh_ids (PgmqEmail.db (run (PgmqEmail.loop Unmarshal) (PgmqEmail.init Pgmq.empty) ticks)).
Proof.
  apply (run_invariant (PgmqEmail.loop Unmarshal) (λ s, fresh_ids (PgmqEmail.db s))).
  - intros s t. apply pgmq_step_fresh.
  - by intros id.
Qed.

(** Once a message is gone, no step of the loop pulls it again. *)
Lemma pgmq_step_gone Unmarshal id s t :
  gone id s →
  gone id (PgmqEmail.step Unmarshal s t) ∧
  ∃ ext, PgmqEmail.trace (PgmqEmail.step Unmarshal s t) = (PgmqEmail.trace s ++ ext)%list ∧
         ∀ body, ¬ In (Pull id body) ext.
Proof.
  intros [Hp Hpc]. unfold PgmqEmail.step, PgmqEmail.go, gone.
  repeat first [ case_match
               | progress cbn [PgmqEmail.db PgmqEmail.trace PgmqEmail.at_pc] in * ];
    simplify_eq.
  all: try match goal with
           | E : Pgmq.read _ _ _ = Some _ |- _ =>
               destruct (past_read id _ _ _ _ _ E Hp) as [Hq Hne]
           end.
  all: split; [split|].
  all: try done.
  all: try by apply past_send.
  all: try by apply past_delete.
  all: try (match goal with
            | E : Pgmq.archive ?q0 ?i = (?q, _) |- past _ ?q =>
                replace q with (Pgmq.archive q0 i).1 by (by rewrite E);
                by apply past_archive
            end).
  all: try (exists []; split; [by rewrite app_nil_r | by intros body []]).
  all: eexists; split; [reflexivity|];
    intros body Hin; cbn [In app] in Hin;
    by intuition (try discriminate); simplify_eq.
Qed.

Lemma pgmq_run_gone Unmarshal id ticks s :
  gone id s →
  ∃ ext, PgmqEmail.trace (run (PgmqEmail.loop Unmarshal) s ticks)
         = (PgmqEmail.trace s ++ ext)%list ∧
         ∀ body, ¬ In (Pull id body) ext.
Proof.
  revert s. induction ticks as [|t ticks IH]; intros s Hs.
  - exists []. split; [by rewrite app_nil_r | by intros body []].
  - destruct (pgmq_step_gone Unmarshal id s t Hs) as (Hs' & ext1 & E1 & N1).
    destruct (IH _ Hs') as (ext2 & E2 & N2).
    exists (ext1 ++ ext2)%list. split.
    + change (run (PgmqEmail.loop Unmarshal) s (t :: ticks))
        with (run (PgmqEmail.loop Unmarshal) (PgmqEmail.step Unmarshal s t) ticks).
      by rewrite E2, E1, app_assoc.
    + intros body Hin. apply in_app_or in Hin as [Hin|Hin]; [by apply (N1 body) | by apply (N2 body)].
Qed.

(** ** The loop of the log variant *)

Lemma kafka_signal_stopping cfg s : stopping (KafkaEmail.step cfg s KafkaEmail.Signal).
Proof.
  unfold stopping, KafkaEmail.step.
  destruct (KafkaEmail.at_pc s) eqn:Hat; try destruct (KafkaEmail.cancelled s) eqn:Hc;
    cbn [KafkaEmail.cancelled KafkaEmail.at_pc]; auto.
Qed.

Lemma kafka_step_stopping cfg s t :
  stopping s →
  stopping (KafkaEmail.step cfg s t) ∧
  ∃ ext, KafkaEmail.trace (KafkaEmail.step cfg s t) = (KafkaEmail.trace s ++ ext)%list ∧
         ¬ In Poll ext.
Proof.
  intros Hs. unfold stopping in *. unfold KafkaEmail.step, KafkaEmail.go.
  repeat first [ case_match
               | progress cbn [KafkaEmail.cancelled KafkaEmail.at_pc KafkaEmail.trace] in * ];
    simplify_eq.
  all: try (destruct Hs; congruence).
  all: split.
  all: try by auto.
  all: try (destruct Hs as [Hc|Hc]; [by left | congruence]).
  all: try (exists []; split; [by rewrite app_nil_r | by intros []]).
  all: eexists; split; [reflexivity|];
    intros Hin; cbn [In app] in Hin; by intuition (try discriminate).
Qed.

Lemma kafka_run_stopping cfg ticks s :
  stopping s →
  ∃ ext, KafkaEmail.trace (run (KafkaEmail.loop cfg) s ticks)
         = (KafkaEmail.trace s ++ ext)%list ∧ ¬ In Poll ext.
Proof.
  revert s. induction ticks as [|t ticks IH]; intros s Hs.
  - exists []. split; [by rewrite app_nil_r | by intros []].
  - destruct (kafka_step_stopping cfg s t Hs) as (Hs' & ext1 & E1 & N1).
    destruct (IH _ Hs') as (ext2 & E2 & N2).
    exists (ext1 ++ ext2)%list. split.
    + change (run (KafkaEmail.loop cfg) s (t :: ticks))
        with (run (KafkaEmail.loop cfg) (KafkaEmail.step cfg s t) ticks).
      by rewrite E2, E1, app_assoc.
    + intros Hin. apply in_app_or in Hin as [Hin|Hin]; auto.
Qed.

Lemma kafka_step_tidied cfg s t :
  kafka_tidied s → kafka_tidied (KafkaEmail.step cfg s t).
Proof.
  intros (h & Hh & Hpc). unfold kafka_tidied, KafkaEmail.step, KafkaEmail.go.
  repeat first [ case_match
               | progress cbn [KafkaEmail.at_pc KafkaEmail.trace] in * ];
    simplify_eq.
  all: try (exists h; split; [first [ exact Hh | eapply follow_ext; [exact Hh | reflexivity] ] | done]).
  all: try (try subst h; eexists; split;
              [ first [ exact Hh
                      | eapply follow_ext;
                        [ exact Hh
                        | cbn [follow tidy]; rewrite ?decide_True by done; reflexivity ] ]
              | first [ done | by intros ? ] ]).
  all: destruct h as [|i|i]; [| by destruct (Hpc i) |];
    (eexists; split; [eapply follow_ext; [exact Hh | reflexivity] | done]).
Qed.

Lemma kafka_run_drained cfg old ticks :
  let s := run (KafkaEmail.loop cfg) (KafkaEmail.init old) ticks in
  KafkaEmail.is_exited s = true → drained (KafkaEmail.trace s).
Proof.
  intros s Hx.
  destruct (run_invariant (KafkaEmail.loop cfg) kafka_tidied
              (kafka_step_tidied cfg) ticks (KafkaEmail.init old)) as (h & Hh & Hpc).
  { exists Nothing. by split. }
  fold s in Hh, Hpc. unfold KafkaEmail.is_exited in Hx.
  destruct (KafkaEmail.at_pc s); try done.
  by eapply tidy_drained.
Qed.

Lemma kafka_go_nearer cfg s a :
  KafkaEmail.cancelled s = true →
  KafkaEmail.cancelled (KafkaEmail.step cfg s (KafkaEmail.Go a)) = true ∧
  (runs_left (KafkaEmail.step cfg s (KafkaEmail.Go a)) ≤ pred (runs_left s))%nat.
Proof.
  intros Hc. unfold runs_left, KafkaEmail.step, KafkaEmail.go. rewrite Hc.
  repeat first [ case_match
               | progress cbn [KafkaEmail.at_pc KafkaEmail.cancelled] in * ];
    simplify_eq; split; first [ done | cbn; lia ].
Qed.

(** Once cancelled, the loop has stopped after three runs at most. *)
Lemma kafka_stops cfg s a1 a2 a3 :
  KafkaEmail.cancelled s = true →
  KafkaEmail.is_exited
    (run (KafkaEmail.loop cfg) s [KafkaEmail.Go a1; KafkaEmail.Go a2; KafkaEmail.Go a3]) = true.
Proof.
  intros Hc. unfold run. cbn [fold_left step KafkaEmail.loop].
  destruct (kafka_go_nearer cfg s a1 Hc) as [Hc1 H1].
  destruct (kafka_go_nearer cfg _ a2 Hc1) as [Hc2 H2].
  destruct (kafka_go_nearer cfg _ a3 Hc2) as [Hc3 H3].
  assert (H0 : (runs_left s ≤ 3)%nat) by (unfold runs_left; case_match; lia).
  set (s3 := KafkaEmail.step cfg _ (KafkaEmail.Go a3)) in *.
  assert (Hz : runs_left s3 = 0%nat) by lia.
  unfold runs_left in Hz. unfold KafkaEmail.is_exited.
  by destruct (KafkaEmail.at_pc s3).
Qed.
Lemma late_init old : late (length old) (KafkaEmail.init old).
Proof. split_and!; simpl; [lia | done | done | by intros ? ? []]. Qed.

Lemma kafka_step_late brokers n s t :
  late n s → late n (KafkaEmail.step (KafkaEmail.config brokers) s t).
Proof.
  intros (Hlen & Hcom & Hpos & Hpull).
  unfold late, KafkaEmail.step, KafkaEmail.go, Kafka.start. rewrite config_group.
  repeat first [ case_match
               | progress cbn [KafkaEmail.topic KafkaEmail.committed KafkaEmail.position
                               KafkaEmail.trace] in * ];
    simplify_eq.
  all: split_and!; try done.
  all: try (rewrite length_app; simpl; lia).
  all: try (intros ? [= <-]; first [ lia | by apply Hcom | by apply Hpos
                                    | specialize (Hpos _ eq_refl); lia ]).
  all: try (intros id body Hin; apply in_app_or in Hin as [Hin|Hin];
            [ by eapply Hpull
            | cbn [In app] in Hin; intuition (try discriminate); simplify_eq;
              specialize (Hpos _ eq_refl); lia ]).
  all: intros p Hp; apply Hpos; congruence.
Qed.

Lemma relaunch_late n s : late n s → late n (KafkaEmail.relaunch s).
Proof. intros (H1 & H2 & H3 & H4). by split_and!. Qed.

Lemma kafka_lives_late brokers n sessions s :
  late n s → late n (KafkaEmail.lives (KafkaEmail.config brokers) s sessions).
Proof.
  revert s. induction sessions as [|ticks sessions IH]; intros s Hs; [done|].
  apply IH, relaunch_late.
  apply (run_invariant (KafkaEmail.loop (KafkaEmail.config brokers)) (late n)); [|done].
  intros s0 t. apply kafka_step_late.
Qed.


(** C2 (amended): the start-ups that dial a broker or a socket inside
    their loop and test the outcome after it (the worker of the socket
    variant, the fulfillment service and the backend of the broadcast
    variant) make at most 120 attempts, sleep 250ms after each failed one,
    and when every attempt fails die on a fatal error without serving. The
    e-mail service of the broadcast variant paces its attempts the same way
    and dies the same way when every attempt fails. The waits for the
    database of the polling variant ping at most 120 times, 250ms apart,
    and test nothing afterwards: the backend serves exactly when the
    database opened and the migrations ran, the worker enters its loop
    whenever the database opened; a process that does not serve has died
    on a fatal error. *)
Theorem C2_bootstrap_retry :
  (∀ addr ctx sock,
     bounded_retry Publisher
       (λ answer, trace_of (ZeroEmail.main addr (ZeroEmail.mkBoot ctx sock answer) tt))) ∧
  (∀ ch co b,
     bounded_retry Rabbit
       (λ dial, trace_of (Fulfillment.main (Fulfillment.mkBoot dial ch co) b))) ∧
  (∀ op ping mig ch b,
     bounded_retry Rabbit
       (λ dial, trace_of (RabbitBackend.main (RabbitBackend.mkBoot op ping mig dial ch) b))) ∧
  (∀ ch co b,
     paced_retry Rabbit
       (λ dial, trace_of (RabbitEmail.main (RabbitEmail.mkBoot dial ch co) b))) ∧
  (∀ op ping mig,
     let tr := trace_of (PgmqBackend.main (PgmqBackend.mkBoot op ping mig) tt) in
     (tries Database tr ≤ 120)%nat ∧ paced Database tr = true ∧
     (serving tr = true ↔ op = None ∧ mig = None) ∧
     (serving tr = false → dies tr = true)) ∧
  (∀ op ping,
     let tr := trace_of (PgmqEmail.main (PgmqEmail.mkBoot op ping) tt) in
     (tries Database tr ≤ 120)%nat ∧ paced Database tr = true ∧
     (serving tr = true ↔ op = None) ∧
     (serving tr = false → dies tr = true)).
Proof.
  split_and!.
  - apply ZeroEmail_retry.
  - apply Fulfillment_retry.
  - apply RabbitBackend_retry.
  - apply RabbitEmail_retry.
  - apply PgmqBackend_wait.
  - apply PgmqEmail_wait.
Qed.

(** C2, on an example: a publisher that refuses every connection. *)
Lemma C2_bootstrap_retry_witness :
  dies (trace_of (ZeroEmail.main "tcp://backend:5557"
                    (ZeroEmail.mkBoot None None refused) tt)) = true ∧
  serving (trace_of (ZeroEmail.main "tcp://backend:5557"
                       (ZeroEmail.mkBoot None None refused) tt)) = false.
Proof.
  apply (proj1 C2_bootstrap_retry "tcp://backend:5557" None None refused).
  intros k. unfold refused. discriminate.
Defined.

(** C2 as stated fails twice: the e-mail service of the broadcast variant
    dials 121 times when every dial is refused, and the backend of the
    polling variant serves although each of its 120 pings failed, when the
    migrations that follow go through. *)
Lemma C2_counterexample :
  tries Rabbit
    (trace_of (RabbitEmail.main (RabbitEmail.mkBoot refused None None) Amqp.fresh)) = 121%nat ∧
  (let tr := trace_of (PgmqBackend.main (PgmqBackend.mkBoot None refused None) tt) in
   tries Database tr = 120%nat ∧ serving tr = true ∧ dies tr = false) ∧
  ¬ bounded_retry Rabbit
      (λ dial, trace_of (RabbitEmail.main (RabbitEmail.mkBoot dial None None) Amqp.fresh)) ∧
  ¬ bounded_retry Database
      (λ ping, trace_of (PgmqBackend.main (PgmqBackend.mkBoot None ping None) tt)).
Proof.
  assert (H1 : tries Rabbit
    (trace_of (RabbitEmail.main (RabbitEmail.mkBoot refused None None) Amqp.fresh)) = 121%nat)
    by (vm_compute; reflexivity).
  assert (H2 : let tr := trace_of (PgmqBackend.main (PgmqBackend.mkBoot None refused None) tt) in
   tries Database tr = 120%nat ∧ serving tr = true ∧ dies tr = false)
    by (vm_compute; done).
  split_and!; try done.
  - intros H. destruct (H refused) as [Hle _]. rewrite H1 in Hle. lia.
  - intros H. destruct (H refused) as (_ & _ & Hd). destruct H2 as (_ & Hs & _).
    destruct Hd as [_ Hd]; [done|]. cbv zeta in Hs. congruence.
Qed.
(** C6: provisioning is idempotent. A declaration the broker has accepted
    is accepted again and changes nothing; and in whatever order, and
    however often, the backend, the e-mail service and the fulfillment
    service were started against a broker that was empty at first, each of
    them comes up when started once more: none of their declarations of
    [email_queue], [fulfillment_queue] and [game_events] is refused. *)
Theorem C6_provisioning_idempotent :
  (∀ b d b', Amqp.declare b d = inl b' → Amqp.declare b' d = inl b') ∧
  (∀ ps p,
     let r := start p (started ps Amqp.fresh) in
     value_of r = Some tt ∧ serving (trace_of r) = true).
Proof.
  split; [apply declare_twice|].
  intros ps p r.
  destruct (start_agreed p (started ps Amqp.fresh)) as (H1 & H2 & _); [|done].
  apply started_agreed, fresh_agreed.
Qed.

(** C6, on an example: the e-mail service started a second time, after the
    backend and the fulfillment service, finds its queue and the exchange
    declared and comes up. *)
Lemma C6_provisioning_idempotent_witness :
  value_of (start EmailService
              (started [Backend; EmailService; FulfillmentService] Amqp.fresh)) = Some tt ∧
  serving (trace_of (start EmailService
              (started [Backend; EmailService; FulfillmentService] Amqp.fresh))) = true.
Proof.
  exact (proj2 C6_provisioning_idempotent [Backend; EmailService; FulfillmentService] EmailService).
Defined.

(** C5 (what the code does): started against an empty broker, the backend
    comes up having declared the queue [email_queue] and nothing else; the
    exchange [game_events] its handler publishes to is not declared, so
    the broker has nowhere to route the event. The exchange is there only
    once one of the workers has started. *)
Lemma C5_backend_leaves_exchange_undeclared :
  let r := start Backend Amqp.fresh in
  value_of r = Some tt ∧
  serving (trace_of r) = true ∧
  declared (trace_of r) = [Amqp.QueueDeclare RabbitBackend.email_queue] ∧
  Amqp.exchanges (state_of r) !! "game_events" = None ∧
  (∃ call,
     effects (RabbitBackend.handleGameActions plain true demo_games
                (RabbitBackend.mkAnswers None None) star_7)
     = [Send call; Log "Published event for game 7"] ∧
     RabbitBackend.exchange call = "game_events" ∧
     Amqp.route (state_of r) (RabbitBackend.exchange call) (RabbitBackend.key call) = None) ∧
  Amqp.route (started [Backend; EmailService] Amqp.fresh) "game_events" "" = Some ["email_queue"].
Proof.
  vm_compute. split_and!; try done. eexists. split_and!; done.
Qed.
(** C3: when the star has been added (the UPDATE has committed) and the
    publish that follows fails with [e], each backend logs the failure,
    leaves the games table as the UPDATE left it, and answers 200 with the
    updated game as JSON. *)
Theorem C3_publish_failure_keeps_write
    (escape : string → string) (games : gmap Z Row) (fault : error) (r : Request)
    (games' : gmap Z Row) (game : Game) (e : string) (now : Z) :
  add_star games fault r = Starred games' game →
  let ok := Some (mkResponse 200 "application/json"
                    (fst (Marshal escape game) +:+ newline)) in
  (∃ row, games !! ID game = Some row ∧ Stars game = stars row + 1 ∧
          games' = <[ID game := mkRow (title row) (description row) (stars row + 1)]> games) ∧
  (let h := RabbitBackend.handleGameActions escape true games
              (RabbitBackend.mkAnswers fault (Some e)) r in
   games_after h = games' ∧ response h = ok ∧
   In (Log ("Failed to publish message: " +:+ e)) (effects h)) ∧
  (let h := PgmqBackend.handleGameActions escape games
              (PgmqBackend.mkAnswers fault (inr e)) r in
   games_after h = games' ∧ response h = ok ∧
   In (Log ("Failed to publish to PGMQ: " +:+ ("failed to send message to PGMQ: " +:+ e)))
      (effects h)) ∧
  (let h := KafkaBackend.handleGameActions escape games
              (KafkaBackend.mkAnswers fault now (Some e)) r in
   games_after h = games' ∧ response h = ok ∧
   In (Log ("Failed to publish to Kafka: " +:+ ("failed to write message to Kafka: " +:+ e)))
      (effects h)) ∧
  (let h := ZeroBackend.handleGameActions escape games
              (ZeroBackend.mkAnswers fault (Some e)) r in
   games_after h = games' ∧ response h = ok ∧
   In (Log ("Failed to publish ZMQ message: " +:+ e)) (effects h)).
Proof.
  intros H ok. split.
  - destruct (add_star_starred _ _ _ _ _ H) as (_ & row & H1 & H2 & H3).
    exists row. split_and!; [done | by rewrite H2 | done].
  - unfold RabbitBackend.handleGameActions, PgmqBackend.handleGameActions,
      KafkaBackend.handleGameActions, ZeroBackend.handleGameActions.
    cbn [RabbitBackend.update_fault PgmqBackend.update_fault KafkaBackend.update_fault
         ZeroBackend.update_fault]. rewrite H.
    split_and!; cbn; try done; auto.
Qed.

(** C3, on an example: a star for game 7 while the channel is closed. *)
Lemma C3_publish_failure_keeps_write_witness :
  let h := RabbitBackend.handleGameActions plain true demo_games
             (RabbitBackend.mkAnswers None (Some "channel closed")) star_7 in
  games_after h = <[7 := mkRow "Zelda" "..." 5]> demo_games ∧
  response h = Some (mkResponse 200 "application/json"
                       (fst (Marshal plain zelda) +:+ newline)) ∧
  In (Log "Failed to publish message: channel closed") (effects h).
Proof.
  refine (proj1 (proj2 (C3_publish_failure_keeps_write plain demo_games None star_7
            (<[7 := mkRow "Zelda" "..." 5]> demo_games) zelda "channel closed" 0 _))).
  vm_compute. reflexivity.
Defined.
(** C8: whatever a backend hands to its transport is the JSON object of
    the game the UPDATE returned, with the four members [id] (a number),
    [title] (a string), [description] (a string) and [stars] (a number), in
    this order and no other member. *)
Theorem C8_payload_is_the_game (escape : string → string) (games : gmap Z Row) (r : Request) :
  let json_of game :=
    encode_object escape
      [ ("id", JNum (ID game)); ("title", JStr (Title game));
        ("description", JStr (Description game)); ("stars", JNum (Stars game)) ] in
  (∀ rabbitCh env call,
     In (Send call) (effects (RabbitBackend.handleGameActions escape rabbitCh games env r)) →
     ∃ games' game,
       add_star games (RabbitBackend.update_fault env) r = Starred games' game ∧
       RabbitBackend.pBody (RabbitBackend.msg call) = json_of game) ∧
  (∀ env call,
     In (Send call) (effects (PgmqBackend.handleGameActions escape games env r)) →
     ∃ games' game,
       add_star games (PgmqBackend.update_fault env) r = Starred games' game ∧
       PgmqBackend.message call = json_of game) ∧
  (∀ env call,
     In (Send call) (effects (KafkaBackend.handleGameActions escape games env r)) →
     ∃ games' game,
       add_star games (KafkaBackend.update_fault env) r = Starred games' game ∧
       KafkaBackend.Value call = json_of game) ∧
  (∀ env call,
     In (Send call) (effects (ZeroBackend.handleGameActions escape games env r)) →
     ∃ games' game,
       add_star games (ZeroBackend.update_fault env) r = Starred games' game ∧
       ZeroBackend.data call = json_of game).
Proof.
  intros json_of.
  unfold RabbitBackend.handleGameActions, PgmqBackend.handleGameActions,
    KafkaBackend.handleGameActions, ZeroBackend.handleGameActions,
    PgmqBackend.publishToPGMQ, KafkaBackend.publishToKafka, Marshal.
  split_and!; intros;
    repeat (case_match; simplify_eq); cbn in *;
    repeat match goal with
           | H : _ ∨ _ |- _ => destruct H
           | H : False |- _ => destruct H
           end; simplify_eq; eauto.
Qed.

(** C8, on an example: the message published for a star on game 7. *)
Lemma C8_payload_is_the_game_witness :
  ∃ games' game,
    add_star demo_games None star_7 = Starred games' game ∧
    RabbitBackend.pBody
      (RabbitBackend.msg
         (RabbitBackend.mkPublish "game_events" "" false false
            (RabbitBackend.mkPublishing "application/json"
               (fst (Marshal plain zelda)) 2)))
    = encode_object plain
        [ ("id", JNum (ID game)); ("title", JStr (Title game));
          ("description", JStr (Description game)); ("stars", JNum (Stars game)) ].
Proof.
  refine (proj1 (C8_payload_is_the_game plain demo_games star_7) true
            (RabbitBackend.mkAnswers None None) _ _).
  vm_compute. left. reflexivity.
Defined.

(** C9: every message the backend of the broadcast variant publishes is
    marked persistent, delivery mode 2, in the [amqp.Publishing] handed to
    [Channel.Publish], and is addressed to the durable exchange
    [game_events] the workers declare, with the empty routing key. *)
Theorem C9_published_message_is_persistent
    (escape : string → string) (rabbitCh : bool) (games : gmap Z Row)
    (env : RabbitBackend.answers) (r : Request) (call : RabbitBackend.publish) :
  In (Send call) (effects (RabbitBackend.handleGameActions escape rabbitCh games env r)) →
  RabbitBackend.DeliveryMode (RabbitBackend.msg call) = 2 ∧
  RabbitBackend.exchange call = Amqp.xName RabbitEmail.game_events ∧
  Amqp.xDurable RabbitEmail.game_events = true ∧
  RabbitBackend.key call = "".
Proof.
  unfold RabbitBackend.handleGameActions, Marshal. intros H.
  repeat (case_match; simplify_eq); cbn in *;
    repeat match goal with
           | H : _ ∨ _ |- _ => destruct H
           | H : False |- _ => destruct H
           end; simplify_eq; done.
Qed.

(** C9, on an example: the message published for a star on game 7. *)
Lemma C9_published_message_is_persistent_witness :
  let call :=
    RabbitBackend.mkPublish "game_events" "" false false
      (RabbitBackend.mkPublishing "application/json" (fst (Marshal plain zelda)) 2) in
  In (Send call)
     (effects (RabbitBackend.handleGameActions plain true demo_games
                 (RabbitBackend.mkAnswers None None) star_7)) ∧
  RabbitBackend.DeliveryMode (RabbitBackend.msg call) = 2 ∧
  RabbitBackend.exchange call = Amqp.xName RabbitEmail.game_events ∧
  Amqp.xDurable RabbitEmail.game_events = true ∧
  RabbitBackend.key call = "".
Proof.
  assert (H : In (Send (RabbitBackend.mkPublish "game_events" "" false false
                   (RabbitBackend.mkPublishing "application/json"
                      (fst (Marshal plain zelda)) 2)))
                (effects (RabbitBackend.handleGameActions plain true demo_games
                   (RabbitBackend.mkAnswers None None) star_7)))
    by (vm_compute; left; reflexivity).
  split; [exact H|].
  exact (C9_published_message_is_persistent plain true demo_games
           (RabbitBackend.mkAnswers None None) star_7 _ H).
Defined.
(** C1 (amended): in the broadcast variant (both workers) the acknowledge,
    and in the polling variant the archive, is issued only for the message
    pulled last and only after the work on it is over, whatever the
    deliveries, the answers of the database and the signals. The worker of
    the log variant makes no commit of its own: [ReadMessage] commits the
    offset of each message as it hands it over, before the work on it. *)
Theorem C1_finalization_after_processing :
  (∀ ticks,
     settled (output RabbitEmail.loop (run RabbitEmail.loop RabbitWorker.init ticks))) ∧
  (∀ ticks,
     settled (output Fulfillment.loop (run Fulfillment.loop RabbitWorker.init ticks))) ∧
  (∀ Unmarshal q ticks,
     settled (output (PgmqEmail.loop Unmarshal)
                (run (PgmqEmail.loop Unmarshal) (PgmqEmail.init q) ticks))) ∧
  (∀ brokers old ticks,
     committed_at_pull
       (output (KafkaEmail.loop (KafkaEmail.config brokers))
          (run (KafkaEmail.loop (KafkaEmail.config brokers)) (KafkaEmail.init old) ticks))).
Proof.
  split_and!.
  - apply rabbit_settled.
  - apply rabbit_settled.
  - apply pgmq_settled.
  - apply kafka_committed.
Qed.

(** C1, on an example: one delivery to the e-mail service of the broadcast
    variant; its acknowledge comes after its pull and the end of the work. *)
Lemma C1_finalization_after_processing_witness :
  ∃ before body since,
    [Pull 1 "hello"; Print "📧 Processing email: hello"; Nap 100; Processed 1]
    = (before ++ Pull 1 body :: since)%list ∧
    forallb (λ x, negb (pulls x)) since = true ∧
    In (Processed 1) since.
Proof.
  refine (proj1 C1_finalization_after_processing
            [RabbitWorker.Arrive hello; RabbitWorker.Go; RabbitWorker.Go]
            [Pull 1 "hello"; Print "📧 Processing email: hello"; Nap 100; Processed 1]
            (Ack 1) 1 [Print "✅ Email processed and acknowledged"] _ _);
    reflexivity.
Defined.

(** C1 as stated fails on the log variant: one message published, one
    pull; the offset is committed while the work has not begun. *)
Lemma C1_counterexample :
  let loop := KafkaEmail.loop (KafkaEmail.config "kafka:9092") in
  let t := output loop
             (run loop (KafkaEmail.init [])
                [KafkaEmail.Join; KafkaEmail.Publish "{}";
                 KafkaEmail.Go KafkaEmail.Deliver; KafkaEmail.Go KafkaEmail.Deliver]) in
  t = [Poll; Pull 0 "{}"; Commit 0; Print "📧 Processing email notification: {}"] ∧
  ¬ settled t.
Proof.
  cbv zeta. split; [reflexivity|].
  intros H.
  destruct (H [Poll; Pull 0 "{}"] (Commit 0) 0
              [Print "📧 Processing email notification: {}"] eq_refl eq_refl)
    as (before & body & since & Hsplit & _ & Hin).
  assert (Hall : In (Processed 0) [Poll; Pull 0 "{}"]).
  { rewrite Hsplit. apply in_or_app. right. by right. }
  destruct Hall as [?|[?|[]]]; discriminate.
Qed.
(** A message whose payload [json.Unmarshal] refuses: the worker of the
    polling variant logs the failure, calls [pgmq.delete] for that message
    at once, with no work and no archive, and is back at the top of its
    loop, whatever the statement answers; and when the delete has run, the
    message is out of the queue and no later pull of the loop hands it
    over again. *)
Lemma malformed_message_step
    (Unmarshal : string → PgmqEmail.GameEvent + string)
    (ticks0 : list PgmqEmail.tick) (now : Z) (w : PgmqEmail.faults)
    (message : Pgmq.Message) (q : Pgmq.queue) (e : string) :
  let loop := PgmqEmail.loop Unmarshal in
  let s := run loop (PgmqEmail.init Pgmq.empty) ticks0 in
  let id := Pgmq.MsgID message in
  let s' := step loop s (PgmqEmail.Go now w) in
  PgmqEmail.at_pc s = PgmqEmail.Select →
  PgmqEmail.cancelled s = false →
  PgmqEmail.read_fault w = None →
  Pgmq.read (PgmqEmail.db s) now 30 = Some (message, q) →
  Unmarshal (Pgmq.Payload message) = inr e →
  PgmqEmail.trace s' =
    (PgmqEmail.trace s ++
     [Poll; Pull id (Pgmq.Payload message);
      Print ("📧 Processing email notification (ID: " +:+ Go.itoa id +:+ "): "
             +:+ Pgmq.Payload message);
      Print ("❌ Failed to parse message: " +:+ e);
      Delete id])%list ∧
  PgmqEmail.at_pc s' = PgmqEmail.Select ∧
  Pgmq.archived (PgmqEmail.db s') = Pgmq.archived (PgmqEmail.db s) ∧
  (PgmqEmail.delete_fault w = None →
   ¬ In id (map Pgmq.MsgID (Pgmq.rows (PgmqEmail.db s'))) ∧
   ∀ ticks, ∃ ext,
     PgmqEmail.trace (run loop s' ticks) = (PgmqEmail.trace s' ++ ext)%list ∧
     ∀ body, ¬ In (Pull id body) ext).
Proof.
  intros loop s.
  assert (Hfresh : fresh_ids (PgmqEmail.db s)) by apply pgmq_run_fresh.
  clearbody s. intros id s' Hat Hc Hrf Hread Hbad.
  destruct (read_ids _ _ _ _ _ Hread) as (Hin & Hids & Hnext & Harch).
  assert (Hs' : s' = PgmqEmail.mkState PgmqEmail.Select (PgmqEmail.cancelled s)
                  (PgmqEmail.leaving s)
                  (match PgmqEmail.delete_fault w with
                   | Some _ => q
                   | None => (Pgmq.delete q id).1
                   end)
                  (PgmqEmail.trace s ++
                   [Poll; Pull id (Pgmq.Payload message);
                    Print ("📧 Processing email notification (ID: " +:+ Go.itoa id
                           +:+ "): " +:+ Pgmq.Payload message)] ++
                   [Print ("❌ Failed to parse message: " +:+ e); Delete id])).
  { unfold s', loop. cbn [step PgmqEmail.loop]. unfold PgmqEmail.step, PgmqEmail.go.
    rewrite Hat, Hc, Hrf, Hread. cbv zeta. by rewrite Hbad. }
  rewrite Hs'. cbn [PgmqEmail.trace PgmqEmail.at_pc PgmqEmail.db].
  split_and!; [done | done | by destruct (PgmqEmail.delete_fault w) |].
  intros Hdel. rewrite Hdel in *. split; [apply removed_ids|].
  intros ticks. apply pgmq_run_gone. split; [|done].
  cbn [PgmqEmail.db]. split; [|apply removed_ids].
  simpl. rewrite Hnext. by apply Hfresh.
Qed.

(** C4 (what the code does): the result of the [pgmq.delete] of a
    malformed message is dropped. With a delete that fails, the worker
    reads the message [oops] again each time its visibility time has come,
    three times in three polls, says each time that it cannot parse it and
    calls the delete again, and never tells that the delete has failed:
    the message stays in the queue, read three times. With a delete that
    goes through, the same message is read once and is gone. *)
Lemma C4_failed_delete_goes_unnoticed :
  let loop := PgmqEmail.loop unmarshal_demo in
  let broken := PgmqEmail.mkFaults None (Some "driver: bad connection") None in
  let attempt :=
    [Poll; Pull 1 "oops";
     Print "📧 Processing email notification (ID: 1): oops";
     Print "❌ Failed to parse message: invalid character 'o' looking for beginning of value";
     Delete 1] in
  let failing := run loop (PgmqEmail.init Pgmq.empty)
                   [PgmqEmail.Enqueue "oops" 0; PgmqEmail.Go 0 broken;
                    PgmqEmail.Go 30 broken; PgmqEmail.Go 60 broken] in
  let healthy := run loop (PgmqEmail.init Pgmq.empty)
                   [PgmqEmail.Enqueue "oops" 0; PgmqEmail.Go 0 PgmqEmail.healthy;
                    PgmqEmail.Go 30 PgmqEmail.healthy; PgmqEmail.Go 60 PgmqEmail.healthy] in
  PgmqEmail.trace failing = (attempt ++ attempt ++ attempt)%list ∧
  Pgmq.rows (PgmqEmail.db failing) = [Pgmq.mkMessage 1 3 0 90 "oops"] ∧
  Pgmq.archived (PgmqEmail.db failing) = [] ∧
  PgmqEmail.trace healthy = (attempt ++ [Poll; Nap 1000])%list ∧
  Pgmq.rows (PgmqEmail.db healthy) = [].
Proof. cbv zeta. split_and!; reflexivity. Qed.
(** C7 (amended): the worker of the log variant shuts down gracefully.
    From a first start on any log and whatever happened before the signal:
    once the signal is sent, nothing that follows starts a new pull; when
    the loop has ended, the work on every message it was handed is
    complete; and the loop does end, three runs after the signal at most. *)
Theorem C7_log_worker_drains :
  ∀ brokers old,
    let loop := KafkaEmail.loop (KafkaEmail.config brokers) in
    graceful loop (KafkaEmail.init old) ∧
    ∀ before a1 a2 a3,
      exited loop
        (run loop (KafkaEmail.init old)
           (before ++ [KafkaEmail.Signal; KafkaEmail.Go a1; KafkaEmail.Go a2;
                       KafkaEmail.Go a3])) = true.
Proof.
  intros brokers old loop. split.
  - intros before after s1 s2. split.
    + apply kafka_run_stopping. unfold s1. rewrite run_app. apply kafka_signal_stopping.
    + unfold s2, s1. rewrite <- run_app. apply kafka_run_drained.
  - intros before a1 a2 a3.
    change (before ++ [KafkaEmail.Signal; KafkaEmail.Go a1; KafkaEmail.Go a2; KafkaEmail.Go a3])%list
      with (before ++ [KafkaEmail.Signal] ++
            [KafkaEmail.Go a1; KafkaEmail.Go a2; KafkaEmail.Go a3])%list.
    rewrite app_assoc, run_app.
    set (s1 := run loop (KafkaEmail.init old) (before ++ [KafkaEmail.Signal])).
    destruct (kafka_signal_stopping (KafkaEmail.config brokers)
                (run loop (KafkaEmail.init old) before)) as [Hc|Hs].
    + apply kafka_stops. unfold s1. by rewrite run_app.
    + assert (Hs1 : KafkaEmail.at_pc s1 = KafkaEmail.Stopped)
        by (unfold s1; by rewrite run_app).
      unfold run. cbn [fold_left step loop KafkaEmail.loop exited].
      unfold KafkaEmail.is_exited, KafkaEmail.step, KafkaEmail.go. by rewrite !Hs1.
Qed.

(** C7, on an example: the signal comes while a message is being worked
    on; the work is completed, then the loop stops. *)
Lemma C7_log_worker_drains_witness :
  let loop := KafkaEmail.loop (KafkaEmail.config "kafka:9092") in
  drained
    (output loop
       (run loop
          (run loop (KafkaEmail.init [])
             ([KafkaEmail.Join; KafkaEmail.Publish "{}"; KafkaEmail.Go KafkaEmail.Deliver;
               KafkaEmail.Go KafkaEmail.Deliver] ++ [signal loop]))
          [KafkaEmail.Go KafkaEmail.Deliver; KafkaEmail.Go KafkaEmail.Deliver])).
Proof.
  exact (proj2 (proj1 (C7_log_worker_drains "kafka:9092" [])
                  [KafkaEmail.Join; KafkaEmail.Publish "{}"; KafkaEmail.Go KafkaEmail.Deliver;
                   KafkaEmail.Go KafkaEmail.Deliver]
                  [KafkaEmail.Go KafkaEmail.Deliver; KafkaEmail.Go KafkaEmail.Deliver])
               eq_refl).
Defined.

(** C7 as stated fails on the broadcast variant, whose workers ask for no
    signal: the signal ends the process while a delivery is being worked
    on, and the work on it is never completed. *)
Lemma C7_counterexample :
  let s := run RabbitEmail.loop RabbitWorker.init
             [RabbitWorker.Arrive hello; RabbitWorker.Go; RabbitWorker.Signal] in
  exited RabbitEmail.loop s = true ∧
  output RabbitEmail.loop s = [Pull 1 "hello"; Print "📧 Processing email: hello"] ∧
  ¬ drained (output RabbitEmail.loop s) ∧
  ¬ graceful RabbitEmail.loop RabbitWorker.init.
Proof.
  cbv zeta.
  assert (Hnd : ¬ drained
                  (output RabbitEmail.loop
                     (run RabbitEmail.loop RabbitWorker.init
                        [RabbitWorker.Arrive hello; RabbitWorker.Go; RabbitWorker.Signal]))).
  { intros H. specialize (H [] 1 "hello" [Print "📧 Processing email: hello"] eq_refl).
    destruct H as [?|[]]. discriminate. }
  split_and!; [reflexivity | reflexivity | exact Hnd |].
  intros H.
  destruct (H [RabbitWorker.Arrive hello; RabbitWorker.Go] []) as [_ Hd].
  apply Hnd. apply Hd. reflexivity.
Qed.
(** C10: the reader of the worker of the log variant is made with
    [StartOffset] set to [LastOffset], in the group [email-service-group].
    So when that group starts for the first time on a log that holds [old]
    already, no message of [old] is ever handed to the loop: not in this
    run of the process and not in a later one, whatever is published, read
    or signalled in between. *)
Theorem C10_events_before_first_start_are_skipped :
  ∀ brokers old sessions ticks,
    let cfg := KafkaEmail.config brokers in
    let s := run (KafkaEmail.loop cfg)
               (KafkaEmail.lives cfg (KafkaEmail.init old) sessions) ticks in
    Kafka.StartOffset cfg = Kafka.LastOffset ∧
    Kafka.GroupID cfg = "email-service-group" ∧
    (∀ id body, In (Pull id body) (KafkaEmail.trace s) → Z.of_nat (length old) ≤ id) ∧
    (∀ k body, (k < length old)%nat → ¬ In (Pull (Z.of_nat k) body) (KafkaEmail.trace s)).
Proof.
  intros brokers old sessions ticks cfg s.
  assert (Hs : late (length old) s).
  { apply (run_invariant (KafkaEmail.loop cfg) (late (length old))).
    - intros s0 t. apply kafka_step_late.
    - apply kafka_lives_late, late_init. }
  destruct Hs as (_ & _ & _ & Hpull).
  split_and!; [done | done | exact Hpull |].
  intros k body Hk Hin. apply Hpull in Hin. lia.
Qed.

(** C10, on an example: an event published before the first start stays
    unread, while the one published after the reader has joined is handed
    over. *)
Lemma C10_events_before_first_start_are_skipped_witness :
  let loop := KafkaEmail.loop (KafkaEmail.config "kafka:9092") in
  let s := run loop (KafkaEmail.init ["early"])
             [KafkaEmail.Join; KafkaEmail.Publish "late"; KafkaEmail.Go KafkaEmail.Deliver;
              KafkaEmail.Go KafkaEmail.Deliver; KafkaEmail.Go KafkaEmail.Deliver] in
  In (Pull 1 "late") (KafkaEmail.trace s) ∧
  ∀ body, ¬ In (Pull 0 body) (KafkaEmail.trace s).
Proof.
  cbv zeta. split; [vm_compute; auto|].
  intros body.
  refine (proj2 (proj2 (proj2 (C10_events_before_first_start_are_skipped "kafka:9092"
            ["early"] [] _))) 0%nat body _).
  simpl. lia.
Defined.
(** * Further properties of the code *)

(** ** Ids in paths: [strconv.Atoi] reads back what [%d] wrote *)

Lemma digit_of_char (x : N) :
  (x < 10)%N → Go.digit (pretty_N_char x) = Some (Z.of_N x).
Proof.
  intros H.
  assert (x = 0 ∨ x = 1 ∨ x = 2 ∨ x = 3 ∨ x = 4 ∨ x = 5 ∨ x = 6 ∨ x = 7 ∨ x = 8 ∨ x = 9)%N
    as Hx by lia.
  by repeat destruct Hx as [->|Hx]; try subst x.
Qed.

Lemma digits_pretty_go (x : N) :
  ∃ k : Z, 0 ≤ k ∧ ∀ s acc,
    Go.digits (pretty_N_go x s) acc = Go.digits s (acc * 10 ^ k + Z.of_N x).
Proof.
  induction (N.lt_wf_0 x) as [x _ IH].
  destruct (decide (x = 0)%N) as [->|Hx].
  - exists 0. split; [done|]. intros s acc. rewrite pretty_N_go_0. f_equal. lia.
  - destruct (IH (x `div` 10)%N) as (k & Hk & IHk).
    { apply N.div_lt; lia. }
    exists (k + 1). split; [lia|]. intros s acc.
    rewrite pretty_N_go_step by lia. rewrite IHk. simpl.
    rewrite digit_of_char by (apply N.mod_lt; lia). f_equal.
    rewrite Z.pow_add_r by lia.
    pose proof (N.div_mod x 10 ltac:(lia)) as Hdm.
    assert (Z.of_N x = 10 * Z.of_N (x `div` 10) + Z.of_N (x `mod` 10)) by lia.
    lia.
Qed.

Lemma digits_pretty (x : N) : Go.digits (pretty_N_go x "") 0 = Some (Z.of_N x).
Proof.
  destruct (digits_pretty_go x) as (k & _ & H). rewrite H. by simpl.
Qed.

(** A string of digits holds no other character. *)
Lemma digits_only s acc n c :
  Go.digits s acc = Some n → In c (list_ascii_of_string s) → Go.digit c ≠ None.
Proof.
  revert acc. induction s as [|a s IH]; intros acc; simpl; [by intros _ []|].
  destruct (Go.digit a) as [d|] eqn:Hd; [|done].
  intros H [<-|Hin]; [by rewrite Hd | by eapply IH].
Qed.

Lemma pretty_go_first (x : N) :
  (0 < x)%N → ∃ c rest, pretty_N_go x "" = String c rest.
Proof.
  intros Hx. destruct (pretty_N_go x "") as [|c rest] eqn:E; [|by eauto].
  exfalso. rewrite pretty_N_go_step in E by done.
  assert (∀ y s, s ≠ "" → pretty_N_go y s ≠ "") as Hne.
  { clear. intros y. induction (N.lt_wf_0 y) as [y _ IH]. intros s Hs.
    destruct (decide (y = 0)%N) as [->|Hy]; [by rewrite pretty_N_go_0|].
    rewrite pretty_N_go_step by lia. apply IH; [apply N.div_lt; lia | done]. }
  by apply Hne in E.
Qed.

Lemma Atoi_digits (s : string) (n : Z) c rest :
  s = String c rest → Go.digits s 0 = Some n →
  Go.Atoi s = if (Go.min_int <=? n) && (n <=? Go.max_int) then Some n else None.
Proof.
  intros -> Hd. unfold Go.Atoi.
  assert (Hc : Go.digit c ≠ None) by (eapply digits_only; [exact Hd | by left]).
  assert (c ≠ "-"%char ∧ c ≠ "+"%char) as [H1 H2].
  { split; intros ->; by apply Hc. }
  assert ((match String c rest with
           | String "-" rest0 => (true, rest0)
           | String "+" rest0 => (false, rest0)
           | _ => (false, String c rest)
           end) = (false, String c rest)) as ->.
  { destruct c as [[] [] [] [] [] [] [] []]; try done. }
  by rewrite Hd.
Qed.

Lemma Atoi_itoa (n : Z) :
  Go.min_int ≤ n ≤ Go.max_int → Go.Atoi (Go.itoa n) = Some n.
Proof.
  intros Hn. unfold Go.itoa, pretty, pretty_Z.
  assert (Hr : (Go.min_int <=? n) && (n <=? Go.max_int) = true).
  { apply andb_true_iff. split; apply Z.leb_le; lia. }
  destruct n as [|p|p].
  - done.
  - unfold pretty, pretty_positive, pretty, pretty_N.
    rewrite decide_False by done.
    destruct (pretty_go_first (N.pos p)) as (c & rest & E); [lia|].
    rewrite (Atoi_digits _ (Z.pos p) c rest E).
    + by rewrite Hr.
    + by rewrite digits_pretty.
  - unfold pretty, pretty_positive, pretty, pretty_N.
    rewrite decide_False by done.
    destruct (pretty_go_first (N.pos p)) as (c & rest & E); [lia|].
    unfold Go.Atoi. change ("-" +:+ pretty_N_go (N.pos p) "")
      with (String "-" (pretty_N_go (N.pos p) "")).
    cbv iota beta. rewrite E at 1. rewrite digits_pretty.
    change (- Z.of_N (N.pos p)) with (Z.neg p). by rewrite Hr.
Qed.
(** ** The path of a star request *)

Lemma Split_piece (s t : string) (sep : ascii) :
  ¬ In sep (list_ascii_of_string s) →
  Go.Split (s +:+ String sep t) sep = s :: Go.Split t sep.
Proof.
  induction s as [|c s IH]; intros Hs; simpl.
  - by rewrite Ascii.eqb_refl.
  - destruct (Ascii.eqb c sep) eqn:E.
    + apply Ascii.eqb_eq in E. destruct Hs. by left.
    + rewrite IH; [done|]. intros Hin. apply Hs. by right.
Qed.

Lemma itoa_no_slash (n : Z) : ¬ In "/"%char (list_ascii_of_string (Go.itoa n)).
Proof.
  unfold Go.itoa, pretty, pretty_Z.
  assert (Hp : ∀ p, ¬ In "/"%char (list_ascii_of_string (pretty_N_go (N.pos p) ""))).
  { intros p Hin.
    by apply (digits_only _ 0 _ _ (digits_pretty (N.pos p))) in Hin. }
  destruct n as [|p|p]; simpl.
  - intros [?|[]]. discriminate.
  - unfold pretty, pretty_positive, pretty, pretty_N. rewrite decide_False by done. apply Hp.
  - unfold pretty, pretty_positive, pretty, pretty_N. rewrite decide_False by done.
    intros [?|Hin]; [discriminate | by apply Hp in Hin].
Qed.

Lemma star_path_parts (n : Z) :
  Go.Split (Go.TrimPrefix ("/api/games/" +:+ Go.itoa n +:+ "/star") "/api/games/") "/"
  = [Go.itoa n; "star"].
Proof.
  change (Go.TrimPrefix ("/api/games/" +:+ Go.itoa n +:+ "/star") "/api/games/")
    with (Go.itoa n +:+ String "/" "star").
  rewrite Split_piece by apply itoa_no_slash. reflexivity.
Qed.

Lemma add_star_on_star_path (games : gmap Z Row) (fault : error) (id : Z) :
  Go.min_int ≤ id ≤ Go.max_int →
  add_star games fault (mkRequest "POST" ("/api/games/" +:+ Go.itoa id +:+ "/star"))
  = match update_stars games fault id with
    | (_, ErrNoRows) => Replied (http_Error "Game not found" StatusNotFound)
    | (_, SqlError e) => Replied (http_Error e StatusInternalServerError)
    | (games', Scanned game) => Starred games' game
    end.
Proof.
  intros Hid. unfold add_star. cbn [Path Method].
  rewrite star_path_parts. cbn [String.eqb Ascii.eqb Bool.eqb negb].
  rewrite Atoi_itoa by done. cbn [String.eqb Ascii.eqb Bool.eqb]. done.
Qed.

Lemma add_star_by_id (games : gmap Z Row) (id : Z) (row : Row) :
  Go.min_int ≤ id ≤ Go.max_int →
  games !! id = Some row →
  add_star games None (mkRequest "POST" ("/api/games/" +:+ Go.itoa id +:+ "/star"))
  = Starred (<[id := mkRow (title row) (description row) (stars row + 1)]> games)
            (mkGame id (title row) (description row) (stars row + 1)).
Proof.
  intros Hid Hrow. rewrite add_star_on_star_path by done.
  unfold update_stars. by rewrite Hrow.
Qed.

(** X1: a POST to [/api/games/<id>/star], with the id written in decimal,
    stars the game of that id when the table has it: the path is split,
    the id is read back by [strconv.Atoi], the row gets one star more and
    the updated game is what the handler goes on with. This holds for every
    id a Go [int] can hold, the negative ones too. *)
Theorem X1_star_request_reaches_its_game
    (games : gmap Z Row) (id : Z) (row : Row) :
  Go.min_int ≤ id ≤ Go.max_int →
  games !! id = Some row →
  add_star games None (mkRequest "POST" ("/api/games/" +:+ Go.itoa id +:+ "/star"))
  = Starred (<[id := mkRow (title row) (description row) (stars row + 1)]> games)
            (mkGame id (title row) (description row) (stars row + 1)).
Proof.
  intros Hid Hrow. rewrite add_star_on_star_path by done.
  unfold update_stars. by rewrite Hrow.
Qed.

(** X1, on an example: game 7 of the demo table. *)
Lemma X1_star_request_reaches_its_game_witness :
  add_star demo_games None (mkRequest "POST" ("/api/games/" +:+ Go.itoa 7 +:+ "/star"))
  = Starred (<[7 := mkRow "Zelda" "..." (4 + 1)]> demo_games)
            (mkGame 7 "Zelda" "..." (4 + 1)).
Proof.
  apply (X1_star_request_reaches_its_game demo_games 7 (mkRow "Zelda" "..." 4)).
  - unfold Go.min_int, Go.max_int. lia.
  - reflexivity.
Defined.
(** X2: stars add up. However many times the star request for a game is
    served in a row, and whether or not the broker takes the events, the
    game has gained one star a request and every other game is as it was. *)
Theorem X2_stars_add_up
    (escape : string → string) (envs : list RabbitBackend.answers)
    (games : gmap Z Row) (id : Z) (row : Row) :
  Go.min_int ≤ id ≤ Go.max_int →
  games !! id = Some row →
  Forall (λ env, RabbitBackend.update_fault env = None) envs →
  let after :=
    starred_in_turn escape envs games
      (mkRequest "POST" ("/api/games/" +:+ Go.itoa id +:+ "/star")) in
  after !! id = Some (mkRow (title row) (description row)
                        (stars row + Z.of_nat (length envs))) ∧
  ∀ other, other ≠ id → after !! other = games !! other.
Proof.
  intros Hid Hrow Henvs. cbv zeta. revert games row Hrow.
  induction Henvs as [|env envs Henv _ IH]; intros games row Hrow.
  - simpl. split; [|done]. rewrite Hrow. f_equal. destruct row; simpl. f_equal. lia.
  - cbn [starred_in_turn]. unfold RabbitBackend.handleGameActions.
    rewrite Henv, (add_star_by_id games id row Hid Hrow).
    cbn [games_after].
    destruct (IH (<[id := mkRow (title row) (description row) (stars row + 1)]> games)
                (mkRow (title row) (description row) (stars row + 1))) as [H1 H2].
    { by rewrite lookup_insert_eq. }
    split.
    + rewrite H1. cbn [title description stars length]. do 2 f_equal. lia.
    + intros other Hne. rewrite H2 by done. by rewrite lookup_insert_ne.
Qed.

(** X2, on an example: three stars for game 7, the broker down for the
    second one. *)
Lemma X2_stars_add_up_witness :
  starred_in_turn plain
    [RabbitBackend.mkAnswers None None; RabbitBackend.mkAnswers None (Some "down");
     RabbitBackend.mkAnswers None None]
    demo_games (mkRequest "POST" ("/api/games/" +:+ Go.itoa 7 +:+ "/star"))
  !! 7 = Some (mkRow "Zelda" "..." (4 + 3)).
Proof.
  refine (proj1 (X2_stars_add_up plain
            [RabbitBackend.mkAnswers None None; RabbitBackend.mkAnswers None (Some "down");
             RabbitBackend.mkAnswers None None]
            demo_games 7 (mkRow "Zelda" "..." 4) _ _ _)).
  - unfold Go.min_int, Go.max_int. lia.
  - reflexivity.
  - repeat constructor.
Defined.
Lemma add_star_replied games fault r resp :
  add_star games fault r = Replied resp →
  resp = http_Error "Invalid path" 400 ∨
  resp = http_Error "Invalid game ID" 400 ∨
  resp = http_Error "Game not found" 404 ∨
  ∃ e, fault = Some e ∧ resp = http_Error e 500.
Proof.
  unfold add_star, update_stars. intros H.
  repeat (case_match; simplify_eq); eauto 6.
Qed.

Lemma handlers_outcome (escape : string → string) (games : gmap Z Row) (r : Request) :
  (∀ env, let h := RabbitBackend.handleGameActions escape true games env r in
          (games_after h, response h)
          = outcome escape games (add_star games (RabbitBackend.update_fault env) r)) ∧
  (∀ env, let h := PgmqBackend.handleGameActions escape games env r in
          (games_after h, response h)
          = outcome escape games (add_star games (PgmqBackend.update_fault env) r)) ∧
  (∀ env, let h := KafkaBackend.handleGameActions escape games env r in
          (games_after h, response h)
          = outcome escape games (add_star games (KafkaBackend.update_fault env) r)) ∧
  (∀ env, let h := ZeroBackend.handleGameActions escape games env r in
          (games_after h, response h)
          = outcome escape games (add_star games (ZeroBackend.update_fault env) r)).
Proof.
  unfold RabbitBackend.handleGameActions, PgmqBackend.handleGameActions,
    KafkaBackend.handleGameActions, ZeroBackend.handleGameActions.
  split_and!; intros env; cbv zeta;
    match goal with
    | |- context [add_star ?g ?f ?r] => destruct (add_star g f r)
    end; done.
Qed.

(** X3: no event without a star, and one event a star. In each of the four
    backends the handler hands a message to its transport exactly when the
    UPDATE has added the star, and then exactly one; a request that is
    refused (a path that is not a star path, an id that is no number, a
    game that is not there, a failing statement) leaves the table as it
    was, sends and logs nothing, and is answered 400, 400, 404 or 500. *)
Theorem X3_one_event_a_star (escape : string → string) (games : gmap Z Row) (r : Request) :
  (∀ env, follows_star (RabbitBackend.update_fault env)
            (add_star games (RabbitBackend.update_fault env) r) games
            (RabbitBackend.handleGameActions escape true games env r)) ∧
  (∀ env, follows_star (PgmqBackend.update_fault env)
            (add_star games (PgmqBackend.update_fault env) r) games
            (PgmqBackend.handleGameActions escape games env r)) ∧
  (∀ env, follows_star (KafkaBackend.update_fault env)
            (add_star games (KafkaBackend.update_fault env) r) games
            (KafkaBackend.handleGameActions escape games env r)) ∧
  (∀ env, follows_star (ZeroBackend.update_fault env)
            (add_star games (ZeroBackend.update_fault env) r) games
            (ZeroBackend.handleGameActions escape games env r)).
Proof.
  unfold RabbitBackend.handleGameActions, PgmqBackend.handleGameActions,
    KafkaBackend.handleGameActions, ZeroBackend.handleGameActions,
    PgmqBackend.publishToPGMQ, KafkaBackend.publishToKafka, Marshal, write_game.
  split_and!; intros env;
    match goal with
    | |- follows_star ?f (add_star ?g ?f ?r) _ _ =>
        pose proof (add_star_replied g f r) as Hrep;
        destruct (add_star g f r) as [resp| |games' game]
    end; cbn [follows_star].
  all: try (split_and!; [done | done | done | by apply Hrep]).
  all: try by split_and!.
  all: repeat (case_match; simplify_eq);
    cbn [games_after effects response sends omap app fst];
    split_and!; eauto.
Qed.
(** ** The catalogue handler *)

Lemma scan_rows_healthy (rows : list Game) (k : nat) (scan_fault : nat → error) :
  (∀ i, scan_fault i = None) → Catalogue.scan_rows rows k scan_fault = inl rows.
Proof.
  intros Hs. revert k. induction rows as [|game rest IH]; intros k; [done|].
  cbn [Catalogue.scan_rows]. by rewrite Hs, IH.
Qed.

#[local] Instance by_id_total : Total Catalogue.by_id.
Proof. intros a b. unfold Catalogue.by_id. lia. Qed.

#[local] Instance by_id_trans : Transitive Catalogue.by_id.
Proof. intros a b c. unfold Catalogue.by_id. lia. Qed.

Lemma sorted_keys_strict (l : list (Z * Row)) :
  StronglySorted Catalogue.by_id l → NoDup l.*1 →
  StronglySorted (λ a b : Z * Row, a.1 < b.1) l.
Proof.
  induction 1 as [|a l Hs IH Hall]; intros Hnd; [constructor|].
  cbn in Hnd. apply NoDup_cons in Hnd as [Hnotin Hnd].
  constructor; [by apply IH|].
  rewrite Forall_forall in Hall |- *. intros b Hb.
  specialize (Hall b Hb). unfold Catalogue.by_id in Hall.
  assert (a.1 ≠ b.1); [|lia].
  intros Heq. apply Hnotin. rewrite Heq. apply list_elem_of_fmap. by exists b.
Qed.

Lemma select_games_sorted (games : gmap Z Row) :
  StronglySorted (λ a b, ID a < ID b) (Catalogue.select_games games).
Proof.
  unfold Catalogue.select_games.
  assert (Hs : StronglySorted (λ a b : Z * Row, a.1 < b.1)
                 (merge_sort Catalogue.by_id (map_to_list games))).
  { apply sorted_keys_strict; [apply StronglySorted_merge_sort; apply _|].
    rewrite merge_sort_Permutation. apply NoDup_fst_map_to_list. }
  induction Hs as [|a l Hs IH Hall]; cbn [map]; constructor; [done|].
  apply Forall_fmap. eapply Forall_impl; [exact Hall|]. by intros b Hb.
Qed.

Lemma select_games_elem (games : gmap Z Row) (g : Game) :
  g ∈ Catalogue.select_games games ↔
  games !! ID g = Some (mkRow (Title g) (Description g) (Stars g)).
Proof.
  unfold Catalogue.select_games. rewrite list_elem_of_fmap. split.
  - intros ([id row] & -> & Hin). rewrite merge_sort_Permutation in Hin.
    apply elem_of_map_to_list in Hin. cbn. by destruct row.
  - intros Hrow. exists (ID g, mkRow (Title g) (Description g) (Stars g)). split.
    + by destruct g.
    + rewrite merge_sort_Permutation. by apply elem_of_map_to_list.
Qed.

Lemma select_games_length (games : gmap Z Row) :
  length (Catalogue.select_games games) = size games.
Proof.
  unfold Catalogue.select_games.
  by rewrite length_map, merge_sort_Permutation, length_map_to_list.
Qed.
(** X4: a created game starts with no star and under the id the database
    gave, whatever id and stars the request body claimed; the answer is 201
    with that game, and no other row of the table is touched. *)
Theorem X4_created_game_has_no_star
    (Decode : string → Game + string) (escape : string → string)
    (games : gmap Z Row) (env : Catalogue.answers) (path body : string)
    (claimed : Game) (id : Z) :
  Decode body = inl claimed →
  Catalogue.insert_result env = inl id →
  let out := Catalogue.handleGames Decode escape games env (mkRequest "POST" path) body in
  let created := mkGame id (Title claimed) (Description claimed) 0 in
  out.2 = mkResponse 201 "application/json" (fst (Marshal escape created) +:+ newline) ∧
  out.1 !! id = Some (mkRow (Title claimed) (Description claimed) 0) ∧
  ∀ other, other ≠ id → out.1 !! other = games !! other.
Proof.
  intros Hd Hi. unfold Catalogue.handleGames. cbn [Method String.eqb Ascii.eqb Bool.eqb].
  rewrite Hd, Hi. cbn [fst snd]. split_and!; [done | by rewrite lookup_insert_eq |].
  intros other Hne. by rewrite lookup_insert_ne.
Qed.

(** X4, on an example: the body claims id 99 and 1000 stars. *)
Lemma X4_created_game_has_no_star_witness :
  (Catalogue.handleGames decode_demo plain demo_games (Catalogue.healthy 8)
     (mkRequest "POST" "/api/games") "a game").2
  = mkResponse 201 "application/json"
      (fst (Marshal plain (mkGame 8 "Metroid" "a game" 0)) +:+ newline).
Proof.
  exact (proj1 (X4_created_game_has_no_star decode_demo plain demo_games
                  (Catalogue.healthy 8) "/api/games" "a game"
                  (mkGame 99 "Metroid" "a game" 1000) 8 eq_refl eq_refl)).
Defined.

(** X5: a game just created can be starred: the star request for the id
    the database gave finds the new row and answers with one star. *)
Theorem X5_created_game_can_be_starred
    (Decode : string → Game + string) (escape : string → string)
    (games : gmap Z Row) (env : Catalogue.answers) (path body : string)
    (claimed : Game) (id : Z) :
  Decode body = inl claimed →
  Catalogue.insert_result env = inl id →
  Go.min_int ≤ id ≤ Go.max_int →
  let created := (Catalogue.handleGames Decode escape games env (mkRequest "POST" path) body).1 in
  ∃ games',
    add_star created None (mkRequest "POST" ("/api/games/" +:+ Go.itoa id +:+ "/star"))
    = Starred games' (mkGame id (Title claimed) (Description claimed) 1).
Proof.
  intros Hd Hi Hid created.
  assert (Hrow : created !! id = Some (mkRow (Title claimed) (Description claimed) 0)).
  { subst created. unfold Catalogue.handleGames.
    cbn [Method String.eqb Ascii.eqb Bool.eqb]. rewrite Hd, Hi. cbn [fst].
    by rewrite lookup_insert_eq. }
  eexists. by rewrite (add_star_by_id created id _ Hid Hrow).
Qed.

(** X5, on an example: the game added to the demo table under the id 8. *)
Lemma X5_created_game_can_be_starred_witness :
  ∃ games',
    add_star (Catalogue.handleGames decode_demo plain demo_games (Catalogue.healthy 8)
                (mkRequest "POST" "/api/games") "a game").1
      None (mkRequest "POST" ("/api/games/" +:+ Go.itoa 8 +:+ "/star"))
    = Starred games' (mkGame 8 "Metroid" "a game" 1).
Proof.
  refine (X5_created_game_can_be_starred decode_demo plain demo_games
            (Catalogue.healthy 8) "/api/games" "a game"
            (mkGame 99 "Metroid" "a game" 1000) 8 eq_refl eq_refl _).
  unfold Go.min_int, Go.max_int. lia.
Defined.

(** X6: with a database that answers, [GET /api/games] lists the table:
    every row of the table and nothing else, each game once, by ascending
    id; the table is left as it was. *)
Theorem X6_listing_is_the_table_by_id
    (Decode : string → Game + string) (escape : string → string)
    (games : gmap Z Row) (env : Catalogue.answers) (path body : string) :
  Catalogue.query_fault env = None →
  Catalogue.rows_end env = None →
  (∀ k, Catalogue.scan_fault env k = None) →
  ∃ listed,
    Catalogue.handleGames Decode escape games env (mkRequest "GET" path) body
    = (games, mkResponse 200 "application/json" (Catalogue.encode_games escape listed)) ∧
    StronglySorted (λ a b, ID a < ID b) listed ∧
    length listed = size games ∧
    ∀ g, g ∈ listed ↔ games !! ID g = Some (mkRow (Title g) (Description g) (Stars g)).
Proof.
  intros Hq Hr Hs. exists (Catalogue.select_games games).
  split_and!.
  - unfold Catalogue.handleGames. cbn [Method String.eqb Ascii.eqb Bool.eqb].
    by rewrite Hq, Hr, (scan_rows_healthy _ _ _ Hs).
  - apply select_games_sorted.
  - apply select_games_length.
  - apply select_games_elem.
Qed.

(** X6, on an example: the listing of the demo table. *)
Lemma X6_listing_is_the_table_by_id_witness :
  ∃ listed,
    Catalogue.handleGames decode_demo plain demo_games (Catalogue.healthy 8)
      (mkRequest "GET" "/api/games") ""
    = (demo_games, mkResponse 200 "application/json" (Catalogue.encode_games plain listed)) ∧
    StronglySorted (λ a b, ID a < ID b) listed ∧
    length listed = size demo_games ∧
    ∀ g, g ∈ listed ↔ demo_games !! ID g = Some (mkRow (Title g) (Description g) (Stars g)).
Proof.
  exact (X6_listing_is_the_table_by_id decode_demo plain demo_games (Catalogue.healthy 8)
           "/api/games" "" eq_refl eq_refl (λ _, eq_refl)).
Defined.

(** X7: an error of the cursor in the middle of the result is not
    reported. When [rows.Next] gives up after [n] rows the handler never
    asks [rows.Err]: it answers 200 with the [n] games of lowest id, as if
    they were the whole table. *)
Theorem X7_cursor_error_shortens_the_listing
    (Decode : string → Game + string) (escape : string → string)
    (games : gmap Z Row) (env : Catalogue.answers) (path body : string) (n : nat) :
  Catalogue.query_fault env = None →
  Catalogue.rows_end env = Some n →
  (∀ k, Catalogue.scan_fault env k = None) →
  (n < size games)%nat →
  ∃ listed missed,
    Catalogue.handleGames Decode escape games env (mkRequest "GET" path) body
    = (games, mkResponse 200 "application/json" (Catalogue.encode_games escape listed)) ∧
    length listed = n ∧
    games !! ID missed = Some (mkRow (Title missed) (Description missed) (Stars missed)) ∧
    (missed ∉ listed) ∧
    Forall (λ g, ID g < ID missed) listed.
Proof.
  intros Hq Hr Hs Hn.
  pose proof (select_games_sorted games) as Hsorted.
  pose proof (select_games_length games) as Hlen.
  destruct (lookup_lt_is_Some_2 (Catalogue.select_games games) n) as [missed Hm]; [lia|].
  exists (take n (Catalogue.select_games games)), missed.
  assert (Hlow : Forall (λ g, ID g < ID missed) (take n (Catalogue.select_games games))).
  { rewrite <- (take_drop_middle _ _ _ Hm) in Hsorted.
    rewrite Forall_forall. intros g Hg.
    revert Hsorted Hg.
    generalize (take n (Catalogue.select_games games)) as l.
    induction l as [|a l IH]; intros Hsorted Hg; [by apply elem_of_nil in Hg|].
    cbn in Hsorted. apply StronglySorted_inv in Hsorted as [Hrest Hall].
    apply elem_of_cons in Hg as [->|Hg]; [|by apply IH].
    rewrite Forall_forall in Hall. apply Hall.
    apply elem_of_app. right. apply elem_of_cons. by left. }
  split_and!.
  - unfold Catalogue.handleGames. cbn [Method String.eqb Ascii.eqb Bool.eqb].
    by rewrite Hq, Hr, (scan_rows_healthy _ _ _ Hs).
  - rewrite length_take. lia.
  - apply select_games_elem. by eapply list_elem_of_lookup_2.
  - intros Hin. rewrite Forall_forall in Hlow. specialize (Hlow _ Hin). lia.
  - done.
Qed.

(** X7, on an example: the cursor of the demo table gives up before its
    first row, and the answer is an empty list. *)
Lemma X7_cursor_error_shortens_the_listing_witness :
  ∃ listed missed,
    Catalogue.handleGames decode_demo plain demo_games
      (Catalogue.mkAnswers None (Some 0%nat) (λ _, None) (inl 8))
      (mkRequest "GET" "/api/games") ""
    = (demo_games, mkResponse 200 "application/json" (Catalogue.encode_games plain listed)) ∧
    length listed = 0%nat ∧
    demo_games !! ID missed
      = Some (mkRow (Title missed) (Description missed) (Stars missed)) ∧
    (missed ∉ listed) ∧
    Forall (λ g, ID g < ID missed) listed.
Proof.
  refine (X7_cursor_error_shortens_the_listing decode_demo plain demo_games
            (Catalogue.mkAnswers None (Some 0%nat) (λ _, None) (inl 8))
            "/api/games" "" 0 eq_refl eq_refl (λ _, eq_refl) _).
  vm_compute. lia.
Defined.

(** X8: the handler writes the table only when it answers 201: a listing,
    a request with another method, a body that does not decode and a failed
    INSERT all leave every row as it was. *)
Theorem X8_only_a_created_game_changes_the_table
    (Decode : string → Game + string) (escape : string → string)
    (games : gmap Z Row) (env : Catalogue.answers) (r : Request) (body : string) :
  Status (Catalogue.handleGames Decode escape games env r body).2 ≠ 201 →
  (Catalogue.handleGames Decode escape games env r body).1 = games.
Proof.
  unfold Catalogue.handleGames. intros Hst.
  repeat case_match; try done.
Qed.

(** X8, on an example: an INSERT the database refuses. *)
Lemma X8_only_a_created_game_changes_the_table_witness :
  (Catalogue.handleGames decode_demo plain demo_games
     (Catalogue.mkAnswers None None (λ _, None) (inr "connection refused"))
     (mkRequest "POST" "/api/games") "a game").1 = demo_games.
Proof.
  apply (X8_only_a_created_game_changes_the_table decode_demo plain demo_games
           (Catalogue.mkAnswers None None (λ _, None) (inr "connection refused"))
           (mkRequest "POST" "/api/games") "a game").
  vm_compute. discriminate.
Defined.
(** ** The order of the acknowledgements *)

Lemma acked_app t1 t2 : acked (t1 ++ t2) = (acked t1 ++ acked t2)%list.
Proof. apply omap_app. Qed.

Lemma pulled_app t1 t2 : pulled (t1 ++ t2) = (pulled t1 ++ pulled t2)%list.
Proof. apply omap_app. Qed.

Lemma delivered_app t1 t2 : delivered (t1 ++ t2) = (delivered t1 ++ delivered t2)%list.
Proof. apply omap_app. Qed.

#[local] Instance killed_dec s : Decision (killed s).
Proof. unfold killed. destruct (RabbitWorker.at_pc s); [right|right|right|left]; done. Defined.

Lemma rabbit_step_returned l s t :
  returned_empty s → returned_empty (RabbitWorker.step l s t).
Proof.
  unfold returned_empty, RabbitWorker.step. intros H.
  repeat case_match; cbn [RabbitWorker.at_pc RabbitWorker.closed RabbitWorker.msgs];
    try done; intros; try congruence; auto.
Qed.

Lemma rabbit_step_killed l s t :
  killed (RabbitWorker.step l s t) →
  RabbitWorker.trace (RabbitWorker.step l s t) = RabbitWorker.trace s.
Proof.
  unfold killed, RabbitWorker.step.
  repeat case_match; cbn [RabbitWorker.at_pc RabbitWorker.trace]; done.
Qed.

Lemma rabbit_run_killed l ticks s : killed s → run (RabbitWorker.machine l) s ticks = s.
Proof.
  intros Hk. induction ticks as [|t ticks IH]; [done|].
  change (run (RabbitWorker.machine l) s (t :: ticks))
    with (run (RabbitWorker.machine l) (RabbitWorker.step l s t) ticks).
  replace (RabbitWorker.step l s t) with s; [done|].
  unfold RabbitWorker.step. unfold killed in Hk. by rewrite Hk.
Qed.

Lemma acked_in_charge s : acked (RabbitWorker.trace s) `prefix_of` in_charge s.
Proof. unfold in_charge. by apply prefix_app_r. Qed.

Lemma rabbit_step_shut l s t : shut s → shut (RabbitWorker.step l s t).
Proof.
  unfold shut, RabbitWorker.step, RabbitWorker.is_exited. intros [H|H].
  - repeat case_match; cbn [RabbitWorker.closed RabbitWorker.at_pc]; auto; congruence.
  - repeat case_match; cbn [RabbitWorker.closed RabbitWorker.at_pc]; auto; congruence.
Qed.

Lemma tags_kept (kept : nat) (msgs : list RabbitWorker.Delivery) :
  map RabbitWorker.DeliveryTag (take kept msgs) `prefix_of` map RabbitWorker.DeliveryTag msgs.
Proof.
  exists (map RabbitWorker.DeliveryTag (drop kept msgs)).
  by rewrite <- map_app, take_drop.
Qed.

(** What one tick does to the charge of a worker: it ends the process, or
    it adds the delivery it makes, or the worker takes nothing more and
    its charge has not grown. *)
Lemma rabbit_step_charge l s t :
  killed (RabbitWorker.step l s t) ∨
  (in_charge (RabbitWorker.step l s t) = (in_charge s ++ delivered [t])%list ∧
   (shut s → delivered [t] = [])) ∨
  (shut (RabbitWorker.step l s t) ∧
   in_charge (RabbitWorker.step l s t) `prefix_of` in_charge s).
Proof.
  unfold in_charge, killed, shut, RabbitWorker.is_exited, RabbitWorker.step.
  destruct s as [pc msgs closed trace]. cbn [RabbitWorker.at_pc RabbitWorker.msgs
    RabbitWorker.closed RabbitWorker.trace].
  destruct pc as [|d| |], t as [d'|kept| |]; try (by left);
    try (right; right; split; [by auto | done]).
  all: destruct closed;
    cbn [RabbitWorker.at_pc RabbitWorker.msgs RabbitWorker.closed RabbitWorker.trace].
  all: try (right; right; split; [by auto | done]).
  (* a delivery on an open channel *)
  all: try (right; left; split; [|by intros [?|?]];
            rewrite map_app; cbn; by rewrite <- ?app_assoc).
  (* the channel shuts down *)
  all: try (right; right; split; [by left|];
            do 2 apply prefix_app; apply tags_kept).
  (* the loop runs *)
  all: right; left; cbn [delivered omap]; rewrite app_nil_r; split; [|done].
  all: try destruct msgs;
    cbn [RabbitWorker.at_pc RabbitWorker.msgs RabbitWorker.closed RabbitWorker.trace];
    rewrite ?acked_app; cbn; rewrite <- ?app_assoc, ?app_nil_r; done.
Qed.

Lemma rabbit_run_shut l ticks s :
  shut s → acked (RabbitWorker.trace (run (RabbitWorker.machine l) s ticks))
           `prefix_of` in_charge s.
Proof.
  revert s. induction ticks as [|t ticks IH]; intros s Hs; [apply acked_in_charge|].
  change (run (RabbitWorker.machine l) s (t :: ticks))
    with (run (RabbitWorker.machine l) (RabbitWorker.step l s t) ticks).
  destruct (rabbit_step_charge l s t) as [Hk|[[He Hd]|[_ Hp]]].
  - rewrite rabbit_run_killed, rabbit_step_killed by done. apply acked_in_charge.
  - etrans; [apply IH; by apply rabbit_step_shut|]. by rewrite He, Hd, app_nil_r.
  - etrans; [apply IH; by apply rabbit_step_shut|]. done.
Qed.

Lemma rabbit_run_charge l ticks s :
  acked (RabbitWorker.trace (run (RabbitWorker.machine l) s ticks))
  `prefix_of` (in_charge s ++ delivered ticks)%list.
Proof.
  revert s. induction ticks as [|t ticks IH]; intros s.
  - cbn. rewrite app_nil_r. apply acked_in_charge.
  - change (run (RabbitWorker.machine l) s (t :: ticks))
      with (run (RabbitWorker.machine l) (RabbitWorker.step l s t) ticks).
    destruct (rabbit_step_charge l s t) as [Hk|[[He _]|[Hs Hp]]].
    + rewrite rabbit_run_killed, rabbit_step_killed by done.
      etrans; [apply acked_in_charge|]. by apply prefix_app_r.
    + etrans; [apply IH|]. rewrite He.
      change (t :: ticks) with ([t] ++ ticks)%list.
      by rewrite delivered_app, <- app_assoc.
    + etrans; [by apply rabbit_run_shut|]. etrans; [exact Hp|]. by apply prefix_app_r.
Qed.

Lemma rabbit_run_before_close l ticks s :
  ¬ shut s →
  acked (RabbitWorker.trace (run (RabbitWorker.machine l) s ticks))
  `prefix_of` (in_charge s ++ delivered (before_close ticks))%list.
Proof.
  revert s. induction ticks as [|t ticks IH]; intros s Hs.
  - cbn. rewrite app_nil_r. apply acked_in_charge.
  - change (run (RabbitWorker.machine l) s (t :: ticks))
      with (run (RabbitWorker.machine l) (RabbitWorker.step l s t) ticks).
    destruct (rabbit_step_charge l s t) as [Hk|[[He _]|[Hs' Hp]]].
    + rewrite rabbit_run_killed, rabbit_step_killed by done.
      etrans; [apply acked_in_charge|]. by apply prefix_app_r.
    + destruct (decide (shut (RabbitWorker.step l s t))) as [Hs'|Hs'].
      * etrans; [by apply rabbit_run_shut|]. rewrite He.
        destruct t; cbn [before_close delivered omap app]; apply prefix_app;
          first [apply prefix_nil | apply prefix_cons, prefix_nil].
      * etrans; [by apply IH|]. rewrite He.
        destruct t as [d|kept| |]; cbn [before_close delivered omap app];
          rewrite <- ?app_assoc; try done.
        destruct Hs'. unfold shut, RabbitWorker.step, RabbitWorker.is_exited.
        destruct (RabbitWorker.at_pc s) eqn:Hat, (RabbitWorker.closed s) eqn:Hc;
          cbn; rewrite ?Hat, ?Hc; auto.
    + etrans; [by apply rabbit_run_shut|]. etrans; [exact Hp|]. by apply prefix_app_r.
Qed.

Lemma rabbit_step_handed l s t : handed_acked s → handed_acked (RabbitWorker.step l s t).
Proof.
  unfold handed_acked, RabbitWorker.step.
  destruct s as [pc msgs closed trace]. cbn [RabbitWorker.at_pc RabbitWorker.msgs
    RabbitWorker.closed RabbitWorker.trace].
  intros H.
  destruct pc, t; try destruct closed; try destruct msgs;
    cbn [RabbitWorker.at_pc RabbitWorker.msgs RabbitWorker.closed RabbitWorker.trace];
    rewrite ?pulled_app, ?acked_app, ?map_app; cbn; rewrite ?app_nil_r; try done.
  all: by rewrite H.
Qed.

(** X9: a worker of the broadcast variant acknowledges the deliveries in
    the order the broker made them, each once and none skipped: at any
    time the tags it has acknowledged are the first ones delivered. *)
Theorem X9_acks_follow_the_deliveries (ticks : list RabbitWorker.tick) :
  acked (output RabbitEmail.loop (run RabbitEmail.loop RabbitWorker.init ticks))
    `prefix_of` delivered ticks ∧
  acked (output Fulfillment.loop (run Fulfillment.loop RabbitWorker.init ticks))
    `prefix_of` delivered ticks.
Proof.
  split.
  - apply (rabbit_run_charge RabbitEmail.lines ticks RabbitWorker.init).
  - apply (rabbit_run_charge Fulfillment.lines ticks RabbitWorker.init).
Qed.

(** X10: what a shut-down of the channel does to a worker of the broadcast
    variant. The worker takes nothing the broker delivers after it: at any
    time the tags it has called [Ack] for are among the first ones
    delivered before the shut-down. And when its loop has returned the
    worker holds nothing: the channel is empty and [Ack] was called for
    every delivery the loop was handed, in the order they were handed (a
    call made after the shut-down fails, and the worker does not read its
    error). Which of the deliveries the library held at the shut-down
    were still handed to the loop is not the worker's to decide, and
    nothing is said of it. *)
Theorem X10_shut_down_ends_the_taking (l : RabbitWorker.lines) (ticks : list RabbitWorker.tick) :
  let s := run (RabbitWorker.machine l) RabbitWorker.init ticks in
  acked (RabbitWorker.trace s) `prefix_of` delivered (before_close ticks) ∧
  (RabbitWorker.at_pc s = RabbitWorker.Returned →
   RabbitWorker.msgs s = [] ∧
   map fst (pulled (RabbitWorker.trace s)) = acked (RabbitWorker.trace s)).
Proof.
  intros s. split.
  - apply (rabbit_run_before_close l ticks RabbitWorker.init). by intros [?|?].
  - intros Hret. split.
    + apply (run_invariant (RabbitWorker.machine l) returned_empty
               (rabbit_step_returned l) ticks RabbitWorker.init); done.
    + pose proof (run_invariant (RabbitWorker.machine l) handed_acked
                    (rabbit_step_handed l) ticks RabbitWorker.init eq_refl) as H.
      fold s in H. unfold handed_acked in H. by rewrite Hret in H.
Qed.
(** ** Where an event goes *)

Lemma queue_declare_agreed b q :
  known (Amqp.queues b !! Amqp.qName q) (Amqp.attrs_of_queue q) →
  Amqp.declare b (Amqp.QueueDeclare q)
  = inl (Amqp.mkBroker (<[Amqp.qName q := Amqp.attrs_of_queue q]> (Amqp.queues b))
           (Amqp.exchanges b) (Amqp.bindings b)).
Proof.
  intros [H|H]; simpl; rewrite H; [done|].
  rewrite decide_True by done. rewrite insert_id by done. by destruct b.
Qed.

Lemma exchange_declare_agreed b x :
  known (Amqp.exchanges b !! Amqp.xName x) (Amqp.attrs_of_exchange x) →
  Amqp.declare b (Amqp.ExchangeDeclare x)
  = inl (Amqp.mkBroker (Amqp.queues b)
           (<[Amqp.xName x := Amqp.attrs_of_exchange x]> (Amqp.exchanges b))
           (Amqp.bindings b)).
Proof.
  intros [H|H]; simpl; rewrite H; [done|].
  rewrite decide_True by done. rewrite insert_id by done. by destruct b.
Qed.

Lemma start_leaves p b :
  agreed b →
  state_of (start p b)
  = match p with
    | Backend =>
        Amqp.mkBroker (<["email_queue" := (true, false, false)]> (Amqp.queues b))
          (Amqp.exchanges b) (Amqp.bindings b)
    | EmailService => worker_leaves "email_queue" b
    | FulfillmentService => worker_leaves "fulfillment_queue" b
    end.
Proof.
  intros (Hq & Hf & Hx). destruct p.
  - pose proof (queue_declare_agreed b RabbitBackend.email_queue Hq) as E1.
    unfold start, RabbitBackend.main. unfold_main.
    cbn [RabbitBackend.dial RabbitBackend.channel_err RabbitBackend.open_err
         RabbitBackend.ping RabbitBackend.migrate_err].
    change (wait_for_database 120 at_once 0) with [Try Database; Print "Connected to database"].
    change (RabbitBackend.dial_loop 120 at_once 0)
      with ([Try Rabbit; Print "Connected to RabbitMQ"], true).
    cbv beta iota. rewrite E1. done.
  - pose proof (queue_declare_agreed b RabbitEmail.email_queue Hq) as E1.
    set (b1 := Amqp.mkBroker _ _ _) in E1.
    pose proof (exchange_declare_agreed b1 RabbitEmail.game_events Hx) as E2.
    set (b2 := Amqp.mkBroker _ _ _) in E2.
    unfold start, RabbitEmail.main. unfold_main.
    cbn [RabbitEmail.dial RabbitEmail.channel_err RabbitEmail.consume_err].
    change (RabbitEmail.redial 120 at_once 1 (at_once 0%nat)) with (@nil act, @None string).
    cbv beta iota. rewrite E1. cbv beta iota. rewrite E2. cbv beta iota.
    unfold Amqp.declare. cbn [Amqp.bQueue Amqp.bExchange Amqp.bKey Amqp.qName
      RabbitEmail.email_queue].
    subst b2 b1. cbn [Amqp.queues Amqp.exchanges Amqp.bindings Amqp.qName Amqp.xName
      RabbitEmail.email_queue RabbitEmail.game_events].
    rewrite !lookup_insert_eq. unfold worker_leaves.
    case_decide; done.
  - pose proof (queue_declare_agreed b Fulfillment.fulfillment_queue Hf) as E1.
    set (b1 := Amqp.mkBroker _ _ _) in E1.
    pose proof (exchange_declare_agreed b1 Fulfillment.game_events Hx) as E2.
    set (b2 := Amqp.mkBroker _ _ _) in E2.
    unfold start, Fulfillment.main. unfold_main.
    cbn [Fulfillment.dial Fulfillment.channel_err Fulfillment.consume_err].
    change (Fulfillment.connect 120 at_once 0 None)
      with ([Try Rabbit; Print "Connected to RabbitMQ"], @None string).
    cbv beta iota. rewrite E1. cbv beta iota. rewrite E2. cbv beta iota.
    unfold Amqp.declare. cbn [Amqp.bQueue Amqp.bExchange Amqp.bKey Amqp.qName
      Fulfillment.fulfillment_queue].
    subst b2 b1. cbn [Amqp.queues Amqp.exchanges Amqp.bindings Amqp.qName Amqp.xName
      Fulfillment.fulfillment_queue Fulfillment.game_events].
    rewrite !lookup_insert_eq. unfold worker_leaves.
    case_decide; done.
Qed.

Lemma start_provisioned ps p b :
  provisioned ps b → provisioned (ps ++ [p])%list (state_of (start p b)).
Proof.
  intros (Ha & Hnd & Hb & Hx).
  split; [by apply start_agreed|].
  rewrite (start_leaves p b Ha).
  assert (Hp : ∀ q : program, q ∈ (ps ++ [p])%list ↔ q ∈ ps ∨ q = p).
  { intros q. rewrite elem_of_app, list_elem_of_singleton. done. }
  unfold email_binding, fulfillment_binding in *.
  destruct p; unfold worker_leaves; cbn [Amqp.bindings Amqp.exchanges].
  - split; [done|]. split.
    + intros e. rewrite Hb, !Hp. intuition (subst; first [discriminate | done | auto]).
    + rewrite Hx, !Hp. intuition (subst; first [discriminate | done | auto]).
  - split_and!.
    + case_decide; [done|]. apply NoDup_app. split_and!; [done| |apply NoDup_singleton].
      intros e He ->%list_elem_of_singleton. done.
    + intros e. rewrite !Hp. case_decide as Hin.
      * rewrite Hb. apply Hb in Hin. intuition (subst; first [discriminate | done | auto]).
      * rewrite elem_of_app, list_elem_of_singleton, Hb. intuition (subst; first [discriminate | done | auto]).
    + rewrite lookup_insert_eq, !Hp. split; [auto | by eexists].
  - split_and!.
    + case_decide; [done|]. apply NoDup_app. split_and!; [done| |apply NoDup_singleton].
      intros e He ->%list_elem_of_singleton. done.
    + intros e. rewrite !Hp. case_decide as Hin.
      * rewrite Hb. apply Hb in Hin. intuition (subst; first [discriminate | done | auto]).
      * rewrite elem_of_app, list_elem_of_singleton, Hb. intuition (subst; first [discriminate | done | auto]).
    + rewrite lookup_insert_eq, !Hp. split; [auto | by eexists].
Qed.

Lemma started_snoc ps p b : started (ps ++ [p])%list b = state_of (start p (started ps b)).
Proof. unfold started. by rewrite fold_left_app. Qed.

Lemma started_provisioned ps : provisioned ps (started ps Amqp.fresh).
Proof.
  induction ps as [|p ps IH] using rev_ind.
  - split; [apply fresh_agreed|]. cbn. split_and!.
    + apply NoDup_nil_2.
    + intros e. split; [by intros ?%elem_of_nil|]. intros [[_ H]|[_ H]]; by apply elem_of_nil in H.
    + split; [by intros [? ?] | intros [H|H]; by apply elem_of_nil in H].
  - rewrite started_snoc. by apply start_provisioned.
Qed.

Lemma routed_queues (bs : list (string * string * string)) :
  (∀ e, e ∈ bs → e.2 = "game_events") →
  omap (λ e : string * string * string,
          if decide (e.2 = "game_events") then Some e.1.1 else None) bs
  = map (λ e, e.1.1) bs.
Proof.
  induction bs as [|e bs IH]; intros H; [done|]. cbn.
  rewrite decide_True by (apply H; by left).
  f_equal. apply IH. intros e' He'. apply H. by right.
Qed.

(** X11: where the broker routes an event of the backend, after the three
    programs were started in any order and any number of times against a
    broker that was empty at first. As long as no worker has started the
    exchange does not exist and the event goes nowhere; afterwards it goes
    to the queue of each worker that has started, once, and to no other
    queue: the start of the backend alone gives the e-mail service
    nothing. *)
Theorem X11_events_reach_the_started_workers (ps : list program) :
  match Amqp.route (started ps Amqp.fresh) "game_events" "" with
  | None => (EmailService ∉ ps) ∧ (FulfillmentService ∉ ps)
  | Some queues =>
      (EmailService ∈ ps ∨ FulfillmentService ∈ ps) ∧
      NoDup queues ∧
      ∀ q, q ∈ queues ↔ (q = "email_queue" ∧ EmailService ∈ ps) ∨
                        (q = "fulfillment_queue" ∧ FulfillmentService ∈ ps)
  end.
Proof.
  destruct (started_provisioned ps) as (_ & Hnd & Hb & Hx).
  unfold Amqp.route. rewrite decide_False by done.
  destruct (Amqp.exchanges (started ps Amqp.fresh) !! "game_events") as [a|] eqn:E.
  - split; [apply Hx; by eexists|].
    rewrite routed_queues.
    2:{ intros e He. apply Hb in He as [[-> _]|[-> _]]; done. }
    split.
    + apply NoDup_fmap_2_strong; [|done].
      intros e1 e2 H1 H2. apply Hb in H1 as [[-> _]|[-> _]], H2 as [[-> _]|[-> _]]; done.
    + intros q. rewrite list_elem_of_fmap. split.
      * intros (e & -> & He). apply Hb in He as [[-> ?]|[-> ?]]; auto.
      * intros [[-> H]|[-> H]].
        -- exists email_binding. split; [done|]. apply Hb. auto.
        -- exists fulfillment_binding. split; [done|]. apply Hb. auto.
  - split; intros H; destruct (proj2 Hx) as [? ?]; auto; done.
Qed.
(** ** The order of the log *)









(** A message that is left out: the log holds [a] and [b], the reader
    fetches [a] and fails to commit it, and the loop is handed [b] only. *)
Lemma kafka_lost_message :
  let loop := KafkaEmail.loop (KafkaEmail.config "kafka:9092") in
  pulled (KafkaEmail.trace
            (run loop (KafkaEmail.init [])
               [KafkaEmail.Join; KafkaEmail.Publish "a"; KafkaEmail.Publish "b";
                KafkaEmail.Go KafkaEmail.Deliver;
                KafkaEmail.Go (KafkaEmail.Lose false "committing message: context deadline exceeded");
                KafkaEmail.Go KafkaEmail.Deliver; KafkaEmail.Go KafkaEmail.Deliver]))
  = [(1, "b")].
Proof. reflexivity. Qed.
(** ** No message is lost *)

Lemma ids_delete id rs i :
  In i (ids (filter (λ m, Pgmq.has id m = false) rs)) ↔ In i (ids rs) ∧ i ≠ id.
Proof.
  unfold ids. rewrite !in_map_iff. split.
  - intros (m & <- & H). apply list_elem_of_In, list_elem_of_filter in H as [Hh H].
    split; [exists m; split; [done | by apply list_elem_of_In]|].
    unfold Pgmq.has in Hh. lia.
  - intros [(m & <- & H) Hne]. exists m. split; [done|].
    apply list_elem_of_In, list_elem_of_filter. split; [|by apply list_elem_of_In].
    unfold Pgmq.has. lia.
Qed.

Lemma ids_moved id rs i :
  In i (ids (filter (λ m, Pgmq.has id m = true) rs)) ↔ In i (ids rs) ∧ i = id.
Proof.
  unfold ids. rewrite !in_map_iff. split.
  - intros (m & <- & H). apply list_elem_of_In, list_elem_of_filter in H as [Hh H].
    split; [exists m; split; [done | by apply list_elem_of_In]|].
    unfold Pgmq.has in Hh. lia.
  - intros [(m & <- & H) He]. exists m. split; [done|].
    apply list_elem_of_In, list_elem_of_filter. split; [|by apply list_elem_of_In].
    unfold Pgmq.has. lia.
Qed.

Lemma accounted_quiet s s' ext :
  PgmqEmail.db s' = PgmqEmail.db s →
  PgmqEmail.trace s' = (PgmqEmail.trace s ++ ext)%list →
  (∀ m ev, PgmqEmail.at_pc s' = PgmqEmail.Working m ev →
           PgmqEmail.at_pc s = PgmqEmail.Working m ev) →
  accounted s → accounted s'.
Proof.
  intros Hdb Htr Hpc (H1 & H2 & H3 & H4). unfold accounted. rewrite Hdb, Htr.
  split_and!; [done| | |].
  - intros id Hid. destruct (H2 id Hid) as [?|[?|?]]; auto.
    right. right. apply in_or_app. by left.
  - intros id Hid. apply in_or_app. left. by apply H3.
  - intros m ev Hat. eapply H4, Hpc, Hat.
Qed.

Ltac pgmq_quiet s :=
  eapply (accounted_quiet s);
  [ reflexivity
  | first [reflexivity | exact (eq_sym (app_nil_r _))]
  | cbn [PgmqEmail.at_pc]; intros; congruence
  | done ].

Lemma pgmq_step_accounted Unmarshal s t :
  accounted s → accounted (PgmqEmail.step Unmarshal s t).
Proof.
  intros Hs. unfold PgmqEmail.step.
  destruct (PgmqEmail.at_pc s) eqn:Hat0; [| | | |done].
  all: destruct t as [payload now|now w| |].
  (* a send: the new row takes the next id *)
  all: try (destruct Hs as (H1 & H2 & H3 & H4); unfold accounted;
            cbn [PgmqEmail.db PgmqEmail.trace PgmqEmail.at_pc Pgmq.send fst
                 Pgmq.rows Pgmq.archived Pgmq.next_id];
            unfold ids in *; rewrite map_app; cbn [map Pgmq.MsgID];
            split_and!; [lia | | done |];
            [ intros id Hid; rewrite in_app_iff; cbn [In];
              destruct (decide (id = Pgmq.next_id (PgmqEmail.db s))) as [->|Hne];
              [by auto|]; destruct (H2 id) as [?|[?|?]]; [lia|auto..]
            | intros m' ev Hw; rewrite in_app_iff; left;
              first [ discriminate Hw
                    | injection Hw as <- <-; eapply H4; exact Hat0 ] ]; fail).
  (* the signal and the end of [main] *)
  all: try (destruct (PgmqEmail.leaving s); first [done | pgmq_quiet s]; fail).
  all: unfold PgmqEmail.go; rewrite Hat0.
  - (* at the select *)
    destruct (PgmqEmail.cancelled s).
    { pgmq_quiet s. }
    destruct (PgmqEmail.read_fault w).
    { pgmq_quiet s. }
    destruct (Pgmq.read (PgmqEmail.db s) now 30) as [[message q]|] eqn:Hread.
    2:{ pgmq_quiet s. }
    destruct (read_ids _ _ _ _ _ Hread) as (Hin & Hids & Hnext & Harch).
    destruct Hs as (H1 & H2 & H3 & H4). cbv zeta.
    destruct (Unmarshal (Pgmq.Payload message)) as [gameEvent|e].
    + unfold accounted. cbn [PgmqEmail.db PgmqEmail.trace PgmqEmail.at_pc].
      unfold ids in *. rewrite Hids, Hnext, Harch. split_and!; [done| | |].
      * intros id Hid. destruct (H2 id Hid) as [?|[?|?]]; auto.
        right. right. apply in_or_app. by left.
      * intros id Hid. apply in_or_app. left. by apply H3.
      * by intros m ev [= <- <-].
    + unfold accounted. cbn [PgmqEmail.db PgmqEmail.trace PgmqEmail.at_pc].
      destruct (PgmqEmail.delete_fault w);
        cbn [Pgmq.delete fst Pgmq.rows Pgmq.archived Pgmq.next_id];
        rewrite ?Hnext, ?Harch; (split_and!; [done| | |done]).
      * intros id Hid. unfold ids in *. rewrite Hids.
        destruct (H2 id Hid) as [?|[?|?]]; auto.
        right. right. apply in_or_app. by left.
      * intros id Hid. apply in_or_app. left. by apply H3.
      * intros id Hid. rewrite ids_delete. unfold ids in *. rewrite Hids.
        destruct (decide (id = Pgmq.MsgID message)) as [->|Hne].
        -- right. right. rewrite !in_app_iff. cbn. auto 10.
        -- destruct (H2 id Hid) as [?|[?|?]]; auto.
           right. right. apply in_or_app. by left.
      * intros id Hid. apply in_or_app. left. by apply H3.
  - (* in the sleep after an empty read *)
    pgmq_quiet s.
  - (* at the end of the work *)
    cbv zeta. destruct (PgmqEmail.archive_fault w).
    { pgmq_quiet s. }
    destruct Hs as (H1 & H2 & H3 & H4).
    destruct (Pgmq.archive (PgmqEmail.db s) (Pgmq.MsgID m)) as [q ok] eqn:Ha.
    unfold Pgmq.archive in Ha. injection Ha as <- _.
    unfold accounted. cbn [PgmqEmail.db PgmqEmail.trace PgmqEmail.at_pc
                           Pgmq.rows Pgmq.archived Pgmq.next_id].
    split_and!; [done| | |done].
    + intros id Hid. rewrite ids_delete. unfold ids at 2. rewrite map_app, in_app_iff.
      fold (ids (Pgmq.archived (PgmqEmail.db s))).
      fold (ids (filter (λ m0, Pgmq.has (Pgmq.MsgID m) m0 = true)
                   (Pgmq.rows (PgmqEmail.db s)))).
      rewrite ids_moved.
      destruct (H2 id Hid) as [?|[?|?]].
      * destruct (decide (id = Pgmq.MsgID m)); auto.
      * auto.
      * right. right. apply in_or_app. by left.
    + intros id. unfold ids at 1. rewrite map_app, in_app_iff.
      fold (ids (Pgmq.archived (PgmqEmail.db s))).
      fold (ids (filter (λ m0, Pgmq.has (Pgmq.MsgID m) m0 = true)
                   (Pgmq.rows (PgmqEmail.db s)))).
      rewrite ids_moved. intros [Hid|[_ ->]].
      * apply in_or_app. left. by apply H3.
      * apply in_or_app. right. apply in_or_app. left. cbn. auto.
  - done.
Qed.

Lemma pgmq_run_accounted Unmarshal ticks :
  accounted (run (PgmqEmail.loop Unmarshal) (PgmqEmail.init Pgmq.empty) ticks).
Proof.
  apply (run_invariant (PgmqEmail.loop Unmarshal) accounted).
  - intros s t. apply pgmq_step_accounted.
  - unfold accounted. cbn. split_and!; [lia | intros; lia | by intros ? [] | done].
Qed.

(** X13: the worker of the polling variant loses no message, whatever
    fails and wherever it is stopped. Every id the queue has given out is
    still in the queue, or in the archive, or the worker has called
    [pgmq.delete] on it; and a message is in the archive only after the
    work on it has come to its end. *)
Theorem X13_no_message_is_lost
    (Unmarshal : string → PgmqEmail.GameEvent + string) (ticks : list PgmqEmail.tick) :
  let s := run (PgmqEmail.loop Unmarshal) (PgmqEmail.init Pgmq.empty) ticks in
  let q := PgmqEmail.db s in
  (∀ id, 1 ≤ id < Pgmq.next_id q →
         In id (ids (Pgmq.rows q)) ∨ In id (ids (Pgmq.archived q)) ∨
         In (Delete id) (PgmqEmail.trace s)) ∧
  (∀ id, In id (ids (Pgmq.archived q)) → In (Processed id) (PgmqEmail.trace s)).
Proof.
  intros s q. destruct (pgmq_run_accounted Unmarshal ticks) as (_ & H2 & H3 & _).
  by split.
Qed.

(** X14: what the end of the work does with the message. The worker calls
    [pgmq.archive] after its sleep. When the statement goes through, the
    message has moved from the queue to the archive and no later pull
    hands it over again; when it fails, the queue is as it was, the
    message still in it: it will be read, and the e-mail sent, once more. *)
Theorem X14_archive_settles_the_message
    (Unmarshal : string → PgmqEmail.GameEvent + string)
    (ticks0 : list PgmqEmail.tick) (now : Z) (w : PgmqEmail.faults)
    (m : Pgmq.Message) (ev : PgmqEmail.GameEvent) :
  let loop := PgmqEmail.loop Unmarshal in
  let s := run loop (PgmqEmail.init Pgmq.empty) ticks0 in
  let id := Pgmq.MsgID m in
  let s' := step loop s (PgmqEmail.Go now w) in
  PgmqEmail.at_pc s = PgmqEmail.Working m ev →
  In (Processed id) (PgmqEmail.trace s') ∧
  match PgmqEmail.archive_fault w with
  | None =>
      In id (ids (Pgmq.archived (PgmqEmail.db s'))) ∧
      ¬ In id (ids (Pgmq.rows (PgmqEmail.db s'))) ∧
      ∀ ticks, ∃ ext,
        PgmqEmail.trace (run loop s' ticks) = (PgmqEmail.trace s' ++ ext)%list ∧
        ∀ body, ¬ In (Pull id body) ext
  | Some _ =>
      PgmqEmail.db s' = PgmqEmail.db s ∧ In id (ids (Pgmq.rows (PgmqEmail.db s')))
  end.
Proof.
  intros loop s.
  assert (Hfresh : fresh_ids (PgmqEmail.db s)) by apply pgmq_run_fresh.
  assert (Hheld : ∀ m ev, PgmqEmail.at_pc s = PgmqEmail.Working m ev →
                          In (Pgmq.MsgID m) (ids (Pgmq.rows (PgmqEmail.db s))))
    by apply (pgmq_run_accounted Unmarshal ticks0).
  clearbody s. intros id s' Hat. specialize (Hheld m ev Hat). fold id in Hheld.
  unfold s', loop. cbn [step PgmqEmail.loop]. unfold PgmqEmail.step, PgmqEmail.go.
  rewrite Hat. cbv zeta. fold id.
  destruct (PgmqEmail.archive_fault w) as [e|].
  - cbn [PgmqEmail.trace PgmqEmail.db]. split; [|done].
    rewrite !in_app_iff. cbn. auto 10.
  - destruct (Pgmq.archive (PgmqEmail.db s) id) as [q ok] eqn:Ha.
    unfold Pgmq.archive in Ha. injection Ha as <- _.
    cbn [PgmqEmail.trace PgmqEmail.db Pgmq.rows Pgmq.archived].
    split; [rewrite !in_app_iff; cbn; auto 10|].
    split_and!.
    + unfold ids at 1. rewrite map_app, in_app_iff. right.
      apply (proj2 (ids_moved id _ id)). by split.
    + apply removed_ids.
    + intros ticks. apply pgmq_run_gone. split; [|done].
      cbn [PgmqEmail.db]. split; [|apply removed_ids].
      cbn [Pgmq.next_id]. by apply Hfresh.
Qed.

(** X14, on an example: one message, read and worked on by a healthy
    worker. *)
Lemma X14_archive_settles_the_message_witness :
  let loop := PgmqEmail.loop unmarshal_demo in
  let s' := run loop (PgmqEmail.init Pgmq.empty)
              [PgmqEmail.Enqueue "{}" 0; PgmqEmail.Go 0 PgmqEmail.healthy;
               PgmqEmail.Go 1 PgmqEmail.healthy] in
  In 1 (ids (Pgmq.archived (PgmqEmail.db s'))) ∧
  ¬ In 1 (ids (Pgmq.rows (PgmqEmail.db s'))).
Proof.
  cbv zeta.
  destruct (X14_archive_settles_the_message unmarshal_demo
              [PgmqEmail.Enqueue "{}" 0; PgmqEmail.Go 0 PgmqEmail.healthy]
              1 PgmqEmail.healthy (Pgmq.mkMessage 1 1 0 30 "{}")
              (PgmqEmail.mkGameEvent 7 "Zelda" "..." 5) eq_refl)
    as (_ & H1 & H2 & _).
  split; [exact H1 | exact H2].
Defined.
(** ** Start-up: the first success ends the wait *)

Lemma first_success_shift answer n k :
  first_success (λ j, answer (k + j)%nat) (S n) →
  answer k ≠ None ∧ first_success (λ j, answer (S k + j)%nat) n.
Proof.
  intros [Hf Hs]. split.
  - specialize (Hf 0%nat). rewrite Nat.add_0_r in Hf. apply Hf. lia.
  - split.
    + intros j Hj. specialize (Hf (S j)). rewrite Nat.add_succ_r in Hf. apply Hf. lia.
    + by rewrite Nat.add_succ_r in Hs.
Qed.

Lemma wait_for_database_stops n rounds ping k :
  (n < rounds)%nat → first_success (λ j, ping (k + j)%nat) n →
  let t := wait_for_database rounds ping k in
  tries Database t = S n ∧ slept t = 250 * Z.of_nat n ∧
  last t = Some (Print "Connected to database").
Proof.
  revert rounds k. induction n as [|n IH]; intros rounds k Hn Hf;
    (destruct rounds as [|r]; [lia|]); cbn [wait_for_database].
  - destruct Hf as [_ Hs]. rewrite Nat.add_0_r in Hs. by rewrite Hs.
  - apply first_success_shift in Hf as [Hk Hf].
    destruct (ping k) as [e|]; [|done].
    destruct (IH r (S k)) as (H1 & H2 & H3); [lia|done|].
    split_and!.
    + rewrite !tries_cons. cbn. by rewrite H1.
    + cbn [slept fold_right]. fold (slept (wait_for_database r ping (S k))). lia.
    + rewrite !last_cons, H3. done.
Qed.

Lemma dial_loop_stops n rounds dial k :
  (n < rounds)%nat → first_success (λ j, dial (k + j)%nat) n →
  let r := RabbitBackend.dial_loop rounds dial k in
  tries Rabbit r.1 = S n ∧ slept r.1 = 250 * Z.of_nat n ∧ r.2 = true.
Proof.
  revert rounds k. induction n as [|n IH]; intros rounds k Hn Hf;
    (destruct rounds as [|r]; [lia|]); cbn [RabbitBackend.dial_loop].
  - destruct Hf as [_ Hs]. rewrite Nat.add_0_r in Hs. by rewrite Hs.
  - apply first_success_shift in Hf as [Hk Hf].
    destruct (dial k) as [e|]; [|done].
    destruct (IH r (S k)) as (H1 & H2 & H3); [lia|done|].
    destruct (RabbitBackend.dial_loop r dial (S k)) as [t conn]. cbn [fst snd] in *.
    split_and!; [| |done].
    + rewrite !tries_cons. cbn. by rewrite H1.
    + cbn [slept fold_right]. fold (slept t). lia.
Qed.

Lemma Fulfillment_connect_stops n rounds dial i err :
  (n < rounds)%nat → first_success (λ j, dial (i + j)%nat) n →
  let r := Fulfillment.connect rounds dial i err in
  tries Rabbit r.1 = S n ∧ slept r.1 = 250 * Z.of_nat n ∧ r.2 = None.
Proof.
  revert rounds i err. induction n as [|n IH]; intros rounds i err Hn Hf;
    (destruct rounds as [|r]; [lia|]); cbn [Fulfillment.connect].
  - destruct Hf as [_ Hs]. rewrite Nat.add_0_r in Hs. by rewrite Hs.
  - apply first_success_shift in Hf as [Hk Hf].
    destruct (dial i) as [e|]; [|done].
    destruct (IH r (S i) (Some e)) as (H1 & H2 & H3); [lia|done|].
    destruct (Fulfillment.connect r dial (S i) (Some e)) as [t err']. cbn [fst snd] in *.
    split_and!; [| |done].
    + rewrite !tries_cons. cbn. by rewrite H1.
    + cbn [slept fold_right]. fold (slept t). lia.
Qed.

Lemma ZeroEmail_connect_stops n rounds addr answer i err :
  (n < rounds)%nat → first_success (λ j, answer (i + j)%nat) n →
  let r := ZeroEmail.connect rounds addr answer i err in
  tries Publisher r.1 = S n ∧ slept r.1 = 250 * Z.of_nat n ∧ r.2 = None.
Proof.
  revert rounds i err. induction n as [|n IH]; intros rounds i err Hn Hf;
    (destruct rounds as [|r]; [lia|]); cbn [ZeroEmail.connect].
  - destruct Hf as [_ Hs]. rewrite Nat.add_0_r in Hs. by rewrite Hs.
  - apply first_success_shift in Hf as [Hk Hf].
    destruct (answer i) as [e|]; [|done].
    destruct (IH r (S i) (Some e)) as (H1 & H2 & H3); [lia|done|].
    destruct (ZeroEmail.connect r addr answer (S i) (Some e)) as [t err']. cbn [fst snd] in *.
    split_and!; [| |done].
    + rewrite !tries_cons. cbn. by rewrite H1.
    + cbn [slept fold_right]. fold (slept t). lia.
Qed.

Lemma RabbitEmail_redial_stops n rounds dial k e :
  (n < rounds)%nat → first_success (λ j, dial (k + j)%nat) n →
  let r := RabbitEmail.redial rounds dial k (Some e) in
  tries Rabbit r.1 = S n ∧ slept r.1 = 250 * Z.of_nat (S n) ∧ r.2 = None.
Proof.
  revert rounds k e. induction n as [|n IH]; intros rounds k e Hn Hf;
    (destruct rounds as [|r]; [lia|]); cbn [RabbitEmail.redial].
  - destruct Hf as [_ Hs]. rewrite Nat.add_0_r in Hs. rewrite Hs.
    destruct r; cbn; done.
  - apply first_success_shift in Hf as [Hk Hf].
    destruct (dial k) as [e'|]; [|done].
    destruct (IH r (S k) e') as (H1 & H2 & H3); [lia|done|].
    destruct (RabbitEmail.redial r dial (S k) (Some e')) as [t err']. cbn [fst snd] in *.
    split_and!; [| |done].
    + rewrite !tries_cons. cbn. by rewrite H1.
    + cbn [slept fold_right]. fold (slept t). lia.
Qed.

(** X15: the loops of the start-ups stop at the first success. When the
    first [n] attempts fail and the next one goes through, with [n] below
    120, the wait for the database, the dial loops of the backend and of
    the fulfillment service of the broadcast variant and the connect loop
    of the worker of the socket variant make [n + 1] attempts and sleep
    [n] times 250ms, no more, and leave the connection set. So does the
    e-mail service of the broadcast variant, whose first dial comes before
    its loop. *)
Theorem X15_retry_stops_at_the_first_success
    (answer : nat → error) (n : nat) (addr : string) (err : error) :
  (n < 120)%nat →
  first_success answer n →
  (let t := wait_for_database 120 answer 0 in
   tries Database t = S n ∧ slept t = 250 * Z.of_nat n ∧
   last t = Some (Print "Connected to database")) ∧
  (let r := RabbitBackend.dial_loop 120 answer 0 in
   tries Rabbit r.1 = S n ∧ slept r.1 = 250 * Z.of_nat n ∧ r.2 = true) ∧
  (let r := Fulfillment.connect 120 answer 0 err in
   tries Rabbit r.1 = S n ∧ slept r.1 = 250 * Z.of_nat n ∧ r.2 = None) ∧
  (let r := ZeroEmail.connect 120 addr answer 0 err in
   tries Publisher r.1 = S n ∧ slept r.1 = 250 * Z.of_nat n ∧ r.2 = None) ∧
  (let r := RabbitEmail.redial 120 answer 1 (answer 0%nat) in
   tries Rabbit (Try Rabbit :: r.1) = S n ∧ slept r.1 = 250 * Z.of_nat n ∧ r.2 = None).
Proof.
  intros Hn Hf. split_and!.
  - by apply wait_for_database_stops.
  - by apply dial_loop_stops.
  - by apply Fulfillment_connect_stops.
  - by apply ZeroEmail_connect_stops.
  - destruct n as [|n].
    + destruct Hf as [_ ->]. done.
    + apply (first_success_shift answer n 0) in Hf as [H0 Hf].
      destruct (answer 0%nat) as [e|] eqn:E0; [|done].
      destruct (RabbitEmail_redial_stops n 120 answer 1 e) as (H1 & H2 & H3); [lia|done|].
      cbv zeta. rewrite tries_cons. cbn [is_try]. rewrite bool_decide_eq_true_2 by done.
      by rewrite H1, H2, H3.
Qed.

(** X15, on an example: two refusals, then a success. *)
Lemma X15_retry_stops_at_the_first_success_witness :
  slept (wait_for_database 120 third_time 0) = 500 ∧
  tries Rabbit (Fulfillment.connect 120 third_time 0 None).1 = 3%nat.
Proof.
  destruct (X15_retry_stops_at_the_first_success third_time 2 "tcp://backend:5557" None)
    as ((_ & H1 & _) & _ & (H2 & _) & _).
  - lia.
  - split; [|reflexivity]. intros j Hj. destruct j as [|[|j]]; [done|done|lia].
  - split; [exact H1 | exact H2].
Defined.
(** ** The page and the table *)

Lemma sorted_by_id_unique (l1 l2 : list Game) :
  StronglySorted (λ a b, ID a < ID b) l1 →
  StronglySorted (λ a b, ID a < ID b) l2 →
  (∀ g, g ∈ l1 ↔ g ∈ l2) → l1 = l2.
Proof.
  intros H1. revert l2. induction H1 as [|a1 l1 Hs1 IH Hall1]; intros l2 H2 Heq.
  - destruct l2 as [|a2 l2]; [done|].
    exfalso. apply (not_elem_of_nil a2). apply Heq. by left.
  - destruct H2 as [|a2 l2 Hs2 Hall2].
    { exfalso. apply (not_elem_of_nil a1). apply Heq. by left. }
    rewrite Forall_forall in Hall1, Hall2.
    assert (a1 = a2) as <-.
    { assert (Ha1 : a1 ∈ a2 :: l2) by (apply Heq; by left).
      assert (Ha2 : a2 ∈ a1 :: l1) by (apply Heq; by left).
      apply elem_of_cons in Ha1 as [?|Ha1]; [done|].
      apply elem_of_cons in Ha2 as [?|Ha2]; [done|].
      specialize (Hall1 _ Ha2). specialize (Hall2 _ Ha1). lia. }
    f_equal. apply IH; [done|].
    intros g. split; intros Hg.
    + assert (Hin : g ∈ a1 :: l2) by (apply Heq; by right).
      apply elem_of_cons in Hin as [->|?]; [|done].
      specialize (Hall1 _ Hg). lia.
    + assert (Hin : g ∈ a1 :: l1) by (apply Heq; by right).
      apply elem_of_cons in Hin as [->|?]; [|done].
      specialize (Hall2 _ Hg). lia.
Qed.

Lemma star_found_ids gameId l : map ID (Vue.star_found gameId l) = map ID l.
Proof.
  induction l as [|g l IH]; [done|]. cbn. destruct (ID g =? gameId); cbn; by rewrite ?IH.
Qed.

Lemma sorted_by_ids (l1 l2 : list Game) :
  map ID l1 = map ID l2 →
  StronglySorted (λ a b, ID a < ID b) l1 → StronglySorted (λ a b, ID a < ID b) l2.
Proof.
  intros Hids H1. revert l2 Hids.
  induction H1 as [|a l1 Hs IH Hall]; intros l2 Hids; destruct l2 as [|b l2]; try done.
  { constructor. }
  cbn in Hids. injection Hids as Hab Hids. constructor; [by apply IH|].
  rewrite <- Hab. apply Forall_forall. intros g Hg.
  assert (Hin : ID g ∈ map ID l1).
  { rewrite Hids. apply list_elem_of_fmap. by exists g. }
  apply list_elem_of_fmap in Hin as (g' & -> & Hg').
  rewrite Forall_forall in Hall. by apply Hall.
Qed.

Lemma star_found_elem gameId l g :
  StronglySorted (λ a b, ID a < ID b) l →
  g ∈ Vue.star_found gameId l ↔
  (g ∈ l ∧ ID g ≠ gameId) ∨
  (ID g = gameId ∧ mkGame (ID g) (Title g) (Description g) (Stars g - 1) ∈ l).
Proof.
  induction 1 as [|a l Hs IH Hall]; cbn.
  - split; [by intros ?%elem_of_nil|]. intros [[?%elem_of_nil _]|[_ ?%elem_of_nil]]; done.
  - rewrite Forall_forall in Hall. destruct (ID a =? gameId) eqn:E.
    + apply Z.eqb_eq in E. rewrite !elem_of_cons. split.
      * intros [->|Hg].
        -- right. cbn. split; [done|]. left. destruct a; cbn. f_equal. lia.
        -- left. split; [by right|]. specialize (Hall _ Hg). lia.
      * intros [[[->|Hg] Hne]|[He [Ha|Hg]]].
        -- done.
        -- by right.
        -- left. rewrite <- Ha. cbn. destruct g; cbn. f_equal. lia.
        -- specialize (Hall _ Hg). cbn in Hall. lia.
    + apply Z.eqb_neq in E. rewrite !elem_of_cons, IH. split.
      * intros [->|[[Hg Hne]|[He Hg]]]; [left; auto | left; auto | right; auto].
      * intros [[[->|Hg] Hne]|[He [Ha|Hg]]]; [auto | auto | | auto].
        rewrite <- Ha in E. cbn in E. done.
Qed.

Lemma star_found_listing (table : gmap Z Row) (id : Z) (row : Row) :
  table !! id = Some row →
  Vue.star_found id (Catalogue.select_games table)
  = Catalogue.select_games (<[id := mkRow (title row) (description row) (stars row + 1)]> table).
Proof.
  intros Hrow. apply sorted_by_id_unique.
  - eapply sorted_by_ids; [symmetry; apply star_found_ids | apply select_games_sorted].
  - apply select_games_sorted.
  - intros g. rewrite star_found_elem by apply select_games_sorted.
    rewrite !select_games_elem. cbn [ID Title Description Stars].
    destruct (decide (ID g = id)) as [<-|Hne].
    + rewrite Hrow. rewrite (lookup_insert_eq table (ID g)). split.
      * intros [[_ ?]|[_ [= ->]]]; [done|]. cbn. do 2 f_equal. lia.
      * intros [= Ht Hd Hst]. right. split; [done|]. destruct row; cbn in *.
        do 2 f_equal; [done..|lia].
    + rewrite lookup_insert_ne by done. split; [intros [[? _]|[? _]] | intros ?; left]; done.
Qed.

Lemma star_request_path (id : Z) :
  Vue.star_request id = mkRequest "POST" ("/api/games/" +:+ Go.itoa id +:+ "/star").
Proof. reflexivity. Qed.

Lemma safe_int (n : Z) : Vue.safe n → Go.min_int ≤ n ≤ Go.max_int.
Proof. unfold Vue.safe, Go.min_int, Go.max_int. lia. Qed.

Lemma click_follows {M} (escape : string → string) (table : gmap Z Row) (d : Vue.data)
    (id : Z) (row : Row) (fault : error) (h : handled M) :
  shows d table → table !! id = Some row → Go.min_int ≤ id ≤ Go.max_int →
  (games_after h, response h)
  = outcome escape table (add_star table fault (Vue.star_request id)) →
  shows (clicked d id h) (games_after h).
Proof.
  unfold shows, clicked, answered. intros Hd Hrow Hid.
  rewrite star_request_path, add_star_on_star_path by done.
  unfold update_stars. destruct fault as [e|].
  - cbn [outcome]. by intros [= -> ->].
  - rewrite Hrow. cbn [outcome write_game]. intros [= -> ->].
    cbn [Vue.addStar Vue.ok Status fst Vue.games]. cbn. rewrite Hd.
    by apply star_found_listing.
Qed.

(** X16: the page goes on showing the table. When the page shows the
    listing of the table and the star of one of its games is clicked,
    then, whatever the backend of the four and whatever fails on its side,
    the page shows the listing of the table as the request has left it:
    the star counted on the page is the star stored, and a request that
    failed has changed neither. The ids and star counts are integers a
    JavaScript number holds exactly. *)
Theorem X16_page_keeps_showing_the_table
    (escape : string → string) (table : gmap Z Row) (d : Vue.data) (g : Game) :
  shows d table →
  g ∈ Vue.games d →
  Vue.safe (ID g) →
  Vue.safe (Stars g + 1) →
  let r := Vue.star_request (ID g) in
  (∀ env, let h := RabbitBackend.handleGameActions escape true table env r in
          shows (clicked d (ID g) h) (games_after h)) ∧
  (∀ env, let h := PgmqBackend.handleGameActions escape table env r in
          shows (clicked d (ID g) h) (games_after h)) ∧
  (∀ env, let h := KafkaBackend.handleGameActions escape table env r in
          shows (clicked d (ID g) h) (games_after h)) ∧
  (∀ env, let h := ZeroBackend.handleGameActions escape table env r in
          shows (clicked d (ID g) h) (games_after h)).
Proof.
  intros Hd Hg Hid _ r.
  assert (Hrow : table !! ID g = Some (mkRow (Title g) (Description g) (Stars g))).
  { apply select_games_elem. by rewrite <- Hd. }
  apply safe_int in Hid.
  destruct (handlers_outcome escape table r) as (H1 & H2 & H3 & H4).
  split_and!; intros env h.
  - by eapply click_follows, H1.
  - by eapply click_follows, H2.
  - by eapply click_follows, H3.
  - by eapply click_follows, H4.
Qed.

(** X16, on an example: the page shows the demo table and the star of
    game 7 is clicked. *)
Lemma X16_page_keeps_showing_the_table_witness :
  Vue.games
    (clicked (Vue.mkData [mkGame 7 "Zelda" "..." 4] (Vue.mkNewGame "" "") false None) 7
       (RabbitBackend.handleGameActions plain true demo_games
          (RabbitBackend.mkAnswers None None) (Vue.star_request 7)))
  = [mkGame 7 "Zelda" "..." 5].
Proof.
  pose proof (proj1 (X16_page_keeps_showing_the_table plain demo_games
                (Vue.mkData [mkGame 7 "Zelda" "..." 4] (Vue.mkNewGame "" "") false None)
                (mkGame 7 "Zelda" "..." 4)
                eq_refl ltac:(by left) ltac:(by vm_compute) ltac:(by vm_compute))
              (RabbitBackend.mkAnswers None None)) as H.
  exact H.
Defined.

(** X17: adding a game from the page. The form is posted and, when the
    answer is good, the list is fetched again. When the body decodes and
    the INSERT goes through, with a database that then answers the listing
    and a parser that reads the listing back, the page shows the table
    with the new game in it, without a star, the form is empty and nothing
    is alerted. When the body does not decode or the INSERT fails, the
    table, the list on the page and the form are as they were, and the
    failure is alerted. *)
Theorem X17_added_game_shows_on_the_page
    (Decode : string → Game + string) (json : string → list Game + string)
    (escape : string → string) (table : gmap Z Row)
    (env again : Catalogue.answers) (d : Vue.data) (body : string) :
  let posted := Catalogue.handleGames Decode escape table env
                  (mkRequest "POST" "/api/games") body in
  Catalogue.query_fault again = None →
  Catalogue.rows_end again = None →
  (∀ k, Catalogue.scan_fault again k = None) →
  json (Catalogue.encode_games escape (Catalogue.select_games posted.1))
    = inl (Catalogue.select_games posted.1) →
  let fetched := Catalogue.handleGames Decode escape posted.1 again
                   (mkRequest "GET" "/api/games") "" in
  let page := Vue.addGame json d (Vue.Got posted.2) (Vue.Got fetched.2) in
  match Decode body, Catalogue.insert_result env with
  | inl claimed, inl id =>
      shows page.1 posted.1 ∧
      mkGame id (Title claimed) (Description claimed) 0 ∈ Vue.games page.1 ∧
      Vue.newGame page.1 = Vue.mkNewGame "" "" ∧
      page.2 = []
  | _, _ =>
      posted.1 = table ∧ page.1 = d ∧
      page.2 = ["Error adding game: Failed to add game"]
  end.
Proof.
  intros posted Hq Hr Hs Hjson fetched page.
  destruct (Decode body) as [claimed|e] eqn:Hdec.
  - destruct (Catalogue.insert_result env) as [id|e] eqn:Hins.
    + assert (Hp : posted
                   = (<[id := mkRow (Title claimed) (Description claimed) 0]> table,
                      mkResponse 201 "application/json"
                        (fst (Marshal escape (mkGame id (Title claimed) (Description claimed) 0))
                         +:+ newline))).
      { unfold posted, Catalogue.handleGames. cbn [Method String.eqb Ascii.eqb Bool.eqb].
        by rewrite Hdec, Hins. }
      assert (Hf : fetched
                   = (posted.1, mkResponse 200 "application/json"
                                  (Catalogue.encode_games escape
                                     (Catalogue.select_games posted.1)))).
      { unfold fetched, Catalogue.handleGames. cbn [Method String.eqb Ascii.eqb Bool.eqb].
        by rewrite Hq, Hr, (scan_rows_healthy _ _ _ Hs). }
      assert (Hpage : page
                      = (Vue.mkData (Catalogue.select_games posted.1) (Vue.mkNewGame "" "")
                           false (Vue.error d), [])).
      { assert (Hp2 : posted.2 = mkResponse 201 "application/json"
                        (fst (Marshal escape (mkGame id (Title claimed) (Description claimed) 0))
                         +:+ newline)) by by rewrite Hp.
        unfold page, Vue.addGame, Vue.fetchGames. rewrite Hf, Hp2.
        cbn [fst snd Vue.ok Status Body]. cbn [Z.leb Z.compare Pos.compare Pos.compare_cont andb].
        by rewrite Hjson. }
      rewrite Hpage. cbn [fst snd Vue.games Vue.newGame]. unfold shows. cbn [Vue.games].
      split_and!; try done.
      apply select_games_elem. cbn [ID Title Description Stars]. rewrite Hp. cbn [fst].
      by rewrite lookup_insert_eq.
    + assert (Hp : posted = (table, http_Error e StatusInternalServerError)).
      { unfold posted, Catalogue.handleGames. cbn [Method String.eqb Ascii.eqb Bool.eqb].
        by rewrite Hdec, Hins. }
      unfold page. rewrite Hp. done.
  - assert (Hp : posted = (table, http_Error e StatusBadRequest)).
    { unfold posted, Catalogue.handleGames. cbn [Method String.eqb Ascii.eqb Bool.eqb].
      by rewrite Hdec. }
    unfold page. rewrite Hp. done.
Qed.

(** X17, on an example: a game is added to the demo table and gets the
    id 8. *)
Lemma X17_added_game_shows_on_the_page_witness :
  mkGame 8 "Metroid" "a game" 0
  ∈ Vue.games
      (Vue.addGame json_demo
         (Vue.mkData [mkGame 7 "Zelda" "..." 4] (Vue.mkNewGame "Metroid" "a game") false None)
         (Vue.Got (Catalogue.handleGames decode_demo plain demo_games (Catalogue.healthy 8)
                     (mkRequest "POST" "/api/games") "a game").2)
         (Vue.Got (Catalogue.handleGames decode_demo plain
                     (Catalogue.handleGames decode_demo plain demo_games (Catalogue.healthy 8)
                        (mkRequest "POST" "/api/games") "a game").1
                     (Catalogue.healthy 0) (mkRequest "GET" "/api/games") "").2)).1.
Proof.
  exact (proj1 (proj2
           (X17_added_game_shows_on_the_page decode_demo json_demo plain demo_games
              (Catalogue.healthy 8) (Catalogue.healthy 0)
              (Vue.mkData [mkGame 7 "Zelda" "..." 4] (Vue.mkNewGame "Metroid" "a game")
                 false None)
              "a game" eq_refl eq_refl (λ _, eq_refl) eq_refl))).
Defined.
(** ** The loop of the socket variant *)

Lemma started_on_app t1 t2 : started_on (t1 ++ t2) = (started_on t1 ++ started_on t2)%list.
Proof. apply omap_app. Qed.

Lemma sent_app t1 t2 : sent (t1 ++ t2) = (sent t1 + sent t2)%nat.
Proof. unfold sent. by rewrite List.filter_app, length_app. Qed.

Lemma pushed_app t1 t2 : pushed (t1 ++ t2) = (pushed t1 ++ pushed t2)%list.
Proof. apply omap_app. Qed.

Lemma started_on_processing message :
  started_on [Print ("📧 Processing email: " +:+ message)] = [message].
Proof. reflexivity. Qed.

Lemma started_on_error e : started_on [Print ("Error receiving message: " +:+ e)] = [].
Proof. reflexivity. Qed.

Lemma sent_processing message : sent [Print ("📧 Processing email: " +:+ message)] = 0%nat.
Proof. reflexivity. Qed.

Lemma sent_error e : sent [Print ("Error receiving message: " +:+ e)] = 0%nat.
Proof. reflexivity. Qed.

Lemma zero_step_counted s t : zero_counted s → zero_counted (ZeroLoop.step s t).
Proof.
  unfold zero_counted, ZeroLoop.step.
  destruct s as [pc inbox trace]. cbn [ZeroLoop.at_pc ZeroLoop.inbox ZeroLoop.trace].
  intros H.
  destruct pc, t as [m|[e|]|]; try destruct inbox;
    cbn [ZeroLoop.at_pc ZeroLoop.inbox ZeroLoop.trace];
    rewrite ?started_on_app, ?sent_app, ?length_app,
      ?started_on_processing, ?started_on_error, ?sent_processing, ?sent_error;
    cbn [length]; try done; try lia.
  all: change (sent [Nap 100; Print "✅ Email sent successfully"]) with 1%nat;
    change (started_on [Nap 100; Print "✅ Email sent successfully"]) with (@nil string);
    cbn [length]; lia.
Qed.

Lemma zero_run_killed ticks s :
  ZeroLoop.at_pc s = ZeroLoop.Killed → run ZeroLoop.loop s ticks = s.
Proof.
  intros Hk. induction ticks as [|t ticks IH]; [done|].
  change (run ZeroLoop.loop s (t :: ticks)) with (run ZeroLoop.loop (ZeroLoop.step s t) ticks).
  replace (ZeroLoop.step s t) with s; [done|].
  unfold ZeroLoop.step. by rewrite Hk.
Qed.

Lemma zero_step_charge s t :
  ZeroLoop.at_pc (ZeroLoop.step s t) ≠ ZeroLoop.Killed →
  (started_on (ZeroLoop.trace (ZeroLoop.step s t)) ++ ZeroLoop.inbox (ZeroLoop.step s t))%list
  = ((started_on (ZeroLoop.trace s) ++ ZeroLoop.inbox s) ++ pushed [t])%list.
Proof.
  unfold ZeroLoop.step.
  destruct s as [pc inbox trace]. cbn [ZeroLoop.at_pc ZeroLoop.inbox ZeroLoop.trace].
  intros Hk.
  destruct pc, t as [m|[e|]|]; try destruct inbox;
    cbn [ZeroLoop.at_pc ZeroLoop.inbox ZeroLoop.trace] in *;
    rewrite ?started_on_app, ?started_on_processing, ?started_on_error;
    cbn [pushed omap app]; rewrite <- ?app_assoc, ?app_nil_r; try done.
Qed.

Lemma zero_step_killed s t :
  ZeroLoop.at_pc (ZeroLoop.step s t) = ZeroLoop.Killed →
  ZeroLoop.trace (ZeroLoop.step s t) = ZeroLoop.trace s.
Proof.
  unfold ZeroLoop.step.
  repeat case_match; cbn [ZeroLoop.at_pc ZeroLoop.trace]; done.
Qed.

Lemma zero_run_charge ticks s :
  started_on (ZeroLoop.trace (run ZeroLoop.loop s ticks))
  `prefix_of` ((started_on (ZeroLoop.trace s) ++ ZeroLoop.inbox s) ++ pushed ticks)%list.
Proof.
  revert s. induction ticks as [|t ticks IH]; intros s.
  - cbn. rewrite app_nil_r. by apply prefix_app_r.
  - change (run ZeroLoop.loop s (t :: ticks))
      with (run ZeroLoop.loop (ZeroLoop.step s t) ticks).
    destruct (ZeroLoop.at_pc (ZeroLoop.step s t)) eqn:Hk.
    3:{ rewrite zero_run_killed, zero_step_killed by done.
        rewrite <- app_assoc. by apply prefix_app_r. }
    all: etrans; [apply IH|]; rewrite zero_step_charge by congruence;
      change (t :: ticks) with ([t] ++ ticks)%list; by rewrite pushed_app, <- !app_assoc.
Qed.

(** X18: the worker of the socket variant takes the messages in the order
    they were pushed, each once and none skipped: at any time the messages
    it has started on are the first ones pushed, whatever errors [Recv]
    made in between. And it finishes what it starts, as long as it lives:
    there is an e-mail sent for every message started on but, at most, the
    last one, and for every one when the loop is back in [Recv]. *)
Theorem X18_socket_worker_keeps_the_order (ticks : list ZeroLoop.tick) :
  let s := run ZeroLoop.loop ZeroLoop.init ticks in
  started_on (ZeroLoop.trace s) `prefix_of` pushed ticks ∧
  (sent (ZeroLoop.trace s) ≤ length (started_on (ZeroLoop.trace s))
   ≤ S (sent (ZeroLoop.trace s)))%nat ∧
  (ZeroLoop.at_pc s = ZeroLoop.Receiving →
   sent (ZeroLoop.trace s) = length (started_on (ZeroLoop.trace s))).
Proof.
  intros s. split; [apply (zero_run_charge ticks ZeroLoop.init)|].
  assert (Hc : zero_counted s).
  { apply (run_invariant ZeroLoop.loop zero_counted); [apply zero_step_counted | done]. }
  unfold zero_counted in Hc. destruct (ZeroLoop.at_pc s); split; try done; lia.
Qed.
